(** * torchQC: distance metrics between segmentation masks and 1-D motion
      simulation, embedded from
      [segmentation/metrics/distance_metrics.py] and
      [script/test_motion_1D.py]. *)

From Stdlib Require Import String ZArith QArith Qround Qabs Qfield Lqa Reals List Sorted Bool Lia Lra.
From ExtLib Require Import Structures.Monad Structures.MonadExc Data.Monads.EitherMonad.
Import ListNotations.
Import MonadNotation.

Local Open Scope Z_scope.

(** ** Dense 3-D tensors

    A dense tensor is its shape together with its indexing function; two
    tensors are the same array when they agree on every index inside the
    shape.  Indices are Python integers. *)

Definition idx : Type := (Z * Z * Z)%type.

Record tensor (A : Type) : Type := Tensor { shape : idx; item : idx -> A }.
Arguments Tensor {A} _ _.
Arguments shape {A} _.
Arguments item {A} _ _.

(** [range n] is Python's [range(n)]. *)
Definition range (n : Z) : list Z := map Z.of_nat (seq 0 (Z.to_nat n)).

(** Component [i] of a shape or index, and its update ([shape[i] = v]). *)
Definition axis (p : idx) (i : Z) : Z :=
  let '(a, b, c) := p in if i =? 0 then a else if i =? 1 then b else c.

Definition set_axis (p : idx) (i v : Z) : idx :=
  let '(a, b, c) := p in
  if i =? 0 then (v, b, c) else if i =? 1 then (a, v, c) else (a, b, v).

Definition in_shape (s p : idx) : bool :=
  let '(n0, n1, n2) := s in
  let '(a, b, c) := p in
  (0 <=? a) && (a <? n0) && (0 <=? b) && (b <? n1) && (0 <=? c) && (c <? n2).

(** Row-major enumeration of the indices of a shape. *)
Definition indices (s : idx) : list idx :=
  let '(n0, n1, n2) := s in
  flat_map (fun a => flat_map (fun b => map (fun c => (a, b, c)) (range n2))
                       (range n1)) (range n0).

Definition tmap {A B} (f : A -> B) (x : tensor A) : tensor B :=
  Tensor (shape x) (fun p => f (item x p)).

Definition tmap2 {A B C} (f : A -> B -> C) (x : tensor A) (y : tensor B) : tensor C :=
  Tensor (shape x) (fun p => f (item x p) (item y p)).

(** [torch.zeros(shape)] and [torch.zeros_like(x)], for an element [z]. *)
Definition full {A} (s : idx) (z : A) : tensor A := Tensor s (fun _ => z).

(** [torch.cat([x, z], dim=i)]. *)
Definition cat {A} (x z : tensor A) (i : Z) : tensor A :=
  Tensor (set_axis (shape x) i (axis (shape x) i + axis (shape z) i))
         (fun p => if axis p i <? axis (shape x) i then item x p
                   else item z (set_axis p i (axis p i - axis (shape x) i))).

(** [x[slices]] for [slices = [slice(lo_j, hi_j) for j in range(3)]] with
    [0 <= lo_j]: a stop beyond the end is clamped. *)
Definition slice_len (n : Z) (s : Z * Z) : Z :=
  Z.max 0 (Z.min (snd s) n - fst s).

Definition getitem_slices {A} (x : tensor A) (slices : Z -> Z * Z) : tensor A :=
  let '(n0, n1, n2) := shape x in
  Tensor (slice_len n0 (slices 0), slice_len n1 (slices 1), slice_len n2 (slices 2))
         (fun p => let '(a, b, c) := p in
                   item x (a + fst (slices 0), b + fst (slices 1), c + fst (slices 2))).

(** [x[mask] = v]. *)
Definition mask_assign {A} (x : tensor A) (mask : tensor bool) (v : A) : tensor A :=
  Tensor (shape x) (fun p => if item mask p then v else item x p).

(** The elements of a tensor in row-major order, and the positions of the
    non-zero ones ([x.nonzero(as_tuple=True)] read as a list of indices). *)
Definition elements {A} (x : tensor A) : list A := map (item x) (indices (shape x)).

(** Nested-list views, to write and read concrete volumes. *)
Definition of_list3 {A} (d : A) (l : list (list (list A))) : tensor A :=
  Tensor (Z.of_nat (length l),
          Z.of_nat (length (nth 0 l [])),
          Z.of_nat (length (nth 0 (nth 0 l []) [])))
         (fun p => let '(a, b, c) := p in
                   nth (Z.to_nat c) (nth (Z.to_nat b) (nth (Z.to_nat a) l []) []) d).

Definition to_list3 {A} (x : tensor A) : list (list (list A)) :=
  let '(n0, n1, n2) := shape x in
  map (fun a => map (fun b => map (fun c => item x (a, b, c)) (range n2)) (range n1))
      (range n0).

(** ** Element types

    The source is dynamically typed: [_get_border] receives float volumes
    as well as the boolean masks made by [average_hausdorff_distance].
    [gt_cut v cut] is [v > cut]; [zero] and [one] are what [zeros_like]
    and the assignment [border[...] = 1] store for that dtype. *)

Class Scalar (A : Type) : Type := {
  gt_cut : A -> Q -> bool;
  zero : A;
  one : A;
  is_nonzero : A -> bool
}.

Definition Qgtb (v cut : Q) : bool := negb (Qle_bool v cut).

#[export] Instance Scalar_Q : Scalar Q := {
  gt_cut := Qgtb;
  zero := 0%Q;
  one := 1%Q;
  is_nonzero := fun v => negb (Qeq_bool v 0)
}.

#[export] Instance Scalar_bool : Scalar bool := {
  gt_cut := fun b cut => Qgtb (if b then 1%Q else 0%Q) cut;
  zero := false;
  one := true;
  is_nonzero := fun b => b
}.

(** ** [_get_border] *)

Section Border.
Context {A : Type} `{Scalar A}.

(** One iteration of the loop [for i in range(dim)]. *)
Definition border_axis (ref : tensor Z) (spatial_shape : idx)
           (border : tensor A) (i : Z) : tensor A :=
  let shape_ := set_axis spatial_shape i 1 in
  let zeros := full shape_ 0 in
  let slices := fun j => (Z.b2z (i =? j), axis spatial_shape j + Z.b2z (i =? j)) in
  let concat := getitem_slices (cat ref zeros i) slices in
  let border := mask_assign border (tmap2 (fun r c => r - c =? 1) ref concat) one in
  let slices := fun j => (0, axis spatial_shape j) in
  let concat := getitem_slices (cat zeros ref i) slices in
  mask_assign border (tmap2 (fun r c => r - c =? 1) ref concat) one.

Definition _get_border (volume : tensor A) (cut : Q) : tensor A :=
  let dim := 3 in
  let ref := tmap (fun v => Z.b2z (gt_cut v cut)) volume in
  let border := full (shape volume) zero in
  let spatial_shape := shape ref in
  fold_left (border_axis ref spatial_shape) (range dim) border.
End Border.

(** ** Floats that are square roots

    Every float the metric handles is the square root of a small natural
    number: an entry of the distance map, or the radius.  Such a float is
    kept as its radicand.  The square root is strictly increasing, so
    [>], [==], [unique] and [min] on the radicands are those of the
    floats; [root_val] is the value that enters sums and quotients. *)

Abbreviation root := Z (only parsing).

Definition root_of_int (n : Z) : root := n * n.

Definition root_val (d : root) : R := sqrt (IZR d).

Definition zsum (l : list Z) : Z := fold_right Z.add 0 l.

Definition Rsum (l : list R) : R := fold_right Rplus 0%R l.

(** Minimum of a row; [torch.min] raises on an empty row, which the
    metric never builds (there is at least one kernel), and [d] stands
    for that case. *)
Definition list_min (d : Z) (l : list Z) : Z :=
  match l with
  | [] => d
  | h :: t => fold_left Z.min t h
  end.

(** [torch.arange(lo, hi)]. *)
Definition arange (lo hi : Z) : list Z := map (fun k => lo + k) (range (hi - lo)).

(** [torch.meshgrid([r, r, r])], the three grids flattened together:
    entry [n] holds the [n]-th elements of [grid[0].flatten()],
    [grid[1].flatten()] and [grid[2].flatten()]. *)
Definition meshgrid_flat (r : list Z) : list idx :=
  flat_map (fun a => flat_map (fun b => map (fun c => (a, b, c)) r) r) r.

(** [t.unique()]: the distinct values, ascending. *)
Fixpoint insert_unique (v : Z) (l : list Z) : list Z :=
  match l with
  | [] => [v]
  | h :: t => if v <? h then v :: l
              else if v =? h then l
              else h :: insert_unique v t
  end.

Definition unique (l : list Z) : list Z := fold_right insert_unique [] l.

(** [l.reshape(n0, n1, n2)] of a flat list. *)
Definition reshape {A} (d : A) (l : list A) (s : idx) : tensor A :=
  let '(n0, n1, n2) := s in
  Tensor s (fun p => let '(a, b, c) := p in
                     nth (Z.to_nat ((a * n1 + b) * n2 + c)) l d).

(** [torch.conv3d(input, kernels, padding=padding)[0]] for one input
    channel: a cross-correlation over the zero-padded input, one output
    channel per kernel. *)
Definition pad_item (input : tensor Z) (p : idx) : Z :=
  if in_shape (shape input) p then item input p else 0.

Definition out_len (n padding k : Z) : Z := n + 2 * padding - k + 1.

Definition conv3d_channel (input : tensor Z) (padding : Z) (k : tensor Z) : tensor Z :=
  let '(k0, k1, k2) := shape k in
  let '(n0, n1, n2) := shape input in
  Tensor (out_len n0 padding k0, out_len n1 padding k1, out_len n2 padding k2)
         (fun p => let '(i, j, l) := p in
            zsum (map (fun o => let '(a, b, c) := o in
                                item k o *
                                pad_item input (i + a - padding,
                                                j + b - padding,
                                                l + c - padding))
                      (indices (shape k)))).

Definition conv3d (input : tensor Z) (kernels : list (tensor Z)) (padding : Z)
  : list (tensor Z) :=
  map (conv3d_channel input padding) kernels.

(** [x.nonzero(as_tuple=True)] of a boolean mask, as the row-major list
    of its set positions. *)
Definition nonzero (x : tensor bool) : list idx := filter (item x) (indices (shape x)).

(** [x.sum()] of a boolean mask. *)
Definition count_true (x : tensor bool) : Z := zsum (map Z.b2z (elements x)).

(** Map with the column index. *)
Definition imap {A B} (f : nat -> A -> B) (l : list A) : list B :=
  map (fun cv => f (fst cv) (snd cv)) (combine (seq 0 (length l)) l).

(** ** [DistanceMetric] *)

Record DistanceMetric : Type := {
  cut : Q;
  radius : Z;
  dim : Z;
  d_max : root;
  distance_map : list root;
  distances : list root;
  distance_kernels : list (tensor Z)
}.

Definition _get_distance_map (radius dim : Z) : list root :=
  let distance_range := arange (- radius) (radius + 1) in
  let distance_grid := fun i => map (fun p => axis p i) (meshgrid_flat distance_range) in
  let squares := map (fun i => map (fun v => v ^ 2) (distance_grid i)) (range dim) in
  let distance_map :=
    fold_left (fun acc g => map (fun ab => fst ab + snd ab) (combine acc g)) squares
              (map (fun _ => 0) (meshgrid_flat distance_range)) in
  map (fun d => if root_of_int radius <? d then root_of_int radius else d) distance_map.

Definition _get_distance_kernels (radius : Z) (distance_map distances : list root)
  : list (tensor Z) :=
  map (fun idx =>
         let kernel := map (fun d => Z.b2z (d =? nth idx distances 0)) distance_map in
         reshape 0 kernel (2 * radius + 1, 2 * radius + 1, 2 * radius + 1))
      (seq 0 (length distances)).

(** [DistanceMetric.__init__]. *)
Definition DistanceMetric_init (cut : Q) (radius : Z) : DistanceMetric :=
  let dim := 3 in
  let distance_map := _get_distance_map radius dim in
  let distances := unique distance_map in
  {| cut := cut;
     radius := radius;
     dim := dim;
     d_max := root_of_int radius;
     distance_map := distance_map;
     distances := distances;
     distance_kernels := _get_distance_kernels radius distance_map distances |}.

(** [kernels[:-1].sum(dim=0, keepdim=True)]. *)
Definition sum_kernels (radius : Z) (kernels : list (tensor Z)) : tensor Z :=
  Tensor (2 * radius + 1, 2 * radius + 1, 2 * radius + 1)
         (fun p => zsum (map (fun k => item k p) kernels)).

Definition _pairwise_distances (self : DistanceMetric) (x y : tensor bool)
           (single_kernel : bool) : list (list root) :=
  let kernels := distance_kernels self in
  let kernels := if single_kernel
                 then [sum_kernels (radius self) (removelast kernels)]
                 else kernels in
  (* Compute distances to y points *)
  let distances_to_y := conv3d (tmap Z.b2z y) kernels (radius self) in
  (* Remove zero points from x *)
  let relevant_distances :=
    map (fun p => map (fun channel => item channel p) distances_to_y) (nonzero x) in
  (* Compute distances from convolution values *)
  let all_distances := map (map (fun _ : Z => 0)) relevant_distances in
  let indices := map (map (fun v => negb (v =? 0))) relevant_distances in
  let all_distances := map (map (fun v => if v =? 0 then d_max self else v)) all_distances in
  let all_distances :=
    map (fun rows : list bool * list root => imap (fun c (hv : bool * root) => if fst hv then nth c (distances self) 0 else snd hv)
                          (combine (fst rows) (snd rows)))
        (combine indices all_distances) in
  all_distances.

(** [volume > self.cut]. *)
Definition threshold (v : tensor Q) (cut : Q) : tensor bool := tmap (fun e => Qgtb e cut) v.

Definition average_hausdorff_distance (self : DistanceMetric)
           (prediction target : tensor Q) : R :=
  let prediction := threshold prediction (cut self) in
  let target := threshold target (cut self) in
  let prediction_mask := prediction in
  let prediction_mask := mask_assign prediction_mask (tmap2 andb prediction target) false in
  let target_mask := _get_border target (1 # 2) in
  let first_term :=
    if negb (count_true prediction_mask =? 0) then
      let min_dist := map (list_min 0)
                          (_pairwise_distances self prediction_mask target_mask false) in
      (Rsum (map root_val min_dist) / IZR (count_true prediction))%R
    else 0%R in
  let prediction_mask := _get_border prediction (1 # 2) in
  let target_mask := target in
  let target_mask := mask_assign target_mask (tmap2 andb prediction target) false in
  let second_term :=
    if negb (count_true target_mask =? 0) then
      let min_dist := map (list_min 0)
                          (_pairwise_distances self target_mask prediction_mask false) in
      (Rsum (map root_val min_dist) / IZR (count_true target))%R
    else 0%R in
  (first_term + second_term)%R.

Definition amount_of_far_points (self : DistanceMetric)
           (prediction target : tensor Q) : Z :=
  let prediction := threshold prediction (cut self) in
  let target := threshold target (cut self) in
  let prediction_mask := prediction in
  let prediction_mask := mask_assign prediction_mask (tmap2 andb prediction target) false in
  let target_mask := _get_border target (1 # 2) in
  if negb (count_true prediction_mask =? 0) then
    let min_dist := map (list_min 0)
                        (_pairwise_distances self prediction_mask target_mask true) in
    zsum (map (fun d => Z.b2z (root_of_int (radius self) <=? d)) min_dist)
  else 0.

(** ** Exceptions

    A call returns its value or the class name of the exception it
    raises. *)

Definition py : Type -> Type := sum string.

Definition py_raise {A} (e : string) : py A := raise e.

Local Open Scope monad_scope.

(** [l[i]] with Python's negative indices. *)
Definition py_getitem {A} (d : A) (l : list A) (i : Z) : py A :=
  let n := Z.of_nat (length l) in
  if (0 <=? i) && (i <? n) then ret (nth (Z.to_nat i) l d)
  else if (- n <=? i) && (i <? 0) then ret (nth (Z.to_nat (i + n)) l d)
  else py_raise "IndexError"%string.

(** ** [surface_distances] *)

Definition sq_dist (p q : idx) : Z :=
  let '(a, b, c) := p in
  let '(a', b', c') := q in
  (a - a') ^ 2 + (b - b') ^ 2 + (c - c') ^ 2.

(** [scipy.ndimage.distance_transform_edt]: at a non-zero element, the
    Euclidean distance to the nearest zero element; 0 at a zero element.
    (For an input without any zero element scipy's answer depends on its
    implementation; [list_min]'s default 0 stands there and no statement
    below relies on it.) *)
Definition distance_transform_edt (x : tensor bool) : tensor root :=
  Tensor (shape x)
         (fun p => if item x p
                   then list_min 0 (map (sq_dist p)
                                        (filter (fun q => negb (item x q)) (indices (shape x))))
                   else 0).

(** Modelled from the spec: [segmentation.utils.to_numpy] is not among the
    sources; the spec describes [surface_distances] as the numpy-based path
    over the same two masks, so the conversion keeps shape and elements. *)
Definition to_numpy {A} (x : tensor A) : tensor A := x.

(** [a[mask == 1]]: the elements at the set positions, row-major. *)
Definition select {A} (a : tensor A) (mask : tensor bool) : list A :=
  map (item a) (nonzero (Tensor (shape a) (item mask))).

(** [np.mean] of a non-empty list of roots. *)
Definition np_mean (l : list root) : R :=
  (Rsum (map root_val l) / INR (length l))%R.

Definition idx_eqb (s t : idx) : bool :=
  let '(a, b, c) := s in
  let '(a', b', c') := t in
  (a =? a') && (b =? b') && (c =? c').

Definition surface_distances {A} `{Scalar A} (x y : tensor A) : py R :=
  if negb (idx_eqb (shape x) (shape y)) then py_raise "AssertionError"%string else
  let x := to_numpy x in
  let y := to_numpy y in
  (* detect edge *)
  let x_dist_int := distance_transform_edt (tmap is_nonzero x) in
  let x_edge := tmap (fun d => d =? root_of_int 1) x_dist_int in
  let y_dist_int := distance_transform_edt (tmap is_nonzero y) in
  let y_edge := tmap (fun d => d =? root_of_int 1) y_dist_int in
  (* calculate distance from edge *)
  let x_dist := distance_transform_edt (tmap negb x_edge) in
  let y_dist := distance_transform_edt (tmap negb y_edge) in
  (* find distances from the 2 surfaces *)
  let x_dists_to_y := select y_dist x_edge in
  let y_dists_to_x := select x_dist y_edge in
  (* find average distance between 2 surfaces *)
  let x_mean_dist_to_y := np_mean x_dists_to_y in
  let y_mean_dist_to_x := np_mean y_dists_to_x in
  ret ((x_mean_dist_to_y + y_mean_dist_to_x) / 2)%R.

(** ** [corrupt_data]

    Courses hold rationals.  [sigma] and [amplitude] are both numbers
    (gauss, step, Ustep, sin) or both sequences (2step), as the callers
    pass them; using one kind where the other is expected raises
    [TypeError] at the first such use, as in Python.  A division by a zero
    [sigma] (gauss) or a zero [x0] (sin) gives IEEE infinities or NaN in
    the source and is not represented here. *)

Inductive shape_args : Type :=
| ScalarArgs (sigma : Z) (amplitude : Q)
| SeqArgs (sigma : list Z) (amplitude : list Q).

Inductive ndarray : Type :=
| Array1 (row : list Q)
| Array2 (rows : list (list Q)).

Definition np_full (n : Z) (v : Q) : py (list Q) :=
  if n <? 0 then py_raise "ValueError"%string else ret (repeat v (Z.to_nat n)).

Definition np_zeros (n : Z) : py (list Q) := np_full n 0%Q.
Definition np_ones (n : Z) : py (list Q) := np_full n 1%Q.

(** [np.linspace(start, stop, num)]. *)
Definition np_linspace (start stop : Q) (num : Z) : py (list Q) :=
  if num <? 0 then py_raise "ValueError"%string
  else ret (map (fun i => if num =? 1 then start
                          else (start + inject_Z i * ((stop - start) / inject_Z (num - 1)))%Q)
                (range num)).

Definition scalar_sigma (a : shape_args) : py Z :=
  match a with ScalarArgs s _ => ret s | SeqArgs _ _ => py_raise "TypeError"%string end.

Definition scalar_amplitude (a : shape_args) : py Q :=
  match a with ScalarArgs _ v => ret v | SeqArgs _ _ => py_raise "TypeError"%string end.

Definition seq_sigma (a : shape_args) (i : Z) : py Z :=
  match a with
  | ScalarArgs _ _ => py_raise "TypeError"%string
  | SeqArgs s _ => py_getitem 0 s i
  end.

Definition seq_amplitude (a : shape_args) (i : Z) : py Q :=
  match a with
  | ScalarArgs _ _ => py_raise "TypeError"%string
  | SeqArgs _ v => py_getitem 0%Q v i
  end.

(** Reading a local variable that may not have been assigned. *)
Definition load {A} (v : option A) : py A :=
  match v with Some a => ret a | None => py_raise "UnboundLocalError"%string end.

(** Python's slice bounds: [norm_bound i n] is where bound [i] falls in a
    sequence of length [n]. *)
Definition norm_bound (i n : Z) : Z :=
  if i <? 0 then Z.max 0 (i + n) else Z.min i n.

(** [y[lo:hi] = v]. *)
Definition slice_assign (y : list Q) (lo hi : Z) (v : Q) : list Q :=
  let n := Z.of_nat (length y) in
  let lo := norm_bound lo n in
  let hi := norm_bound hi n in
  imap (fun i e => if (lo <=? Z.of_nat i) && (Z.of_nat i <? hi) then v else e) y.

(** [fp[xx, :] = y]. *)
Definition set_row (fp : list (list Q)) (xx : Z) (y : list Q) (resolution : Z)
  : py (list (list Q)) :=
  let n := Z.of_nat (length fp) in
  if negb ((- n <=? xx) && (xx <? n)) then py_raise "IndexError"%string else
  let r := if xx <? 0 then xx + n else xx in
  if Z.of_nat (length y) =? resolution then
    ret (imap (fun i row => if Z.of_nat i =? r then y else row) fp)
  else if Z.of_nat (length y) =? 1 then
    ret (imap (fun i row => if Z.of_nat i =? r
                            then repeat (hd 0%Q y) (Z.to_nat resolution) else row) fp)
  else py_raise "ValueError"%string.

(** The loop [for xx in mvt_axes: fp[xx,:] = y]. *)
Fixpoint write_axes (fp : list (list Q)) (mvt_axes : list Z) (y : option (list Q))
         (resolution : Z) : py (list (list Q)) :=
  match mvt_axes with
  | [] => ret fp
  | xx :: rest =>
      yv <- load y ;;
      fp <- set_row fp xx yv resolution ;;
      write_axes fp rest y resolution
  end.

Section CorruptData.
(** [np.exp], [np.sin] and [np.pi] on floats. *)
Variable np_exp : Q -> Q.
Variable np_sin : Q -> Q.
Variable np_pi : Q.

Definition corrupt_data (x0 : Z) (args : shape_args) (method : string)
           (mvt_axes : list Z) (center : string) (resolution : Z) : py ndarray :=
  row <- np_zeros resolution ;;
  let fp := repeat row 6 in
  let x := arange 0 resolution in
  y <- (if (method =? "gauss")%string then
          sigma <- scalar_sigma args ;;
          let e := map (fun xi => np_exp (- inject_Z ((xi - x0) ^ 2)
                                          / inject_Z (2 * sigma ^ 2))%Q) x in
          amplitude <- scalar_amplitude args ;;
          ret (Some (map (fun v => v * amplitude)%Q e))
        else if (method =? "2step")%string then
          sigma0 <- seq_sigma args 0 ;;
          p1 <- np_zeros (x0 - sigma0) ;;
          amplitude0 <- seq_amplitude args 0 ;;
          p2 <- np_linspace 0 amplitude0 (2 * sigma0 + 1) ;;
          sigma1 <- seq_sigma args 1 ;;
          o3 <- np_ones (sigma1 - 1) ;;
          let p3 := map (fun v => v * amplitude0)%Q o3 in
          amplitude1 <- seq_amplitude args 1 ;;
          p4 <- np_linspace amplitude0 amplitude1 (2 * sigma0 + 1) ;;
          sigma2 <- seq_sigma args 2 ;;
          o5 <- np_ones (sigma2 - 1) ;;
          let p5 := map (fun v => v * amplitude1)%Q o5 in
          p6 <- np_linspace amplitude1 0 (2 * sigma0 + 1) ;;
          let y := p1 ++ p2 ++ p3 ++ p4 ++ p5 ++ p6 in
          let remain := resolution - Z.of_nat (length y) in
          if remain <? 0 then
            ret (Some (firstn (Z.to_nat (norm_bound remain (Z.of_nat (length y)))) y))
          else
            z <- np_zeros remain ;;
            ret (Some (y ++ z))
        else if (method =? "step")%string then
          if x0 <? 100 then
            sigma <- scalar_sigma args ;;
            p1 <- np_zeros (x0 - sigma) ;;
            amplitude <- scalar_amplitude args ;;
            p2 <- np_linspace 0 amplitude (2 * sigma + 1) ;;
            o3 <- np_ones ((resolution - x0) - sigma - 1) ;;
            ret (Some (p1 ++ p2 ++ map (fun v => v * amplitude)%Q o3))
          else
            sigma <- scalar_sigma args ;;
            p1 <- np_zeros (x0 - sigma) ;;
            amplitude <- scalar_amplitude args ;;
            p2 <- np_linspace 0 (- amplitude) (2 * sigma + 1) ;;
            o3 <- np_ones ((resolution - x0) - sigma - 1) ;;
            ret (Some (p1 ++ p2 ++ map (fun v => v * - amplitude)%Q o3))
        else if (method =? "Ustep")%string then
          y <- np_zeros resolution ;;
          sigma <- scalar_sigma args ;;
          let left := Z.max 0 (x0 - sigma / 2) in
          let y := slice_assign y left (x0 + sigma / 2) 1%Q in
          amplitude <- scalar_amplitude args ;;
          ret (Some (map (fun v => v * amplitude)%Q y))
        else if (method =? "sin")%string then
          ret (Some (map (fun xi => np_sin (inject_Z xi / inject_Z x0 * 2 * np_pi)%Q) x))
        else ret None) ;;
  y <- (if (center =? "zero")%string then
          yv <- load y ;;
          m <- py_getitem 0%Q yv (resolution / 2) ;;
          ret (Some (map (fun v => v - m)%Q yv))
        else ret y) ;;
  fp <- write_axes fp mvt_axes y resolution ;;
  yv <- load y ;;
  ret (Array1 yv).
End CorruptData.

(** ** [simu_motion]

    Signals hold real numbers and transforms complex numbers, in exact
    arithmetic. *)

Definition C : Type := (R * R)%type.

Definition C0 : C := (0, 0)%R.
Definition RtoC (x : R) : C := (x, 0%R).
Definition Cadd (z w : C) : C := (fst z + fst w, snd z + snd w)%R.
Definition Cmul (z w : C) : C :=
  (fst z * fst w - snd z * snd w, fst z * snd w + snd z * fst w)%R.
Definition Cscale (r : R) (z : C) : C := (r * fst z, r * snd z)%R.

(** [np.abs] of a complex number. *)
Definition Cabs (z : C) : R := sqrt (fst z * fst z + snd z * snd z).

(** [np.exp(1j * t)]. *)
Definition Cexp_i (t : R) : C := (cos t, sin t).

Fixpoint Csum_n (f : nat -> C) (n : nat) : C :=
  match n with
  | O => C0
  | S n' => Cadd (Csum_n f n') (f n')
  end.

Inductive signal : Type :=
| RealArray (a : list R)
| ComplexArray (a : list C).

(** [np.roll(l, shift)] on one axis. *)
Definition roll {A} (l : list A) (shift : Z) : list A :=
  let n := Z.of_nat (length l) in
  if n =? 0 then l
  else let k := Z.to_nat ((- shift) mod n) in skipn k l ++ firstn k l.

(** [np.fft.fftshift] and [np.fft.ifftshift] of a 1-D array. *)
Definition fftshift {A} (l : list A) : list A := roll l (Z.of_nat (length l) / 2).
Definition ifftshift {A} (l : list A) : list A := roll l (- (Z.of_nat (length l) / 2)).

(** [np.fft.fftn] and [np.fft.ifftn] of a 1-D array. *)
Definition dft (sign : R) (x : list C) (k : nat) : C :=
  let n := length x in
  Csum_n (fun m => Cmul (nth m x C0)
                        (Cexp_i (sign * (2 * PI * INR k * INR m / INR n))%R)) n.

Definition fftn (x : list C) : py (list C) :=
  if Nat.eqb (length x) 0 then py_raise "ValueError"%string
  else ret (map (dft (-1) x) (seq 0 (length x))).

Definition ifftn (x : list C) : py (list C) :=
  if Nat.eqb (length x) 0 then py_raise "ValueError"%string
  else ret (map (fun k => Cscale (1 / INR (length x)) (dft 1 x k)) (seq 0 (length x))).

(** [a / b] on Python integers. *)
Definition py_div (a b : Z) : py Q :=
  if b =? 0 then py_raise "ZeroDivisionError"%string
  else ret (inject_Z a / inject_Z b)%Q.

(** [np.arange(start, stop, step)] on floats. *)
Definition np_arange (start stop step : Q) : list Q :=
  map (fun i => (start + inject_Z i * step)%Q)
      (range (Qceiling ((stop - start) / step))).

(** An elementwise operation on two 1-D arrays, with numpy's
    broadcasting of a length-1 operand. *)
Definition broadcast {A B D} (f : A -> B -> D) (a : list A) (b : list B) : py (list D) :=
  if Nat.eqb (length a) (length b) then
    ret (map (fun ab => f (fst ab) (snd ab)) (combine a b))
  else match a, b with
       | [a0], _ => ret (map (f a0) b)
       | _, [b0] => ret (map (fun e => f e b0) a)
       | _, _ => py_raise "ValueError"%string
       end.

Definition simu_motion (fp so : list R) (return_abs : bool) : py signal :=
  let resolution := Z.of_nat (length fp) in
  f <- fftn (ifftshift (map RtoC so)) ;;
  let fi := fftshift f in
  q1 <- py_div 2 resolution ;;
  q2 <- py_div 2 (resolution - 1) ;;
  let kx := map Q2R (np_arange (-1) (1 + q1) q2) in
  fp_kspace <- broadcast (fun k d => Cexp_i (- PI * k * d)%R) kx fp ;;
  fm <- broadcast Cmul fi fp_kspace ;;
  g <- ifftn fm ;;
  let som := ifftshift g in
  if return_abs then ret (RealArray (map Cabs som))
  else ret (ComplexArray som).

(** ** Pointwise reading of [_get_border] *)

(** The forward- and backward-shifted copies of [ref] along axis [i]
    (zero beyond the edge), and the voxels the loop marks. *)
Definition forward (ref : tensor Z) (i : Z) (p : idx) : Z :=
  let q := set_axis p i (axis p i + 1) in
  if axis q i <? axis (shape ref) i then item ref q else 0.

Definition backward (ref : tensor Z) (i : Z) (p : idx) : Z :=
  if axis p i <? 1 then 0 else item ref (set_axis p i (axis p i - 1)).

Definition is_border (ref : tensor Z) (p : idx) : bool :=
  existsb (fun i => (item ref p - forward ref i p =? 1)
                    || (item ref p - backward ref i p =? 1)) (range 3).

(** The voxels on the outer faces of a grid of shape [s]. *)
Definition on_face (s p : idx) : bool :=
  existsb (fun i => (axis p i =? 0) || (axis p i =? axis s i - 1)) (range 3).

(** ** Reading the distance map by offset *)

Definition sq_norm (o : idx) : Z :=
  let '(i, j, k) := o in i ^ 2 + j ^ 2 + k ^ 2.

(** The squared distance of an offset, clipped at the squared radius. *)
Definition clipped (radius : Z) (o : idx) : Z :=
  if root_of_int radius <? sq_norm o then root_of_int radius else sq_norm o.

(** Position of the offset [(i, j, k)] of the cubic neighbourhood in the
    flattened map, and [distance_map[i, j, k]]. *)
Definition flat_index (radius : Z) (o : idx) : nat :=
  let '(i, j, k) := o in
  let D := 2 * radius + 1 in
  Z.to_nat (((i + radius) * D + (j + radius)) * D + (k + radius)).

Definition distance_at (self : DistanceMetric) (o : idx) : root :=
  nth (flat_index (radius self) o) (distance_map self) 0.

Definition in_cube (radius : Z) (o : idx) : Prop :=
  let '(i, j, k) := o in
  - radius <= i <= radius /\ - radius <= j <= radius /\ - radius <= k <= radius.

Definition neg_idx (o : idx) : idx := let '(i, j, k) := o in (- i, - j, - k).

(** ** Nearest target voxel, read directly *)

(** The offsets of the cubic neighbourhood. *)
Definition cube_offsets (radius : Z) : list idx :=
  meshgrid_flat (arange (- radius) (radius + 1)).

Definition shift_idx (p o : idx) : idx :=
  let '(a, b, c) := p in let '(i, j, k) := o in (a + i, b + j, c + k).

(** [hit y q]: [q] is inside the volume and set in the mask [y]. *)
Definition hit (y : tensor bool) (q : idx) : bool := in_shape (shape y) q && item y q.

(** The distance from [p] to the nearest voxel of [y] inside the
    neighbourhood, clipped at the radius; the radius when there is none. *)
Definition nearest (radius : Z) (y : tensor bool) (p : idx) : root :=
  list_min 0 (root_of_int radius
              :: map (clipped radius)
                     (filter (fun o => hit y (shift_idx p o)) (cube_offsets radius))).

(** Whether a voxel of [y] lies at an offset whose map distance is
    strictly below the radius. *)
Definition within (radius : Z) (y : tensor bool) (p : idx) : bool :=
  existsb (fun o => (clipped radius o <? root_of_int radius) && hit y (shift_idx p o))
          (cube_offsets radius).

(** ** The directional terms of [average_hausdorff_distance], read directly *)

(** The part of [a] outside [b]: [a] with the overlap [a * b] cleared. *)
Definition only (a b : tensor bool) : tensor bool :=
  mask_assign a (tmap2 andb a b) false.

(** The nearest distances from the voxels of [source_only] to [boundary],
    summed and divided by [n]; 0 when [source_only] is empty. *)
Definition mean_nearest (radius : Z) (source_only boundary : tensor bool) (n : nat) : R :=
  match nonzero source_only with
  | [] => 0%R
  | _ => (Rsum (map (fun v => root_val (nearest radius boundary v)) (nonzero source_only))
          / INR n)%R
  end.

(** The sum of the two directional terms with each sum divided by the
    number of voxels it ranges over, as the specification words it. *)
Definition average_over_only (radius : Z) (prediction target : tensor bool) : R :=
  (mean_nearest radius (only prediction target) (_get_border target (1 # 2))
                (length (nonzero (only prediction target)))
   + mean_nearest radius (only target prediction) (_get_border prediction (1 # 2))
                  (length (nonzero (only target prediction))))%R.

(** ** Unit-cube masks *)

(** The 0/1 volume of shape [s] whose only foreground voxel is [p]: a cube
    of side 1. *)
Definition unit_cube (s p : idx) : tensor Q :=
  Tensor s (fun v => if idx_eqb v p then 1%Q else 0%Q).

Definition diff_idx (q p : idx) : idx :=
  let '(a, b, c) := q in let '(i, j, k) := p in (a - i, b - j, c - k).

(** A boolean mask whose only set voxel is [q]. *)
Definition single_voxel (y : tensor bool) (q : idx) : Prop :=
  in_shape (shape y) q = true /\
  forall v, in_shape (shape y) v = true -> item y v = idx_eqb v q.

(** ** The method names [corrupt_data] recognises *)

Definition recognised : list string :=
  ["gauss"; "2step"; "step"; "Ustep"; "sin"]%string.

(** ** The transform of a modulated signal *)

(** The unit [(1, 0)] and the signal [x] with the sign of every odd sample
    flipped: [x[m] * exp(-1j * pi * m)]. *)
Definition Cone : C := (1, 0)%R.

Definition modulate (x : list C) : list C :=
  imap (fun m z => Cmul z (Cexp_i (- (PI * INR m))%R)) x.

(** ** Exposed voxels *)

(** [fg volume cut q]: [q] is inside the grid and above the threshold. *)
Definition fg {A} `{Scalar A} (volume : tensor A) (cut : Q) (q : idx) : bool :=
  in_shape (shape volume) q && gt_cut (item volume q) cut.

(** The neighbour of [p] at [d] steps along axis [i]. *)
Definition step_idx (p : idx) (i d : Z) : idx := set_axis p i (axis p i + d).

(** A foreground voxel one of whose six axis neighbours is background or
    outside the grid. *)
Definition exposed {A} `{Scalar A} (volume : tensor A) (cut : Q) (p : idx) : bool :=
  fg volume cut p
  && existsb (fun i => negb (fg volume cut (step_idx p i 1))
                       || negb (fg volume cut (step_idx p i (-1)))) (range 3).

(** ** Batch reducers

    A batch is the list of its samples; [zip] stops at the shorter one. *)

Definition batch_average_hausdorff_distance (self : DistanceMetric)
           (prediction target : list (tensor Q)) : R :=
  fold_left (fun res pt => (res + average_hausdorff_distance self (fst pt) (snd pt))%R)
            (combine prediction target) 0%R.

Definition batch_amount_of_far_points (self : DistanceMetric)
           (prediction target : list (tensor Q)) : Z :=
  fold_left (fun res pt => res + amount_of_far_points self (fst pt) (snd pt))
            (combine prediction target) 0.

(** ** [get_random_2step]

    The five random draws are arguments: [randint1] and [randint2] are the
    two plateau lengths, [rand1] and [rand2] the two amplitudes and
    [randint3] the centre index; [resolution] is the global of the
    script. *)

Section Random2Step.
Variable np_exp : Q -> Q.
Variable np_sin : Q -> Q.
Variable np_pi : Q.

Definition get_random_2step (randint1 randint2 : Z) (rand1 rand2 : Q) (randint3 : Z)
           (resolution : Z) (rampe : Z) (sym : bool) : py ndarray :=
  let sigma := [rampe; randint1; randint2] in
  let ampli := [rand1; rand2] in
  let x0 := randint3 in
  so <- corrupt_data np_exp np_sin np_pi x0 (SeqArgs sigma ampli) "2step" [1] "None"
                     resolution ;;
  if sym then
    match so with
    | Array1 so =>
        let center := Z.of_nat (length so) / 2 in
        let head := firstn (Z.to_nat center) so in
        ret (Array1 (head ++ rev head))
    | Array2 so =>
        let center := Z.of_nat (length so) / 2 in
        let head := firstn (Z.to_nat center) so in
        ret (Array2 (map (fun ab => fst ab ++ snd ab)
                         (combine head (rev (map (@rev Q) head)))))
    end
  else ret so.
End Random2Step.

(** ** [l1_shfit]

    The value [l1_shfit] returns; the plot drawn under [do_plot] is left
    out.  Arrays hold exact rationals. *)

(** [l[start:stop]], a bound left out being [None]. *)
Definition py_slice {A} (l : list A) (start stop : option Z) : list A :=
  let n := Z.of_nat (length l) in
  let lo := match start with Some i => norm_bound i n | None => 0 end in
  let hi := match stop with Some i => norm_bound i n | None => n end in
  firstn (Z.to_nat (hi - lo)) (skipn (Z.to_nat lo) l).

(** [np.sum] of a 1-D array. *)
Definition np_sum (l : list Q) : Q := fold_right Qplus 0%Q l.

(** [np.argmin] of a list: the first index of the least value. *)
Fixpoint np_argmin_from (best : nat) (least : Q) (i : nat) (l : list Q) : nat :=
  match l with
  | [] => best
  | v :: rest =>
      if Qle_bool least v then np_argmin_from best least (S i) rest
      else np_argmin_from i v (S i) rest
  end.

Definition np_argmin (l : list Q) : py nat :=
  match l with
  | [] => py_raise "ValueError"%string
  | v :: rest => ret (np_argmin_from 0 v 1 rest)
  end.

(** [np.hstack([y1[-shift:], y1[0:-shift]])]. *)
Definition shifted_copy (y1 : list Q) (shift : Z) : list Q :=
  py_slice y1 (Some (- shift)) None ++ py_slice y1 (Some 0) (Some (- shift)).

(** The loop over [shifts], which fills [l1]. *)
Fixpoint l1_loop (y1 y2 : list Q) (shifts : list Z) : py (list Q) :=
  match shifts with
  | [] => ret []
  | shift :: rest =>
      let y := shifted_copy y1 shift in
      d <- broadcast Qminus y y2 ;;
      let ll1 := np_sum (map Qabs d) in
      l1 <- l1_loop y1 y2 rest ;;
      ret (ll1 :: l1)
  end.

Definition l1_shfit (y1 y2 : list Q) (shifts : list Z) : py Z :=
  l1 <- l1_loop y1 y2 shifts ;;
  i <- np_argmin l1 ;;
  py_getitem 0 shifts (Z.of_nat i).

(** [np.sum(np.abs(y - y2))] for two arrays of the same length. *)
Definition l1_distance (y y2 : list Q) : Q :=
  np_sum (map Qabs (map (fun ab => fst ab - snd ab)%Q (combine y y2))).

(** ** [_translate_freq_domain]

    For a 1-D [freq_domain] and a 1-D array of [translations]. *)

Definition _translate_freq_domain (freq_domain : list C) (translations : list R)
           (inv_transfo : bool) : py (list C) :=
  let translations := if inv_transfo then map Ropp translations else translations in
  lin_space <- np_linspace (- (1 # 2)) (1 # 2) (Z.of_nat (length freq_domain)) ;;
  let grid_coords := map Q2R lin_space in
  phase_shift <- broadcast Rmult grid_coords translations ;;
  let exp_phase_shift := map (fun p => Cexp_i (-2 * PI * p)%R) phase_shift in
  freq_domain_translated <- broadcast Cmul exp_phase_shift freq_domain ;;
  if Nat.eqb (length freq_domain_translated) (length freq_domain)
  then ret freq_domain_translated
  else py_raise "ValueError"%string.

(** A 1-D array as numpy's broadcasting sees it beside an array of
    length [n]. *)
Definition expand {A} (d : A) (b : list A) (n : nat) : list A :=
  if Nat.eqb (length b) n then b else repeat (hd d b) n.

(** One sample of the translated spectrum: grid coordinate [g],
    translation [t], sample [z]. *)
Definition phase_mul (gtz : R * R * C) : C :=
  Cmul (Cexp_i (-2 * PI * (fst (fst gtz) * snd (fst gtz)))%R) (snd gtz).

(** ** Energy of a signal

    Used to state what [simu_motion] preserves. *)

Definition Cconj (z : C) : C := (fst z, (- snd z)%R).

(** [|z|^2]. *)
Definition Cnorm2 (z : C) : R := (fst z * fst z + snd z * snd z)%R.

(** The sum of the squared samples of a real array, and of the squared
    magnitudes of a complex one. *)
Definition energy (l : list R) : R := Rsum (map (fun v => (v * v)%R) l).
Definition Cenergy (l : list C) : R := Rsum (map Cnorm2 l).

Fixpoint Rsum_n (f : nat -> R) (n : nat) : R :=
  match n with
  | O => 0%R
  | S n' => (Rsum_n f n' + f n')%R
  end.

(** * Verification *)

Lemma range_3 : range 3 = [0; 1; 2].
Proof. reflexivity. Qed.

Lemma get_border_shape {A} `{Scalar A} (volume : tensor A) cut :
  shape (_get_border volume cut) = shape volume.
Proof. reflexivity. Qed.


Lemma border_axis_item {A} `{Scalar A} (ref : tensor Z) (border : tensor A) i p :
  i = 0 \/ i = 1 \/ i = 2 ->
  item (border_axis ref (shape ref) border i) p =
  if (item ref p - forward ref i p =? 1) || (item ref p - backward ref i p =? 1)
  then one else item border p.
Proof.
  destruct p as [[a b] c]. destruct ref as [[[n0 n1] n2] f].
  intros [-> | [-> | ->]];
    unfold border_axis, getitem_slices, cat, full, tmap2, mask_assign, forward, backward,
      set_axis, axis; simpl;
    rewrite ?Z.add_0_r;
    repeat match goal with
           | |- context [if ?b then _ else _] => destruct b eqn:?; simpl
           end; try reflexivity; try congruence;
    rewrite ?orb_true_r, ?orb_false_r in *; congruence.
Qed.

Lemma get_border_item {A} `{Scalar A} (volume : tensor A) cut p :
  item (_get_border volume cut) p =
  if is_border (tmap (fun v => Z.b2z (gt_cut v cut)) volume) p then one else zero.
Proof.
  unfold _get_border, is_border. rewrite range_3.
  cbv zeta. simpl fold_left.
  set (ref := tmap _ volume).
  change (shape volume) with (shape ref).
  rewrite !border_axis_item by auto.
  simpl existsb. unfold full; simpl item.
  repeat match goal with
         | |- context [(?u =? 1) || (?v =? 1)] =>
             let b := fresh "b" in set (b := (u =? 1) || (v =? 1)); clearbody b
         end.
  repeat match goal with b : bool |- _ => destruct b end; reflexivity.
Qed.

Section BorderFacts.
Context {A : Type} `{Scalar A}.
Variable volume : tensor A.
Variable cut : Q.

Let ref := tmap (fun v => Z.b2z (gt_cut v cut)) volume.

Lemma ref_bit p : item ref p = 0 \/ item ref p = 1.
Proof. unfold ref; simpl. destruct (gt_cut _ _); auto. Qed.

Lemma forward_bit i p : forward ref i p = 0 \/ forward ref i p = 1.
Proof. unfold forward. destruct (_ <? _); auto using ref_bit. Qed.

Lemma backward_bit i p : backward ref i p = 0 \/ backward ref i p = 1.
Proof. unfold backward. destruct (_ <? _); auto using ref_bit. Qed.

Lemma is_border_foreground p : is_border ref p = true -> item ref p = 1.
Proof.
  unfold is_border. rewrite existsb_exists. intros (i & _ & Hi).
  apply orb_true_iff in Hi.
  destruct (ref_bit p), (forward_bit i p), (backward_bit i p), Hi as [Hi | Hi];
    apply Z.eqb_eq in Hi; lia.
Qed.

Lemma background_not_border p : item ref p = 0 -> is_border ref p = false.
Proof.
  intros Hp. destruct (is_border ref p) eqn:E; [|reflexivity].
  apply is_border_foreground in E. lia.
Qed.
End BorderFacts.

Lemma in_shape_spec s p :
  in_shape s p = true <->
  (0 <= axis p 0 < axis s 0) /\ (0 <= axis p 1 < axis s 1) /\ (0 <= axis p 2 < axis s 2).
Proof.
  destruct s as [[n0 n1] n2], p as [[a b] c]. unfold in_shape. simpl.
  rewrite !andb_true_iff, !Z.leb_le, !Z.ltb_lt. lia.
Qed.

Lemma in_shape_set_axis s p i v :
  i = 0 \/ i = 1 \/ i = 2 ->
  in_shape s p = true -> 0 <= v < axis s i -> in_shape s (set_axis p i v) = true.
Proof.
  destruct s as [[n0 n1] n2], p as [[a b] c].
  intros [-> | [-> | ->]]; rewrite !in_shape_spec; simpl; lia.
Qed.

Lemma axis_set_axis p i v : axis (set_axis p i v) i = v.
Proof.
  destruct p as [[a b] c]. unfold axis, set_axis.
  destruct (i =? 0) eqn:E0; simpl; rewrite ?E0; [reflexivity|].
  destruct (i =? 1) eqn:E1; simpl; rewrite ?E0, ?E1; reflexivity.
Qed.

Lemma in_shape_axis s p i :
  i = 0 \/ i = 1 \/ i = 2 -> in_shape s p = true -> 0 <= axis p i < axis s i.
Proof. intros [-> | [-> | ->]] Hp; apply in_shape_spec in Hp; lia. Qed.

(** C9: every voxel that [_get_border] marks (leaves non-zero) is a
    foreground voxel of the thresholded volume, [volume > cut]: the border
    mask is a subset of the thresholded mask. *)
Theorem border_within_foreground {A} `{Scalar A} (volume : tensor A) (cut : Q) (p : idx) :
  item (_get_border volume cut) p <> zero ->
  gt_cut (item volume p) cut = true.
Proof.
  rewrite get_border_item. intros Hm.
  destruct (is_border _ p) eqn:E; [|congruence].
  apply is_border_foreground in E. simpl in E.
  destruct (gt_cut (item volume p) cut); [reflexivity | discriminate].
Qed.

Lemma border_within_foreground_witness :
  item (_get_border (of_list3 0%Q [[[0%Q; 1%Q; 1%Q]]]) (1 # 2)) (0, 0, 1) <> 0%Q /\
  Qgtb (item (of_list3 0%Q [[[0%Q; 1%Q; 1%Q]]]) (0, 0, 1)) (1 # 2) = true.
Proof.
  split.
  - vm_compute. discriminate.
  - refine (border_within_foreground (of_list3 0%Q [[[0%Q; 1%Q; 1%Q]]]) (1 # 2) (0, 0, 1) _).
    vm_compute. discriminate.
Defined.

(** C2 (as amended): a volume that is nowhere above the threshold has an
    all-zero border; a volume that is everywhere above the threshold has
    its border exactly on the outer faces of the grid (the voxels with a
    coordinate equal to 0 or to the last index of its axis), because the
    shifted copies are zero-padded at the edge. *)
Theorem border_of_uniform_volume {A} `{Scalar A} (empty filled : tensor A) (cut : Q) :
  (forall p, in_shape (shape empty) p = true -> gt_cut (item empty p) cut = false) ->
  (forall p, in_shape (shape filled) p = true -> gt_cut (item filled p) cut = true) ->
  (forall p, in_shape (shape empty) p = true ->
             item (_get_border empty cut) p = zero) /\
  (forall p, in_shape (shape filled) p = true ->
             item (_get_border filled cut) p =
             if on_face (shape filled) p then one else zero).
Proof.
  intros He Hf. split; intros p Hp; rewrite get_border_item.
  - rewrite background_not_border; [reflexivity|].
    simpl. rewrite He by assumption. reflexivity.
  - set (ref := tmap _ filled).
    assert (Hall : forall q, in_shape (shape filled) q = true -> item ref q = 1).
    { intros q Hq. unfold ref; simpl. rewrite Hf by assumption. reflexivity. }
    assert (E : is_border ref p = on_face (shape filled) p); [|rewrite E; reflexivity].
    unfold is_border, on_face. rewrite range_3.
    assert (Hax : forall i, i = 0 \/ i = 1 \/ i = 2 ->
              (item ref p - forward ref i p =? 1) || (item ref p - backward ref i p =? 1)
              = (axis p i =? 0) || (axis p i =? axis (shape filled) i - 1)).
    { intros i Hi. rewrite (Hall p Hp).
      pose proof (in_shape_axis _ _ i Hi Hp) as Hr.
      unfold forward, backward. rewrite axis_set_axis.
      change (shape ref) with (shape filled).
      destruct (Z.ltb_spec (axis p i + 1) (axis (shape filled) i)) as [L | L];
        destruct (Z.ltb_spec (axis p i) 1) as [L' | L'];
        rewrite ?Hall by (apply in_shape_set_axis; auto; lia);
        repeat match goal with
               | |- context [?u =? ?v] => destruct (Z.eqb_spec u v)
               end; simpl; try reflexivity; lia. }
    simpl existsb. rewrite !Hax by auto. reflexivity.
Qed.

Lemma border_of_uniform_volume_witness :
  (forall p, in_shape (2, 3, 2) p = true ->
             Qgtb (item (full (2, 3, 2) 0%Q) p) (1 # 2) = false) /\
  (forall p, in_shape (3, 3, 3) p = true ->
             Qgtb (item (full (3, 3, 3) 1%Q) p) (1 # 2) = true) /\
  (forall p, in_shape (2, 3, 2) p = true ->
             item (_get_border (full (2, 3, 2) 0%Q) (1 # 2)) p = 0%Q) /\
  (forall p, in_shape (3, 3, 3) p = true ->
             item (_get_border (full (3, 3, 3) 1%Q) (1 # 2)) p =
             if on_face (3, 3, 3) p then 1%Q else 0%Q).
Proof.
  assert (He : forall p, in_shape (2, 3, 2) p = true ->
                         Qgtb (item (full (2, 3, 2) 0%Q) p) (1 # 2) = false)
    by (intros p _; reflexivity).
  assert (Hf : forall p, in_shape (3, 3, 3) p = true ->
                         Qgtb (item (full (3, 3, 3) 1%Q) p) (1 # 2) = true)
    by (intros p _; reflexivity).
  split; [exact He | split; [exact Hf |]].
  exact (border_of_uniform_volume (full (2, 3, 2) 0%Q) (full (3, 3, 3) 1%Q) (1 # 2) He Hf).
Defined.

(** C2, the claim as stated fails: a 2x2x2 volume that is everywhere above
    the threshold has every voxel marked as border. *)
Lemma border_all_foreground_counterexample :
  let volume := of_list3 0%Q [[[1%Q; 1%Q]; [1%Q; 1%Q]]; [[1%Q; 1%Q]; [1%Q; 1%Q]]] in
  forallb (fun p => Qgtb (item volume p) (1 # 2)) (indices (shape volume)) = true /\
  to_list3 (_get_border volume (1 # 2))
  = [[[1%Q; 1%Q]; [1%Q; 1%Q]]; [[1%Q; 1%Q]; [1%Q; 1%Q]]].
Proof. split; vm_compute; reflexivity. Qed.

Lemma range_length n : length (range n) = Z.to_nat n.
Proof. unfold range. rewrite length_map, length_seq. reflexivity. Qed.

Lemma nth_range n i d : (i < Z.to_nat n)%nat -> nth i (range n) d = Z.of_nat i.
Proof.
  intros Hi. unfold range.
  rewrite (nth_indep _ d (Z.of_nat 0)) by (rewrite length_map, length_seq; exact Hi).
  rewrite map_nth, seq_nth by exact Hi. reflexivity.
Qed.

Lemma In_range n v : In v (range n) <-> 0 <= v < n.
Proof.
  unfold range. rewrite in_map_iff. split.
  - intros (k & <- & Hk). apply in_seq in Hk. lia.
  - intros Hv. exists (Z.to_nat v). split; [lia|]. apply in_seq. lia.
Qed.

Lemma arange_length lo hi : length (arange lo hi) = Z.to_nat (hi - lo).
Proof. unfold arange. rewrite length_map. apply range_length. Qed.

Lemma nth_arange lo hi i d :
  (i < Z.to_nat (hi - lo))%nat -> nth i (arange lo hi) d = lo + Z.of_nat i.
Proof.
  intros Hi. unfold arange.
  rewrite (nth_indep _ d (lo + 0)) by (rewrite length_map, range_length; exact Hi).
  rewrite (map_nth (fun k => lo + k)), nth_range by exact Hi. reflexivity.
Qed.

(** Blocks of equal length laid end to end. *)
Lemma nth_flat_map_blocks {A B} (f : A -> list B) (n : nat) (l : list A) :
  (forall x, length (f x) = n) ->
  forall i j dA dB, (i < length l)%nat -> (j < n)%nat ->
    nth (i * n + j) (flat_map f l) dB = nth j (f (nth i l dA)) dB.
Proof.
  intros Hlen. induction l as [|x l IH]; intros i j dA dB Hi Hj; simpl in Hi; [lia|].
  simpl flat_map. destruct i as [|i].
  - simpl. rewrite app_nth1 by (rewrite Hlen; exact Hj). reflexivity.
  - rewrite app_nth2 by (rewrite Hlen; simpl; lia).
    rewrite Hlen. replace (S i * n + j - n)%nat with (i * n + j)%nat by (simpl; lia).
    simpl nth. apply IH; lia.
Qed.

Lemma flat_map_length_blocks {A B} (f : A -> list B) (n : nat) (l : list A) :
  (forall x, length (f x) = n) -> length (flat_map f l) = (length l * n)%nat.
Proof.
  intros Hlen. induction l as [|x l IH]; simpl; [reflexivity|].
  rewrite length_app, Hlen, IH. reflexivity.
Qed.

Lemma meshgrid_flat_length r :
  length (meshgrid_flat r) = (length r * (length r * length r))%nat.
Proof.
  unfold meshgrid_flat.
  rewrite (flat_map_length_blocks _ (length r * length r)); [reflexivity|].
  intros a. rewrite (flat_map_length_blocks _ (length r)); [reflexivity|].
  intros b. apply length_map.
Qed.

Lemma nth_meshgrid_flat r a b c d :
  (a < length r)%nat -> (b < length r)%nat -> (c < length r)%nat ->
  nth ((a * length r + b) * length r + c) (meshgrid_flat r) d
  = (nth a r 0, nth b r 0, nth c r 0).
Proof.
  intros Ha Hb Hc. unfold meshgrid_flat.
  replace ((a * length r + b) * length r + c)%nat
    with (a * (length r * length r) + (b * length r + c))%nat by lia.
  rewrite (nth_flat_map_blocks _ (length r * length r) r) with (dA := 0);
    [| intros x; rewrite (flat_map_length_blocks _ (length r)); [reflexivity|];
       intros y; apply length_map
     | exact Ha | nia].
  rewrite (nth_flat_map_blocks _ (length r) r) with (dA := 0);
    [| intros y; apply length_map | exact Hb | exact Hc].
  cbv beta.
  rewrite (nth_indep _ d (nth a r 0, nth b r 0, 0))
    by (rewrite length_map; exact Hc).
  exact (map_nth (fun c0 => (nth a r 0, nth b r 0, c0)) r 0 c).
Qed.

Lemma sum_of_squares (l : list idx) :
  fold_left (fun acc g => map (fun ab => fst ab + snd ab) (combine acc g))
            (map (fun i => map (fun v => v ^ 2) (map (fun p => axis p i) l)) (range 3))
            (map (fun _ => 0) l)
  = map sq_norm l.
Proof.
  rewrite range_3. cbn [fold_left map].
  induction l as [|[[i j] k] l IH]; [reflexivity|].
  cbn -[Z.pow] in *. rewrite IH. f_equal.
Qed.

(** The map is the clipped squared norm of each offset of the grid. *)
Lemma get_distance_map_clipped radius :
  _get_distance_map radius 3
  = map (clipped radius) (meshgrid_flat (arange (- radius) (radius + 1))).
Proof.
  unfold _get_distance_map. cbv zeta.
  rewrite sum_of_squares, map_map. reflexivity.
Qed.

Lemma distance_at_clipped c r o :
  0 <= r -> in_cube r o ->
  distance_at (DistanceMetric_init c r) o = clipped r o.
Proof.
  intros Hr Ho. destruct o as [[i j] k]. simpl in Ho.
  unfold distance_at, flat_index, DistanceMetric_init. cbv zeta. cbn [radius distance_map].
  rewrite get_distance_map_clipped.
  set (rg := arange (- r) (r + 1)).
  assert (Hlen : length rg = Z.to_nat (2 * r + 1)).
  { unfold rg. rewrite arange_length. f_equal. lia. }
  replace (Z.to_nat (((i + r) * (2 * r + 1) + (j + r)) * (2 * r + 1) + (k + r)))
    with ((Z.to_nat (i + r) * length rg + Z.to_nat (j + r)) * length rg
          + Z.to_nat (k + r))%nat by (rewrite Hlen; nia).
  rewrite (nth_indep _ 0 (clipped r (0, 0, 0))).
  2:{ rewrite length_map, meshgrid_flat_length, Hlen. nia. }
  rewrite (map_nth (clipped r)), nth_meshgrid_flat by (rewrite Hlen; lia).
  unfold rg. rewrite !nth_arange by lia.
  do 3 f_equal; lia.
Qed.

Lemma sq_norm_nonneg o : 0 <= sq_norm o.
Proof. destruct o as [[i j] k]. unfold sq_norm. nia. Qed.

Lemma sq_norm_neg o : sq_norm (neg_idx o) = sq_norm o.
Proof. destruct o as [[i j] k]. unfold sq_norm, neg_idx. nia. Qed.

Lemma sq_norm_zero o : sq_norm o = 0 <-> o = (0, 0, 0).
Proof.
  destruct o as [[i j] k]. unfold sq_norm. split.
  - intros Hz. assert (i = 0) by nia. assert (j = 0) by nia. assert (k = 0) by nia.
    congruence.
  - intros [= -> -> ->]. reflexivity.
Qed.

Lemma clipped_nonneg r o : 0 <= clipped r o.
Proof.
  unfold clipped, root_of_int. pose proof (sq_norm_nonneg o).
  destruct (_ <? _); nia.
Qed.

Lemma clipped_le r o : clipped r o <= root_of_int r.
Proof. unfold clipped. destruct (Z.ltb_spec (root_of_int r) (sq_norm o)); lia. Qed.

Lemma clipped_zero r o : 1 <= r -> (clipped r o = 0 <-> o = (0, 0, 0)).
Proof.
  intros Hr. rewrite <- sq_norm_zero. unfold clipped, root_of_int.
  pose proof (sq_norm_nonneg o).
  destruct (Z.ltb_spec (r * r) (sq_norm o)); nia.
Qed.

Lemma in_cube_neg r o : in_cube r o -> in_cube r (neg_idx o).
Proof. destruct o as [[i j] k]. simpl. lia. Qed.

Lemma distance_map_length c r :
  0 <= r ->
  length (distance_map (DistanceMetric_init c r))
  = Z.to_nat ((2 * r + 1) * (2 * r + 1) * (2 * r + 1)).
Proof.
  intros Hr. unfold DistanceMetric_init. cbv zeta. cbn [distance_map].
  rewrite get_distance_map_clipped, length_map, meshgrid_flat_length, arange_length.
  replace (r + 1 - - r) with (2 * r + 1) by lia. nia.
Qed.

(** Every position of the flattened map is the position of an offset of
    the cube. *)
Lemma flat_index_onto r n :
  0 <= r -> (n < Z.to_nat ((2 * r + 1) * (2 * r + 1) * (2 * r + 1)))%nat ->
  exists o, in_cube r o /\ flat_index r o = n.
Proof.
  intros Hr Hn. set (D := 2 * r + 1) in *. set (z := Z.of_nat n).
  assert (HD : 0 < D) by (unfold D; lia).
  assert (Hz : 0 <= z < D * D * D) by (unfold z; lia).
  pose proof (Z.div_mod z D ltac:(lia)) as E1.
  pose proof (Z.mod_pos_bound z D HD) as B1.
  pose proof (Z.div_mod (z / D) D ltac:(lia)) as E2.
  pose proof (Z.mod_pos_bound (z / D) D HD) as B2.
  assert (B3 : 0 <= z / D / D < D).
  { split; [apply Z.div_pos; [apply Z.div_pos|]; lia|].
    apply Z.div_lt_upper_bound; [lia|]. apply Z.div_lt_upper_bound; [lia|]. nia. }
  exists (z / D / D - r, (z / D) mod D - r, z mod D - r). split.
  - simpl. unfold D in *. lia.
  - unfold flat_index. fold D.
    replace ((z / D / D - r + r) * D + ((z / D) mod D - r + r)) with (z / D) by lia.
    replace (z / D * D + (z mod D - r + r)) with z by lia.
    unfold z. lia.
Qed.

(** C8: for every radius >= 1 the distance map built at construction is
    symmetric under negation of the offset, its entries are non-negative
    with 0 among them (so its minimum is 0), and the centre offset is the
    one entry equal to 0. *)
Theorem distance_map_symmetric_zero_centre (c : Q) (r : Z) :
  1 <= r ->
  let self := DistanceMetric_init c r in
  (forall o, in_cube r o -> distance_at self o = distance_at self (neg_idx o)) /\
  (forall d, In d (distance_map self) -> 0 <= d) /\
  In 0 (distance_map self) /\
  (forall o, in_cube r o -> (distance_at self o = 0 <-> o = (0, 0, 0))) /\
  (forall n, (n < length (distance_map self))%nat ->
             (nth n (distance_map self) 0 = 0 <-> n = flat_index r (0, 0, 0))).
Proof.
  intros Hr self.
  assert (Hat : forall o, in_cube r o -> distance_at self o = clipped r o)
    by (intros o Ho; apply distance_at_clipped; [lia | exact Ho]).
  assert (Hc0 : in_cube r (0, 0, 0)) by (simpl; lia).
  assert (Hzero : forall o, in_cube r o -> (distance_at self o = 0 <-> o = (0, 0, 0)))
    by (intros o Ho; rewrite Hat by exact Ho; apply clipped_zero; exact Hr).
  assert (Hlen : length (distance_map self)
                 = Z.to_nat ((2 * r + 1) * (2 * r + 1) * (2 * r + 1)))
    by (apply distance_map_length; lia).
  assert (Hidx : forall o, in_cube r o -> (flat_index r o < length (distance_map self))%nat).
  { intros [[i j] k] Ho. simpl in Ho. rewrite Hlen. unfold flat_index. nia. }
  repeat split.
  - intros o Ho. rewrite !Hat by auto using in_cube_neg.
    unfold clipped. rewrite sq_norm_neg. reflexivity.
  - intros d Hd. unfold self, DistanceMetric_init in Hd. cbv zeta in Hd.
    cbn [distance_map] in Hd. rewrite get_distance_map_clipped in Hd.
    apply in_map_iff in Hd. destruct Hd as (o & <- & _). apply clipped_nonneg.
  - replace 0 with (distance_at self (0, 0, 0)) at 1 by (apply Hzero; auto).
    apply nth_In, Hidx, Hc0.
  - apply Hzero; assumption.
  - apply Hzero; assumption.
  - intros Hn. destruct (flat_index_onto r n) as (o & Ho & <-); [lia | lia |].
    apply Hzero in Hn; [|exact Ho]. subst o. reflexivity.
  - intros ->. apply (Hzero (0, 0, 0) Hc0). reflexivity.
Qed.

Lemma distance_map_symmetric_zero_centre_witness :
  1 <= 2 /\
  let self := DistanceMetric_init (1 # 2) 2 in
  (forall o, in_cube 2 o -> distance_at self o = distance_at self (neg_idx o)) /\
  (forall d, In d (distance_map self) -> 0 <= d) /\
  In 0 (distance_map self) /\
  (forall o, in_cube 2 o -> (distance_at self o = 0 <-> o = (0, 0, 0))) /\
  (forall n, (n < length (distance_map self))%nat ->
             (nth n (distance_map self) 0 = 0 <-> n = flat_index 2 (0, 0, 0))).
Proof.
  split; [lia|]. apply (distance_map_symmetric_zero_centre (1 # 2) 2). lia.
Defined.

(** *** Lists *)

Lemma zsum_nonneg l : (forall v, In v l -> 0 <= v) -> 0 <= zsum l.
Proof.
  induction l as [|h t IH]; simpl; intros Hl; [lia|].
  pose proof (Hl h (or_introl eq_refl)). specialize (IH (fun v Hv => Hl v (or_intror Hv))).
  lia.
Qed.

Lemma zsum_zero_iff l :
  (forall v, In v l -> 0 <= v) -> (zsum l = 0 <-> forall v, In v l -> v = 0).
Proof.
  induction l as [|h t IH]; simpl; intros Hl; [tauto|].
  pose proof (Hl h (or_introl eq_refl)) as Hh.
  assert (Ht : forall v, In v t -> 0 <= v) by (intros v Hv; apply Hl; auto).
  pose proof (zsum_nonneg t Ht). specialize (IH Ht). split.
  - intros Hs v [<- | Hv]; [lia|]. apply IH; [lia | exact Hv].
  - intros Hz. rewrite (Hz h (or_introl eq_refl)).
    rewrite (proj2 IH); [reflexivity|]. intros v Hv. apply Hz. auto.
Qed.

Lemma fold_left_min_le t : forall h, fold_left Z.min t h <= h.
Proof.
  induction t as [|x t IH]; intros h; simpl; [lia|].
  specialize (IH (Z.min h x)). lia.
Qed.

Lemma fold_left_min_lower t : forall h v, In v t -> fold_left Z.min t h <= v.
Proof.
  induction t as [|x t IH]; intros h v Hv; simpl in *; [tauto|].
  destruct Hv as [<- | Hv]; [|apply IH; exact Hv].
  pose proof (fold_left_min_le t (Z.min h x)). lia.
Qed.

Lemma fold_left_min_in t : forall h, fold_left Z.min t h = h \/ In (fold_left Z.min t h) t.
Proof.
  induction t as [|x t IH]; intros h; simpl; [auto|].
  destruct (IH (Z.min h x)) as [E | Hin]; [|auto].
  rewrite E. destruct (Z.min_spec h x) as [[_ ->] | [_ ->]]; auto.
Qed.

(** The minimum of a non-empty list is one of its elements and below all
    of them. *)
Lemma list_min_spec d l :
  l <> [] -> In (list_min d l) l /\ forall v, In v l -> list_min d l <= v.
Proof.
  destruct l as [|h t]; [congruence|]. intros _. unfold list_min. split.
  - destruct (fold_left_min_in t h) as [-> | Hin]; [left; reflexivity | right; exact Hin].
  - intros v [<- | Hv]; [apply fold_left_min_le | apply fold_left_min_lower; exact Hv].
Qed.

(** Two non-empty lists with the same elements have the same minimum. *)
Lemma list_min_same_elements d l l' :
  l <> [] -> (forall v, In v l <-> In v l') -> list_min d l = list_min d l'.
Proof.
  intros Hl Heq.
  assert (Hl' : l' <> []).
  { destruct l as [|h t]; [congruence|]. intros ->. apply (Heq h). left. reflexivity. }
  destruct (list_min_spec d l Hl) as [Hin Hlow].
  destruct (list_min_spec d l' Hl') as [Hin' Hlow'].
  apply Z.le_antisymm; [apply Hlow, Heq, Hin' | apply Hlow', Heq, Hin].
Qed.

Lemma imap_map_seq {A B} (f : nat -> A -> B) (g : nat -> A) n :
  imap f (map g (seq 0 n)) = map (fun c => f c (g c)) (seq 0 n).
Proof.
  unfold imap. rewrite length_map, length_seq.
  assert (E : forall s, combine (seq s n) (map g (seq s n)) = map (fun c => (c, g c)) (seq s n)).
  { induction n as [|n IH]; intros s; simpl; [reflexivity|]. rewrite IH. reflexivity. }
  rewrite E, map_map. reflexivity.
Qed.

Lemma imap_single {A B} (f : nat -> A -> B) a : imap f [a] = [f 0%nat a].
Proof. reflexivity. Qed.

(** *** [unique] *)

Lemma insert_unique_In v l u : In u (insert_unique v l) <-> u = v \/ In u l.
Proof.
  induction l as [|h t IH]; simpl; [intuition|].
  destruct (Z.ltb_spec v h); [simpl; intuition|].
  destruct (Z.eqb_spec v h); [subst; simpl; intuition|].
  simpl. rewrite IH. intuition.
Qed.

Lemma unique_In l u : In u (unique l) <-> In u l.
Proof.
  induction l as [|h t IH]; simpl; [tauto|].
  rewrite insert_unique_In, IH. intuition.
Qed.

Lemma insert_unique_sorted v l :
  StronglySorted Z.lt l -> StronglySorted Z.lt (insert_unique v l).
Proof.
  induction l as [|h t IH]; simpl; intros Hs.
  - repeat constructor.
  - inversion Hs as [|? ? Ht Hall]; subst.
    destruct (Z.ltb_spec v h).
    + constructor; [exact Hs|]. constructor; [assumption|].
      rewrite Forall_forall in *. intros u Hu. specialize (Hall u Hu). lia.
    + destruct (Z.eqb_spec v h); [exact Hs|].
      constructor; [apply IH; exact Ht|].
      rewrite Forall_forall in *. intros u Hu. apply insert_unique_In in Hu.
      destruct Hu as [-> | Hu]; [lia | apply Hall; exact Hu].
Qed.

Lemma unique_sorted l : StronglySorted Z.lt (unique l).
Proof.
  induction l as [|h t IH]; simpl; [constructor | apply insert_unique_sorted, IH].
Qed.

Lemma sorted_nth_lt l :
  StronglySorted Z.lt l ->
  forall i j, (i < j)%nat -> (j < length l)%nat -> nth i l 0 < nth j l 0.
Proof.
  induction 1 as [|h t Hs IH Hall]; intros i j Hij Hj; simpl in Hj; [lia|].
  destruct j as [|j]; [lia|]. destruct i as [|i]; simpl.
  - rewrite Forall_forall in Hall. apply Hall, nth_In. lia.
  - apply IH; lia.
Qed.

Lemma sorted_nth_inj l i j :
  StronglySorted Z.lt l -> (i < length l)%nat -> (j < length l)%nat ->
  nth i l 0 = nth j l 0 -> i = j.
Proof.
  intros Hs Hi Hj E.
  destruct (Nat.lt_trichotomy i j) as [L | [-> | L]]; [|reflexivity|].
  - pose proof (sorted_nth_lt l Hs i j L Hj). lia.
  - pose proof (sorted_nth_lt l Hs j i L Hi). lia.
Qed.

(** *** Index sets *)

Lemma in_shape_iff n0 n1 n2 a b c :
  in_shape (n0, n1, n2) (a, b, c) = true <-> 0 <= a < n0 /\ 0 <= b < n1 /\ 0 <= c < n2.
Proof.
  unfold in_shape. rewrite !andb_true_iff, !Z.leb_le, !Z.ltb_lt. lia.
Qed.

Lemma In_indices s p : In p (indices s) <-> in_shape s p = true.
Proof.
  destruct s as [[n0 n1] n2], p as [[a b] c]. unfold indices.
  rewrite in_shape_iff. rewrite in_flat_map. split.
  - intros (a' & Ha & H1). apply in_flat_map in H1. destruct H1 as (b' & Hb & H2).
    apply in_map_iff in H2. destruct H2 as (c' & [= -> -> ->] & Hc).
    apply In_range in Ha, Hb, Hc. lia.
  - intros (Ha & Hb & Hc). exists a. split; [apply In_range; lia|].
    apply in_flat_map. exists b. split; [apply In_range; lia|].
    apply in_map_iff. exists c. split; [reflexivity | apply In_range; lia].
Qed.

Lemma In_arange lo hi v : In v (arange lo hi) <-> lo <= v < hi.
Proof.
  unfold arange. rewrite in_map_iff. split.
  - intros (k & <- & Hk). apply In_range in Hk. lia.
  - intros Hv. exists (v - lo). split; [lia | apply In_range; lia].
Qed.

Lemma In_cube_offsets r o : In o (cube_offsets r) <-> in_cube r o.
Proof.
  destruct o as [[i j] k]. unfold cube_offsets, meshgrid_flat. simpl.
  rewrite in_flat_map. split.
  - intros (a & Ha & H1). apply in_flat_map in H1. destruct H1 as (b & Hb & H2).
    apply in_map_iff in H2. destruct H2 as (c & [= -> -> ->] & Hc).
    apply In_arange in Ha, Hb, Hc. lia.
  - intros (Ha & Hb & Hc). exists i. split; [apply In_arange; lia|].
    apply in_flat_map. exists j. split; [apply In_arange; lia|].
    apply in_map_iff. exists k. split; [reflexivity | apply In_arange; lia].
Qed.

Lemma pad_item_mask y q : pad_item (tmap Z.b2z y) q = Z.b2z (hit y q).
Proof.
  unfold pad_item, hit. simpl. destruct (in_shape (shape y) q); reflexivity.
Qed.

(** *** One convolution channel

    A kernel that is the indicator of a set [phi] of offsets counts the
    voxels of [y] at those offsets: the channel is zero at [p] exactly when
    no voxel of [y] sits at an offset of [phi] from [p]. *)
Lemma conv3d_channel_zero r (k : tensor Z) (phi : idx -> bool) (y : tensor bool) p :
  0 <= r ->
  shape k = (2 * r + 1, 2 * r + 1, 2 * r + 1) ->
  (forall o, in_cube r o -> item k (shift_idx o (r, r, r)) = Z.b2z (phi o)) ->
  (item (conv3d_channel (tmap Z.b2z y) r k) p =? 0)
  = negb (existsb (fun o => phi o && hit y (shift_idx p o)) (cube_offsets r)).
Proof.
  intros Hr Hk Hphi. destruct p as [[a b] c].
  unfold conv3d_channel. rewrite Hk. simpl shape. destruct (shape y) as [[n0 n1] n2] eqn:Ey.
  cbn [item].
  set (term := fun o : idx => let '(a0, b0, c0) := o in
                 item k o * pad_item (tmap Z.b2z y) (a + a0 - r, b + b0 - r, c + c0 - r)).
  change ((zsum (map term (indices (2 * r + 1, 2 * r + 1, 2 * r + 1))) =? 0)
          = negb (existsb (fun o => phi o && hit y (shift_idx (a, b, c) o)) (cube_offsets r))).
  assert (Hterm : forall o', in_shape (2 * r + 1, 2 * r + 1, 2 * r + 1) o' = true ->
            exists o, in_cube r o /\ o' = shift_idx o (r, r, r) /\
                      term o' = Z.b2z (phi o && hit y (shift_idx (a, b, c) o))).
  { intros [[a0 b0] c0] Ho'. apply in_shape_iff in Ho'.
    exists (a0 - r, b0 - r, c0 - r). split; [simpl; lia|]. split.
    - simpl. f_equal; [f_equal|]; lia.
    - unfold term. rewrite pad_item_mask.
      replace (a0, b0, c0) with (shift_idx (a0 - r, b0 - r, c0 - r) (r, r, r))
        by (simpl; f_equal; [f_equal|]; lia).
      rewrite Hphi by (simpl; lia). cbn [shift_idx].
      replace (a + (a0 - r)) with (a + a0 - r) by lia.
      replace (b + (b0 - r)) with (b + b0 - r) by lia.
      replace (c + (c0 - r)) with (c + c0 - r) by lia.
      destruct (phi _), (hit y _); reflexivity. }
  destruct (existsb _ (cube_offsets r)) eqn:Ex; cbn [negb].
  - apply Z.eqb_neq. intros Hz.
    apply existsb_exists in Ex. destruct Ex as ([[i j] l] & Ho & Hhit).
    apply In_cube_offsets in Ho. simpl in Ho.
    rewrite zsum_zero_iff in Hz.
    + destruct (Hterm (i + r, j + r, l + r)) as (o & Hc & Eo & Et).
      { apply in_shape_iff. lia. }
      assert (o = (i, j, l)).
      { destruct o as [[i' j'] l']. cbn [shift_idx] in Eo. injection Eo as ? ? ?.
        f_equal; [f_equal|]; lia. }
      subst o.
      assert (Hin : In (term (i + r, j + r, l + r))
                       (map term (indices (2 * r + 1, 2 * r + 1, 2 * r + 1))))
        by (apply in_map, In_indices, in_shape_iff; lia).
      specialize (Hz _ Hin). rewrite Et, Hhit in Hz. discriminate.
    + intros v Hv. apply in_map_iff in Hv. destruct Hv as (o' & <- & Ho').
      apply In_indices in Ho'. destruct (Hterm o' Ho') as (o & _ & _ & ->).
      match goal with |- 0 <= Z.b2z ?t => destruct t; simpl; lia end.
  - apply Z.eqb_eq. apply zsum_zero_iff.
    + intros v Hv. apply in_map_iff in Hv. destruct Hv as (o' & <- & Ho').
      apply In_indices in Ho'. destruct (Hterm o' Ho') as (o & _ & _ & ->).
      match goal with |- 0 <= Z.b2z ?t => destruct t; simpl; lia end.
    + intros v Hv. apply in_map_iff in Hv. destruct Hv as (o' & <- & Ho').
      apply In_indices in Ho'. destruct (Hterm o' Ho') as (o & Hc & _ & ->).
      rewrite <- not_true_iff_false in Ex. rewrite existsb_exists in Ex.
      match goal with |- Z.b2z ?t = 0 => destruct t eqn:E; [|reflexivity] end.
      exfalso. apply Ex. exists o. split; [apply In_cube_offsets; exact Hc | exact E].
Qed.

(** *** The kernel bank *)

Lemma distance_map_offsets c r :
  distance_map (DistanceMetric_init c r) = map (clipped r) (cube_offsets r).
Proof. apply get_distance_map_clipped. Qed.

Lemma distances_In c r v :
  In v (distances (DistanceMetric_init c r)) <-> exists o, in_cube r o /\ clipped r o = v.
Proof.
  unfold DistanceMetric_init. cbv zeta. cbn [distances].
  rewrite unique_In, get_distance_map_clipped, in_map_iff.
  split; intros (o & H1 & H2).
  - exists o. split; [apply In_cube_offsets; exact H2 | exact H1].
  - exists o. split; [exact H2 | apply In_cube_offsets; exact H1].
Qed.

Lemma distances_sorted c r : StronglySorted Z.lt (distances (DistanceMetric_init c r)).
Proof. apply unique_sorted. Qed.

Lemma kernel_item c r idx o :
  0 <= r -> in_cube r o ->
  let self := DistanceMetric_init c r in
  item (reshape 0 (map (fun d => Z.b2z (d =? nth idx (distances self) 0)) (distance_map self))
                (2 * r + 1, 2 * r + 1, 2 * r + 1))
       (shift_idx o (r, r, r))
  = Z.b2z (clipped r o =? nth idx (distances self) 0).
Proof.
  intros Hr Ho self. destruct o as [[i j] k].
  unfold reshape. cbn [item shift_idx].
  change (Z.to_nat (((i + r) * (2 * r + 1) + (j + r)) * (2 * r + 1) + (k + r)))
    with (flat_index r (i, j, k)).
  set (f := fun d => Z.b2z (d =? nth idx (distances self) 0)).
  assert (Hlt : (flat_index r (i, j, k) < length (distance_map self))%nat).
  { unfold self. rewrite distance_map_length by exact Hr.
    simpl in Ho. unfold flat_index. nia. }
  rewrite (nth_indep _ 0 (f 0)) by (rewrite length_map; exact Hlt).
  rewrite (map_nth f). unfold f.
  change (nth (flat_index r (i, j, k)) (distance_map self) 0)
    with (distance_at self (i, j, k)).
  unfold self. rewrite distance_at_clipped by assumption. reflexivity.
Qed.

(** *** The rows of [_pairwise_distances] *)

Lemma imap_combine_map {A B C D E} (f : nat -> B * D -> E) (g : A -> B) (h : C -> D)
      (z : A -> C) (row : list A) :
  imap f (combine (map g row) (map h (map z row)))
  = imap (fun c v => f c (g v, h (z v))) row.
Proof.
  unfold imap. rewrite length_combine, !length_map, Nat.min_id.
  generalize 0%nat. induction row as [|v row IH]; intros s; simpl; [reflexivity|].
  rewrite IH. reflexivity.
Qed.

Lemma all_distances_rows {B} (f : nat -> bool * Z -> B) (g : Z -> bool) (h z : Z -> Z)
      (rel : list (list Z)) :
  map (fun rows : list bool * list Z => imap f (combine (fst rows) (snd rows)))
      (combine (map (map g) rel) (map (map h) (map (map z) rel)))
  = map (imap (fun c v => f c (g v, h (z v)))) rel.
Proof.
  induction rel as [|row rel IH]; simpl; [reflexivity|].
  rewrite IH, imap_combine_map. reflexivity.
Qed.

(** With a kernel bank [kernels], row [p] holds, per channel, the
    channel's distance where the channel is non-zero at [p] and [d_max]
    elsewhere. *)
Lemma pairwise_distances_rows self x y single_kernel :
  _pairwise_distances self x y single_kernel
  = let kernels := if single_kernel
                   then [sum_kernels (radius self) (removelast (distance_kernels self))]
                   else distance_kernels self in
    map (fun p =>
           imap (fun c k =>
                   if item (conv3d_channel (tmap Z.b2z y) (radius self) k) p =? 0
                   then d_max self else nth c (distances self) 0)
                kernels)
        (nonzero x).
Proof.
  unfold _pairwise_distances. cbv zeta.
  set (kernels := if single_kernel then _ else _).
  rewrite all_distances_rows, map_map.
  apply map_ext. intros p. unfold conv3d. rewrite map_map.
  unfold imap. rewrite !length_map.
  generalize 0%nat. induction kernels as [|k ks IH]; intros s; simpl; [reflexivity|].
  rewrite IH. f_equal.
  destruct (item (conv3d_channel _ _ k) p =? 0); reflexivity.
Qed.

Lemma clipped_corner r : 0 <= r -> clipped r (r, r, r) = root_of_int r.
Proof.
  intros Hr. unfold clipped, sq_norm, root_of_int.
  destruct (Z.ltb_spec (r * r) (r ^ 2 + r ^ 2 + r ^ 2)); nia.
Qed.

Lemma init_radius c r : radius (DistanceMetric_init c r) = r.
Proof. reflexivity. Qed.

Lemma init_d_max c r : d_max (DistanceMetric_init c r) = root_of_int r.
Proof. reflexivity. Qed.

Lemma init_kernels c r :
  distance_kernels (DistanceMetric_init c r)
  = _get_distance_kernels r (distance_map (DistanceMetric_init c r))
                          (distances (DistanceMetric_init c r)).
Proof. reflexivity. Qed.

(** The full bank: the row minimum is the nearest distance. *)
Lemma pairwise_distances_nearest c r x y :
  0 <= r ->
  map (list_min 0) (_pairwise_distances (DistanceMetric_init c r) x y false)
  = map (nearest r y) (nonzero x).
Proof.
  intros Hr. rewrite pairwise_distances_rows. cbv beta iota zeta.
  rewrite (init_kernels c r), (init_radius c r), (init_d_max c r).
  set (self := DistanceMetric_init c r).
  rewrite map_map. apply map_ext. intros p.
  unfold _get_distance_kernels. rewrite imap_map_seq.
  set (K := length (distances self)).
  set (row := map _ (seq 0 K)).
  assert (Hrow : forall v, In v row <->
            exists idx, (idx < K)%nat /\
              v = if existsb (fun o => (clipped r o =? nth idx (distances self) 0)
                                       && hit y (shift_idx p o)) (cube_offsets r)
                  then nth idx (distances self) 0 else root_of_int r).
  { intros v. unfold row. rewrite in_map_iff.
    split; intros (idx & H1 & H2); exists idx.
    - apply in_seq in H2. split; [lia|]. subst v.
      rewrite (conv3d_channel_zero r _ (fun o => clipped r o =? nth idx (distances self) 0))
        by (try reflexivity; try lia; intros o Ho; apply kernel_item; assumption).
      destruct (existsb _ _); reflexivity.
    - split; [|apply in_seq; lia]. subst v.
      rewrite (conv3d_channel_zero r _ (fun o => clipped r o =? nth idx (distances self) 0))
        by (try reflexivity; try lia; intros o Ho; apply kernel_item; assumption).
      destruct (existsb _ _); reflexivity. }
  assert (Hidx : forall o, in_cube r o ->
            exists idx, (idx < K)%nat /\ nth idx (distances self) 0 = clipped r o).
  { intros o Ho. apply (In_nth _ _ 0). apply distances_In. exists o. auto. }
  unfold nearest. apply list_min_same_elements.
  - destruct (Hidx (0, 0, 0)) as (idx & Hlt & _); [simpl; lia|].
    intros E. assert (Hin : In (nth idx row 0) row).
    { apply nth_In. unfold row. rewrite length_map, length_seq. exact Hlt. }
    rewrite E in Hin. exact Hin.
  - intros v. rewrite Hrow. simpl In. rewrite in_map_iff. split.
    + intros (idx & Hlt & ->). destruct (existsb _ _) eqn:Ex; [|left; reflexivity].
      right. apply existsb_exists in Ex. destruct Ex as (o & Ho & Hh).
      apply andb_true_iff in Hh. destruct Hh as [He Hh]. apply Z.eqb_eq in He.
      exists o. split; [exact He|]. apply filter_In. auto.
    + intros [<- | (o & <- & Ho)].
      * destruct (Hidx (r, r, r)) as (idx & Hlt & E); [simpl; lia|].
        exists idx. split; [exact Hlt|]. rewrite E, clipped_corner by exact Hr.
        destruct (existsb _ _); reflexivity.
      * apply filter_In in Ho. destruct Ho as [Ho Hh].
        destruct (Hidx o) as (idx & Hlt & E); [apply In_cube_offsets; exact Ho|].
        exists idx. split; [exact Hlt|].
        replace (existsb _ _) with true; [symmetry; exact E|].
        symmetry. apply existsb_exists. exists o. split; [exact Ho|].
        rewrite E, Z.eqb_refl, Hh. reflexivity.
Qed.

(** *** The collapsed bank ([single_kernel=True]) *)

Lemma removelast_map {A B} (f : A -> B) l : removelast (map f l) = map f (removelast l).
Proof.
  induction l as [|a l IH]; simpl; [reflexivity|].
  destruct l as [|b l]; simpl in *; [reflexivity|]. rewrite IH. reflexivity.
Qed.

Lemma removelast_seq s n : removelast (seq s n) = seq s (n - 1).
Proof.
  revert s. induction n as [|n IH]; intros s; simpl; [reflexivity|].
  destruct n as [|n]; simpl; [reflexivity|].
  specialize (IH (S s)). simpl in IH. rewrite Nat.sub_0_r in IH. rewrite IH. reflexivity.
Qed.

(** In a strictly sorted list, the indicators of one of its values summed
    over the first [n] positions tell whether the value sits among them. *)
Lemma zsum_indicator l j n :
  StronglySorted Z.lt l -> (j < length l)%nat -> (n <= length l)%nat ->
  zsum (map (fun idx => Z.b2z (nth j l 0 =? nth idx l 0)) (seq 0 n))
  = Z.b2z (j <? n)%nat.
Proof.
  intros Hs Hj. induction n as [|n IH]; intros Hn; [reflexivity|].
  rewrite seq_S, map_app. simpl map.
  assert (E : forall a b, zsum (a ++ [b]) = zsum a + b).
  { induction a as [|h t IHa]; intros b; simpl; [lia|]. rewrite IHa. lia. }
  rewrite E, IH by lia. simpl Nat.add.
  destruct (Z.eqb_spec (nth j l 0) (nth n l 0)) as [Eq | Ne].
  - apply sorted_nth_inj in Eq; [|assumption|assumption|lia]. subst j.
    rewrite Nat.ltb_irrefl. rewrite (proj2 (Nat.ltb_lt n (S n))) by lia. reflexivity.
  - assert (j <> n) by (intros ->; apply Ne; reflexivity).
    destruct (Nat.ltb_spec j n), (Nat.ltb_spec j (S n)); simpl; lia.
Qed.

Lemma distances_first c r : 0 <= r -> nth 0 (distances (DistanceMetric_init c r)) 0 = 0.
Proof.
  intros Hr. set (D := distances (DistanceMetric_init c r)).
  assert (Hin : In 0 D).
  { apply distances_In. exists (0, 0, 0). split; [simpl; lia|].
    unfold clipped, root_of_int, sq_norm. destruct (Z.ltb_spec (r * r) (0 ^ 2 + 0 ^ 2 + 0 ^ 2)); lia. }
  destruct (In_nth _ _ 0 Hin) as (i & Hi & Ei).
  destruct i as [|i]; [exact Ei|].
  pose proof (sorted_nth_lt D (distances_sorted c r) 0 (S i) ltac:(lia) Hi) as Hlt.
  assert (Hz : In (nth 0 D 0) D) by (apply nth_In; lia).
  apply distances_In in Hz. destruct Hz as (o & _ & Ho).
  pose proof (clipped_nonneg r o). lia.
Qed.

Lemma distances_last c r :
  0 <= r ->
  let D := distances (DistanceMetric_init c r) in
  (0 < length D)%nat /\ nth (length D - 1) D 0 = root_of_int r.
Proof.
  intros Hr D.
  assert (Hin : In (root_of_int r) D).
  { apply distances_In. exists (r, r, r). split; [simpl; lia | apply clipped_corner; exact Hr]. }
  destruct (In_nth _ _ 0 Hin) as (i & Hi & Ei).
  split; [lia|].
  destruct (Nat.eq_dec i (length D - 1)) as [-> | Ne]; [exact Ei|].
  pose proof (sorted_nth_lt D (distances_sorted c r) i (length D - 1) ltac:(lia) ltac:(lia)) as Hlt.
  assert (Hz : In (nth (length D - 1) D 0) D) by (apply nth_In; lia).
  apply distances_In in Hz. destruct Hz as (o & _ & Ho).
  pose proof (clipped_le r o). lia.
Qed.

Lemma sum_kernels_item c r o :
  0 <= r -> in_cube r o ->
  let self := DistanceMetric_init c r in
  item (sum_kernels r (removelast (distance_kernels self))) (shift_idx o (r, r, r))
  = Z.b2z (clipped r o <? root_of_int r).
Proof.
  intros Hr Ho self. unfold sum_kernels. cbn [item].
  unfold self. rewrite init_kernels. fold self.
  unfold _get_distance_kernels. rewrite removelast_map, removelast_seq, map_map.
  set (D := distances self).
  erewrite map_ext; [|intros idx; apply kernel_item; assumption].
  fold self. fold D.
  assert (Hin : In (clipped r o) D) by (apply distances_In; exists o; auto).
  destruct (In_nth _ _ 0 Hin) as (j & Hj & Ej).
  rewrite <- Ej. rewrite zsum_indicator; [|apply distances_sorted|exact Hj|lia].
  destruct (distances_last c r Hr) as [Hpos Hlast]. fold self in Hlast. fold D in Hlast.
  f_equal. rewrite <- Hlast.
  destruct (Nat.ltb_spec j (length D - 1)) as [L | L].
  - symmetry. apply Z.ltb_lt. apply sorted_nth_lt; [apply distances_sorted | exact L | lia].
  - replace j with (length D - 1)%nat by lia. symmetry. apply Z.ltb_irrefl.
Qed.

Lemma root_val_of_int r : 0 <= r -> root_val (root_of_int r) = IZR r.
Proof.
  intros Hr. unfold root_val, root_of_int. rewrite mult_IZR.
  apply sqrt_square. apply IZR_le. exact Hr.
Qed.

Lemma pairwise_distances_single c r x y :
  0 <= r ->
  _pairwise_distances (DistanceMetric_init c r) x y true
  = map (fun p => [if within r y p then 0 else root_of_int r]) (nonzero x).
Proof.
  intros Hr. rewrite pairwise_distances_rows. cbv beta iota zeta.
  rewrite (init_radius c r), (init_d_max c r).
  apply map_ext. intros p. rewrite imap_single. f_equal.
  rewrite (conv3d_channel_zero r _ (fun o => clipped r o <? root_of_int r));
    [| exact Hr | reflexivity | intros o Ho; apply sum_kernels_item; assumption].
  fold (within r y p). rewrite distances_first by exact Hr.
  destruct (within r y p); reflexivity.
Qed.

(** C10: with [single_kernel=True] every returned entry is 0 or the
    radius: the row of a source voxel is the single entry 0 when a target
    voxel lies at an offset of map distance strictly below the radius,
    and the radius otherwise. *)
Theorem single_kernel_zero_or_radius (c : Q) (r : Z) (x y : tensor bool) :
  0 <= r ->
  let self := DistanceMetric_init c r in
  _pairwise_distances self x y true
  = map (fun p => [if within r y p then 0 else root_of_int r]) (nonzero x) /\
  (forall row e, In row (_pairwise_distances self x y true) -> In e row ->
                 (e = 0 \/ e = root_of_int r) /\ (root_val e = 0%R \/ root_val e = IZR r)).
Proof.
  intros Hr self. split; [apply pairwise_distances_single; exact Hr|].
  intros row e Hrow He. unfold self in Hrow.
  rewrite pairwise_distances_single in Hrow by exact Hr.
  apply in_map_iff in Hrow. destruct Hrow as (p & <- & _).
  destruct He as [<- | []].
  destruct (within r y p).
  - split; left; [reflexivity|]. unfold root_val. apply sqrt_0.
  - split; right; [reflexivity|]. apply root_val_of_int. exact Hr.
Qed.

Lemma single_kernel_zero_or_radius_witness :
  0 <= 2 /\
  let self := DistanceMetric_init (1 # 2) 2 in
  let x := of_list3 false [[[true; false; false; false; true]]] in
  let y := of_list3 false [[[false; true; false; false; false]]] in
  _pairwise_distances self x y true
  = map (fun p => [if within 2 y p then 0 else root_of_int 2]) (nonzero x) /\
  (forall row e, In row (_pairwise_distances self x y true) -> In e row ->
                 (e = 0 \/ e = root_of_int 2) /\ (root_val e = 0%R \/ root_val e = IZR 2)).
Proof.
  split; [lia|].
  apply (single_kernel_zero_or_radius (1 # 2) 2). lia.
Defined.

Lemma count_true_nonzero x : count_true x = Z.of_nat (length (nonzero x)).
Proof.
  unfold count_true, nonzero, elements.
  induction (indices (shape x)) as [|p l IH]; simpl; [reflexivity|].
  rewrite IH. destruct (item x p); simpl length; simpl Z.b2z; lia.
Qed.

Lemma nonzero_ext x x' :
  shape x = shape x' ->
  (forall v, in_shape (shape x) v = true -> item x v = item x' v) ->
  nonzero x = nonzero x'.
Proof.
  intros Hs He. unfold nonzero. rewrite <- Hs.
  apply filter_ext_in. intros v Hv. apply He, In_indices, Hv.
Qed.

(** [only target prediction] is what the source builds in its second half,
    where the overlap is written [prediction * target]. *)
Lemma only_comm_overlap a b :
  nonzero (mask_assign b (tmap2 andb a b) false) = nonzero (only b a).
Proof.
  apply nonzero_ext; [reflexivity|]. intros v _. unfold only. simpl.
  rewrite andb_comm. reflexivity.
Qed.

Lemma average_hausdorff_distance_eq c r prediction target :
  0 <= r ->
  let P := threshold prediction c in
  let T := threshold target c in
  average_hausdorff_distance (DistanceMetric_init c r) prediction target
  = (mean_nearest r (only P T) (_get_border T (1 # 2)) (length (nonzero P))
     + mean_nearest r (only T P) (_get_border P (1 # 2)) (length (nonzero T)))%R.
Proof.
  intros Hr P T. unfold average_hausdorff_distance. cbv zeta.
  change (cut (DistanceMetric_init c r)) with c. fold P. fold T.
  rewrite !pairwise_distances_nearest by exact Hr.
  rewrite !count_true_nonzero, only_comm_overlap, <- !INR_IZR_INZ.
  fold (only P T).
  assert (E : forall src bnd n,
             (if negb (Z.of_nat (length (nonzero src)) =? 0)
              then (Rsum (map root_val (map (nearest r bnd) (nonzero src))) / INR n)%R
              else 0%R)
             = mean_nearest r src bnd n).
  { intros src bnd n. unfold mean_nearest. rewrite map_map.
    destruct (nonzero src); reflexivity. }
  rewrite (E (only P T)), (E (only T P)). reflexivity.
Qed.

(** C1 (as amended): [average_hausdorff_distance] is the sum of two
    directional terms.  The first is the sum, over the voxels of the
    prediction outside the overlap, of the distance to the nearest voxel
    of the target border, divided by the number of foreground voxels of
    the whole thresholded prediction (overlap included); the second is the
    same with prediction and target exchanged; a term is 0 when its source
    set is empty. *)
Theorem hausdorff_terms_over_foreground (c : Q) (r : Z) (prediction target : tensor Q) :
  0 <= r ->
  shape prediction = shape target ->
  let P := threshold prediction c in
  let T := threshold target c in
  exists first_term second_term : R,
    average_hausdorff_distance (DistanceMetric_init c r) prediction target
    = (first_term + second_term)%R /\
    (nonzero (only P T) = [] -> first_term = 0%R) /\
    (nonzero (only P T) <> [] ->
     first_term
     = (Rsum (map (fun v => root_val (nearest r (_get_border T (1 # 2)) v))
                  (nonzero (only P T)))
        / INR (length (nonzero P)))%R) /\
    (nonzero (only T P) = [] -> second_term = 0%R) /\
    (nonzero (only T P) <> [] ->
     second_term
     = (Rsum (map (fun v => root_val (nearest r (_get_border P (1 # 2)) v))
                  (nonzero (only T P)))
        / INR (length (nonzero T)))%R) /\
    count_true P = Z.of_nat (length (nonzero P)) /\
    count_true T = Z.of_nat (length (nonzero T)).
Proof.
  intros Hr _ P T.
  exists (mean_nearest r (only P T) (_get_border T (1 # 2)) (length (nonzero P))),
         (mean_nearest r (only T P) (_get_border P (1 # 2)) (length (nonzero T))).
  split; [apply average_hausdorff_distance_eq; exact Hr|].
  unfold mean_nearest.
  repeat split; try apply count_true_nonzero.
  - intros ->. reflexivity.
  - destruct (nonzero (only P T)); [congruence | reflexivity].
  - intros ->. reflexivity.
  - destruct (nonzero (only T P)); [congruence | reflexivity].
Qed.

Lemma hausdorff_terms_over_foreground_witness :
  0 <= 5 /\
  let prediction := of_list3 0%Q [[[1%Q; 1%Q; 0%Q]]] in
  let target := of_list3 0%Q [[[0%Q; 1%Q; 1%Q]]] in
  shape prediction = shape target /\
  let P := threshold prediction (1 # 2) in
  let T := threshold target (1 # 2) in
  exists first_term second_term : R,
    average_hausdorff_distance (DistanceMetric_init (1 # 2) 5) prediction target
    = (first_term + second_term)%R /\
    (nonzero (only P T) = [] -> first_term = 0%R) /\
    (nonzero (only P T) <> [] ->
     first_term
     = (Rsum (map (fun v => root_val (nearest 5 (_get_border T (1 # 2)) v))
                  (nonzero (only P T)))
        / INR (length (nonzero P)))%R) /\
    (nonzero (only T P) = [] -> second_term = 0%R) /\
    (nonzero (only T P) <> [] ->
     second_term
     = (Rsum (map (fun v => root_val (nearest 5 (_get_border P (1 # 2)) v))
                  (nonzero (only T P)))
        / INR (length (nonzero T)))%R) /\
    count_true P = Z.of_nat (length (nonzero P)) /\
    count_true T = Z.of_nat (length (nonzero T)).
Proof.
  split; [lia|]. intros prediction target. split; [reflexivity|].
  apply (hausdorff_terms_over_foreground (1 # 2) 5 prediction target); [lia | reflexivity].
Defined.

(** C1, the claim as stated fails: with prediction voxels {(0,0,0),
    (0,0,1)} and target voxel {(0,0,1)}, the only voxel outside the overlap
    is at distance 1 from the target border, so the average over the
    prediction-only voxels would be 1; the code divides by the two
    foreground voxels of the prediction and returns 1/2. *)
Lemma hausdorff_first_term_counterexample :
  let prediction := of_list3 0%Q [[[1%Q; 1%Q]]] in
  let target := of_list3 0%Q [[[0%Q; 1%Q]]] in
  let P := threshold prediction (1 # 2) in
  let T := threshold target (1 # 2) in
  nonzero (only P T) = [(0, 0, 0)] /\
  nonzero (only T P) = [] /\
  average_hausdorff_distance (DistanceMetric_init (1 # 2) 5) prediction target = (1 / 2)%R /\
  average_over_only 5 P T = 1%R.
Proof.
  intros prediction target P T.
  assert (E1 : nonzero (only P T) = [(0, 0, 0)]) by (vm_compute; reflexivity).
  assert (E2 : nonzero (only T P) = []) by (vm_compute; reflexivity).
  assert (E3 : nearest 5 (_get_border T (1 # 2)) (0, 0, 0) = 1) by (vm_compute; reflexivity).
  assert (E4 : length (nonzero P) = 2%nat) by (vm_compute; reflexivity).
  repeat split; try assumption.
  - unfold P, T. rewrite average_hausdorff_distance_eq by lia. fold P T.
    unfold mean_nearest. rewrite E1, E2, E4. simpl map. rewrite E3.
    unfold root_val, Rsum. simpl fold_right. rewrite sqrt_1. simpl INR. lra.
  - unfold average_over_only, mean_nearest. rewrite E1, E2. simpl map. rewrite E3.
    unfold root_val, Rsum. simpl fold_right. rewrite sqrt_1. simpl INR. lra.
Qed.

Lemma idx_eqb_eq v p : idx_eqb v p = true <-> v = p.
Proof.
  destruct v as [[a b] c], p as [[i j] k]. unfold idx_eqb.
  rewrite !andb_true_iff, !Z.eqb_eq. split.
  - intros [[-> ->] ->]. reflexivity.
  - intros [= -> -> ->]. auto.
Qed.

Lemma idx_eqb_refl p : idx_eqb p p = true.
Proof. apply idx_eqb_eq. reflexivity. Qed.

Lemma idx_eqb_neq v p : v <> p -> idx_eqb v p = false.
Proof.
  intros Hn. destruct (idx_eqb v p) eqn:E; [|reflexivity].
  apply idx_eqb_eq in E. contradiction.
Qed.

(** *** The enumeration of a shape has no repetition *)

Lemma NoDup_map_injective {A B} (f : A -> B) l :
  (forall x y, f x = f y -> x = y) -> NoDup l -> NoDup (map f l).
Proof.
  intros Hinj. induction 1 as [|x l Hx Hl IH]; simpl; constructor; [|exact IH].
  rewrite in_map_iff. intros (y & E & Hy). apply Hinj in E. subst y. contradiction.
Qed.

Lemma NoDup_flat_map {A B} (f : A -> list B) l :
  NoDup l -> (forall x, NoDup (f x)) ->
  (forall x y z, In z (f x) -> In z (f y) -> x = y) ->
  NoDup (flat_map f l).
Proof.
  intros Hl Hf Hdis. induction Hl as [|x l Hx Hl IH]; simpl; [constructor|].
  apply NoDup_app; [apply Hf | exact IH |].
  intros z Hz Hz'. apply in_flat_map in Hz'. destruct Hz' as (y & Hy & Hzy).
  rewrite (Hdis x y z Hz Hzy) in Hx. contradiction.
Qed.

Lemma NoDup_range n : NoDup (range n).
Proof.
  unfold range. apply NoDup_map_injective; [intros x y; lia | apply seq_NoDup].
Qed.

Lemma NoDup_indices s : NoDup (indices s).
Proof.
  destruct s as [[n0 n1] n2]. unfold indices.
  apply NoDup_flat_map; [apply NoDup_range | |].
  - intros a. apply NoDup_flat_map; [apply NoDup_range | |].
    + intros b. apply NoDup_map_injective; [|apply NoDup_range]. intros x y [= ->]. reflexivity.
    + intros b b' z Hz Hz'. apply in_map_iff in Hz, Hz'.
      destruct Hz as (c & <- & _), Hz' as (c' & [= -> _] & _). reflexivity.
  - intros a a' z Hz Hz'. apply in_flat_map in Hz, Hz'.
    destruct Hz as (b & _ & Hz), Hz' as (b' & _ & Hz').
    apply in_map_iff in Hz, Hz'.
    destruct Hz as (c & <- & _), Hz' as (c' & [= -> _ _] & _). reflexivity.
Qed.

Lemma filter_single (f : idx -> bool) l p :
  NoDup l -> In p l -> (forall v, In v l -> f v = idx_eqb v p) -> filter f l = [p].
Proof.
  intros Hnd. induction Hnd as [|x l Hx Hl IH]; intros Hin Hf; [destruct Hin|].
  simpl. rewrite (Hf x (or_introl eq_refl)).
  destruct Hin as [-> | Hin].
  - rewrite idx_eqb_refl. f_equal.
    assert (E : forall v, In v l -> f v = false).
    { intros v Hv. rewrite Hf by (right; exact Hv). apply idx_eqb_neq. intros ->. contradiction. }
    clear -E. induction l as [|y l IH]; simpl; [reflexivity|].
    rewrite E by (left; reflexivity). apply IH. intros v Hv. apply E. right. exact Hv.
  - rewrite idx_eqb_neq by (intros ->; contradiction).
    apply IH; [exact Hin|]. intros v Hv. apply Hf. right. exact Hv.
Qed.

Lemma nonzero_single y q : single_voxel y q -> nonzero y = [q].
Proof.
  intros [Hq Hy]. unfold nonzero. apply filter_single.
  - apply NoDup_indices.
  - apply In_indices. exact Hq.
  - intros v Hv. apply Hy, In_indices, Hv.
Qed.

(** *** The border of a single voxel is that voxel *)

Lemma border_single_voxel (y : tensor bool) q :
  single_voxel y q -> single_voxel (_get_border y (1 # 2)) q.
Proof.
  intros [Hq Hy]. split; [exact Hq|].
  intros v Hv. change (shape (_get_border y (1 # 2))) with (shape y) in Hv.
  rewrite get_border_item.
  set (ref := tmap (fun b : bool => Z.b2z (gt_cut b (1 # 2))) y).
  assert (Href : forall u, in_shape (shape y) u = true ->
                           item ref u = Z.b2z (idx_eqb u q)).
  { intros u Hu. unfold ref. simpl. rewrite Hy by exact Hu.
    destruct (idx_eqb u q); reflexivity. }
  destruct (idx_eqb v q) eqn:E.
  - apply idx_eqb_eq in E. subst v.
    replace (is_border ref q) with true; [reflexivity|].
    symmetry. unfold is_border. rewrite range_3. cbn [existsb].
    replace (item ref q - forward ref 0 q =? 1) with true; [reflexivity|].
    symmetry. apply Z.eqb_eq. rewrite Href, idx_eqb_refl by exact Hq.
    unfold forward. rewrite axis_set_axis. change (shape ref) with (shape y).
    destruct (Z.ltb_spec (axis q 0 + 1) (axis (shape y) 0)) as [L | L]; [|reflexivity].
    rewrite Href.
    + rewrite idx_eqb_neq; [reflexivity|].
      intros Heq. apply (f_equal (fun u => axis u 0)) in Heq.
      rewrite axis_set_axis in Heq. lia.
    + apply in_shape_set_axis; auto.
      pose proof (in_shape_axis _ _ 0 (or_introl eq_refl) Hq). lia.
  - replace (is_border ref v) with false; [reflexivity|].
    symmetry. apply background_not_border.
    fold ref. rewrite Href, E by exact Hv. reflexivity.
Qed.

(** *** Nearest distance to a single voxel *)

Lemma shift_diff p q : shift_idx p (diff_idx q p) = q.
Proof.
  destruct p as [[a b] c], q as [[i j] k]. simpl. f_equal; [f_equal|]; lia.
Qed.

Lemma shift_eq_diff p o q : shift_idx p o = q -> o = diff_idx q p.
Proof.
  destruct p as [[a b] c], q as [[i j] k], o as [[u v] w]. simpl.
  intros [= <- <- <-]. f_equal; [f_equal|]; lia.
Qed.

Lemma nearest_single r y p q :
  single_voxel y q -> in_cube r (diff_idx q p) ->
  nearest r y p = clipped r (diff_idx q p).
Proof.
  intros [Hq Hy] Hc. unfold nearest.
  rewrite (list_min_same_elements 0 _ [root_of_int r; clipped r (diff_idx q p)]).
  - simpl. pose proof (clipped_le r (diff_idx q p)). lia.
  - discriminate.
  - intros v. simpl. rewrite in_map_iff. split.
    + intros [<- | (o & <- & Ho)]; [auto|]. right. left.
      apply filter_In in Ho. destruct Ho as [_ Hh]. unfold hit in Hh.
      apply andb_true_iff in Hh. destruct Hh as [Hin Hit].
      rewrite Hy in Hit by exact Hin. apply idx_eqb_eq in Hit.
      apply shift_eq_diff in Hit. subst o. reflexivity.
    + intros [<- | [<- | []]]; [auto|]. right.
      exists (diff_idx q p). split; [reflexivity|].
      apply filter_In. split; [apply In_cube_offsets; exact Hc|].
      unfold hit. rewrite shift_diff, Hq, Hy, idx_eqb_refl by exact Hq. reflexivity.
Qed.

(** *** Distance transforms around a single voxel *)

Lemma sq_dist_pos p u : p <> u -> 1 <= sq_dist p u.
Proof.
  destruct p as [[a b] c], u as [[i j] k]. unfold sq_dist. intros Hne.
  assert (a <> i \/ b <> j \/ c <> k).
  { destruct (Z.eq_dec a i), (Z.eq_dec b j), (Z.eq_dec c k); subst; auto.
    all: exfalso; apply Hne; reflexivity. }
  nia.
Qed.

(** A lone foreground voxel with a neighbour inside the grid is at
    distance 1 from the background. *)
Lemma edt_single_voxel (m : tensor bool) p u v :
  single_voxel m p ->
  in_shape (shape m) u = true -> sq_dist p u = 1 ->
  in_shape (shape m) v = true ->
  item (distance_transform_edt m) v = Z.b2z (idx_eqb v p).
Proof.
  intros [Hp Hm] Hu Hd Hv. unfold distance_transform_edt. cbn [item].
  rewrite Hm by exact Hv. destruct (idx_eqb v p) eqn:E; [|reflexivity].
  apply idx_eqb_eq in E. subst v.
  set (l := map (sq_dist p) _).
  assert (Hin : In 1 l).
  { unfold l. apply in_map_iff. exists u. split; [exact Hd|].
    apply filter_In. split; [apply In_indices; exact Hu|].
    rewrite Hm by exact Hu. rewrite idx_eqb_neq; [reflexivity|].
    intros ->. destruct p as [[a b] c]. unfold sq_dist in Hd. nia. }
  assert (Hne : l <> []) by (intros E; rewrite E in Hin; destruct Hin).
  destruct (list_min_spec 0 l Hne) as [Hmem Hlow].
  specialize (Hlow 1 Hin).
  unfold l in Hmem. apply in_map_iff in Hmem. destruct Hmem as (w & Hw & Hf).
  apply filter_In in Hf. destruct Hf as [Hwin Hwb].
  apply In_indices in Hwin. rewrite Hm in Hwb by exact Hwin.
  assert (p <> w).
  { intros ->. rewrite idx_eqb_refl in Hwb. discriminate. }
  pose proof (sq_dist_pos p w H). fold l in Hw. simpl Z.b2z. lia.
Qed.

(** Away from a lone edge voxel [p], the transform of the complement of
    the edge is the distance to [p]. *)
Lemma edt_complement_single (e : tensor bool) p v :
  single_voxel e p -> in_shape (shape e) v = true ->
  item (distance_transform_edt (tmap negb e)) v = sq_dist v p.
Proof.
  intros [Hp He] Hv. unfold distance_transform_edt. cbn [item tmap shape].
  rewrite He by exact Hv. destruct (idx_eqb v p) eqn:E; cbn [negb].
  - apply idx_eqb_eq in E. subst v. destruct p as [[a b] c]. unfold sq_dist. lia.
  - rewrite (list_min_same_elements 0 _ [sq_dist v p]); [reflexivity | |].
    + intros En.
      assert (Hin : In (sq_dist v p)
                       (map (sq_dist v)
                            (filter (fun q => negb (negb (item e q))) (indices (shape e))))).
      { apply in_map, filter_In. split; [apply In_indices; exact Hp|].
        rewrite He, idx_eqb_refl by exact Hp. reflexivity. }
      rewrite En in Hin. destruct Hin.
    + intros d. simpl. rewrite in_map_iff. split.
      * intros (w & <- & Hw). left. apply filter_In in Hw. destruct Hw as [Hwin Hwb].
        apply In_indices in Hwin. rewrite He, negb_involutive in Hwb by exact Hwin.
        apply idx_eqb_eq in Hwb. subst w. reflexivity.
      * intros [<- | []]. exists p. split; [reflexivity|].
        apply filter_In. split; [apply In_indices; exact Hp|].
        rewrite He, idx_eqb_refl by exact Hp. reflexivity.
Qed.

(** *** Two unit cubes three voxels apart *)

Lemma threshold_unit_cube s p : single_voxel (threshold (unit_cube s p) (1 # 2)) p <->
                                in_shape s p = true.
Proof.
  unfold single_voxel. cbn [shape threshold tmap unit_cube item]. split; [tauto|].
  intros Hp. split; [exact Hp|]. intros v _. destruct (idx_eqb v p); reflexivity.
Qed.

Lemma nonzero_unit_cube s p :
  single_voxel (tmap is_nonzero (to_numpy (unit_cube s p))) p <-> in_shape s p = true.
Proof.
  unfold single_voxel. cbn [shape to_numpy tmap unit_cube item]. split; [tauto|].
  intros Hp. split; [exact Hp|]. intros v _. destruct (idx_eqb v p); reflexivity.
Qed.

Lemma only_single a b p q :
  shape a = shape b -> single_voxel a p -> single_voxel b q -> p <> q ->
  single_voxel (only a b) p.
Proof.
  intros Hs [Hp Ha] [Hq Hb] Hne. split; [exact Hp|].
  intros v Hv. unfold only. cbn [mask_assign tmap2 item shape] in *.
  rewrite Ha by exact Hv. rewrite Hb by (rewrite <- Hs; exact Hv).
  destruct (idx_eqb v p) eqn:E; [|reflexivity].
  apply idx_eqb_eq in E. subst v. rewrite (idx_eqb_neq p q Hne). reflexivity.
Qed.

Lemma three_apart p a :
  a = 0 \/ a = 1 \/ a = 2 ->
  let q := set_axis p a (axis p a + 3) in
  p <> q /\
  in_cube 5 (diff_idx q p) /\ clipped 5 (diff_idx q p) = 9 /\
  in_cube 5 (diff_idx p q) /\ clipped 5 (diff_idx p q) = 9 /\
  sq_dist p q = 9 /\ sq_dist q p = 9 /\
  sq_dist p (set_axis p a (axis p a + 1)) = 1 /\
  sq_dist q (set_axis p a (axis p a + 2)) = 1.
Proof.
  destruct p as [[i j] k].
  intros [-> | [-> | ->]]; cbv [set_axis axis Z.eqb Pos.eqb];
    (split; [intros [= ?]; lia|]);
    unfold clipped, root_of_int, sq_norm, diff_idx, in_cube, sq_dist;
    repeat match goal with
           | |- context [?u <? ?v] => destruct (Z.ltb_spec u v)
           end;
    repeat split; lia.
Qed.

Lemma root_val_9 : root_val 9 = 3%R.
Proof. change 9 with (root_of_int 3). apply root_val_of_int. lia. Qed.

Lemma mean_nearest_single r src bnd p q n :
  single_voxel src p -> single_voxel bnd q -> in_cube r (diff_idx q p) ->
  mean_nearest r src bnd n = (root_val (clipped r (diff_idx q p)) / INR n)%R.
Proof.
  intros Hs Hb Hc. unfold mean_nearest.
  rewrite (nonzero_single src p Hs). cbn [map Rsum fold_right].
  rewrite (nearest_single r bnd p q Hb Hc). f_equal. lra.
Qed.

Lemma np_mean_single d : np_mean [d] = root_val d.
Proof. unfold np_mean. cbn [map Rsum fold_right length INR]. lra. Qed.

(** C4: for two unit-cube masks three voxels apart along one axis and a
    metric of radius 5, [average_hausdorff_distance] is 3 + 3 = 6 (the sum
    of the two directional averages) and [surface_distances] is
    (3 + 3) / 2 = 3 (their mean). *)
Theorem unit_cubes_three_apart (s p : idx) (a : Z) :
  a = 0 \/ a = 1 \/ a = 2 ->
  in_shape s p = true ->
  in_shape s (set_axis p a (axis p a + 3)) = true ->
  let prediction := unit_cube s p in
  let target := unit_cube s (set_axis p a (axis p a + 3)) in
  average_hausdorff_distance (DistanceMetric_init (1 # 2) 5) prediction target = 6%R /\
  surface_distances prediction target = inr 3%R.
Proof.
  intros Ha Hp Hq prediction target.
  set (q := set_axis p a (axis p a + 3)) in *.
  destruct (three_apart p a Ha) as (Hne & Hc1 & Hd1 & Hc2 & Hd2 & Hpq & Hqp & Hu1 & Hu2).
  fold q in Hne, Hc1, Hd1, Hc2, Hd2, Hpq, Hqp, Hu2.
  pose proof (in_shape_axis _ _ a Ha Hp) as Rp.
  pose proof (in_shape_axis _ _ a Ha Hq) as Rq.
  unfold q in Rq. rewrite axis_set_axis in Rq.
  assert (Hn1 : in_shape s (set_axis p a (axis p a + 1)) = true)
    by (apply in_shape_set_axis; auto; lia).
  assert (Hn2 : in_shape s (set_axis p a (axis p a + 2)) = true)
    by (apply in_shape_set_axis; auto; lia).
  split.
  - rewrite average_hausdorff_distance_eq by lia. cbv zeta.
    set (P := threshold prediction (1 # 2)). set (T := threshold target (1 # 2)).
    assert (HP : single_voxel P p) by (apply threshold_unit_cube; exact Hp).
    assert (HT : single_voxel T q) by (apply threshold_unit_cube; exact Hq).
    rewrite (mean_nearest_single 5 (only P T) (_get_border T (1 # 2)) p q);
      [| apply (only_single P T p q); auto | apply border_single_voxel; exact HT | exact Hc1].
    rewrite (mean_nearest_single 5 (only T P) (_get_border P (1 # 2)) q p);
      [| apply (only_single T P q p); auto | apply border_single_voxel; exact HP | exact Hc2].
    rewrite Hd1, Hd2, (nonzero_single P p HP), (nonzero_single T q HT), root_val_9.
    cbn [length INR]. lra.
  - unfold surface_distances. cbn [shape unit_cube prediction target].
    rewrite idx_eqb_refl. cbn [negb]. cbv zeta.
    set (X := tmap is_nonzero (to_numpy prediction)).
    set (Y := tmap is_nonzero (to_numpy target)).
    assert (HX : single_voxel X p) by (apply nonzero_unit_cube; exact Hp).
    assert (HY : single_voxel Y q) by (apply nonzero_unit_cube; exact Hq).
    set (x_edge := tmap (fun d => d =? root_of_int 1) (distance_transform_edt X)).
    set (y_edge := tmap (fun d => d =? root_of_int 1) (distance_transform_edt Y)).
    assert (HXe : single_voxel x_edge p).
    { split; [exact Hp|]. intros v Hv. unfold x_edge. cbn [tmap item].
      rewrite (edt_single_voxel X p _ v HX Hn1 Hu1 Hv).
      destruct (idx_eqb v p); reflexivity. }
    assert (HYe : single_voxel y_edge q).
    { split; [exact Hq|]. intros v Hv. unfold y_edge. cbn [tmap item].
      rewrite (edt_single_voxel Y q _ v HY Hn2 Hu2 Hv).
      destruct (idx_eqb v q); reflexivity. }
    assert (Hsel : forall (d e : tensor bool) u w,
               single_voxel d u -> single_voxel e w -> shape d = shape e ->
               select (distance_transform_edt (tmap negb e)) d = [sq_dist u w]).
    { intros d e u w Hd He Hs. unfold select.
      rewrite (nonzero_single _ u).
      - cbn [map]. rewrite (edt_complement_single e w u He); [reflexivity|].
        rewrite <- Hs. apply Hd.
      - destruct Hd as [Hu Hdi]. split.
        + cbn [shape distance_transform_edt tmap]. rewrite <- Hs. exact Hu.
        + cbn [shape item distance_transform_edt tmap]. rewrite <- Hs. exact Hdi. }
    rewrite (Hsel x_edge y_edge p q HXe HYe eq_refl).
    rewrite (Hsel y_edge x_edge q p HYe HXe eq_refl).
    rewrite !np_mean_single, Hpq, Hqp, root_val_9.
    change (@inr string R ((3 + 3) / 2)%R = inr 3%R). f_equal. lra.
Qed.

Lemma unit_cubes_three_apart_witness :
  (1 = 0 \/ 1 = 1 \/ 1 = 2) /\
  in_shape (11, 11, 11) (5, 2, 5) = true /\
  in_shape (11, 11, 11) (set_axis (5, 2, 5) 1 (axis (5, 2, 5) 1 + 3)) = true /\
  average_hausdorff_distance (DistanceMetric_init (1 # 2) 5)
    (unit_cube (11, 11, 11) (5, 2, 5)) (unit_cube (11, 11, 11) (5, 5, 5)) = 6%R /\
  surface_distances (unit_cube (11, 11, 11) (5, 2, 5)) (unit_cube (11, 11, 11) (5, 5, 5))
  = inr 3%R.
Proof.
  split; [right; left; reflexivity|].
  split; [reflexivity|]. split; [reflexivity|].
  apply (unit_cubes_three_apart (11, 11, 11) (5, 2, 5) 1);
    [right; left; reflexivity | reflexivity | reflexivity].
Defined.

(** *** The exception monad *)

Lemma bind_inl {A B} (e : string) (k : A -> py B) : bind (inl e : py A) k = inl e.
Proof. reflexivity. Qed.

Lemma bind_inr {A B} (a : A) (k : A -> py B) : bind (inr a : py A) k = k a.
Proof. reflexivity. Qed.

Lemma bind_inr_inv {A B} (m : py A) (k : A -> py B) (b : B) :
  bind m k = inr b -> exists a, m = inr a /\ k a = inr b.
Proof. destruct m as [e | a]; [discriminate|]. intros Hk. exists a. auto. Qed.

Lemma ret_inr {A} (a : A) : (ret a : py A) = inr a.
Proof. reflexivity. Qed.

Lemma np_full_inr n v l : np_full n v = inr l -> 0 <= n /\ l = repeat v (Z.to_nat n).
Proof.
  unfold np_full. destruct (Z.ltb_spec n 0); [discriminate|].
  intros [= <-]. split; [lia | reflexivity].
Qed.

Lemma np_linspace_inr a b n l :
  np_linspace a b n = inr l -> 0 <= n /\ length l = Z.to_nat n.
Proof.
  unfold np_linspace. destruct (Z.ltb_spec n 0); [discriminate|].
  intros [= <-]. split; [lia|]. rewrite length_map, range_length. reflexivity.
Qed.

(** C7 (as amended): for a method name that is not one of the five
    recognised ones, [corrupt_data] never completes: the course is never
    assigned and its first use raises [UnboundLocalError] (after the
    allocation of the 6-row array, which raises [ValueError] for a negative
    resolution).  There is no explicit parameter check. *)
Theorem unknown_method_unbound (np_exp np_sin : Q -> Q) (np_pi : Q)
        (x0 : Z) (args : shape_args) (method : string) (mvt_axes : list Z)
        (center : string) (resolution : Z) :
  ~ In method recognised ->
  corrupt_data np_exp np_sin np_pi x0 args method mvt_axes center resolution
  = inl (if resolution <? 0 then "ValueError"%string else "UnboundLocalError"%string).
Proof.
  intros Hm. unfold corrupt_data, np_zeros, np_full.
  destruct (resolution <? 0); [reflexivity|].
  rewrite ret_inr, bind_inr.
  assert (E : forall n, In n recognised -> (method =? n)%string = false).
  { intros n Hn. apply String.eqb_neq. intros ->. contradiction. }
  rewrite !E by (unfold recognised; simpl; tauto).
  rewrite ret_inr, bind_inr.
  destruct (center =? "zero")%string; [reflexivity|].
  rewrite ret_inr, bind_inr.
  destruct mvt_axes; reflexivity.
Qed.

Lemma unknown_method_unbound_witness :
  ~ In "perlin"%string recognised /\
  corrupt_data (fun q => q) (fun q => q) 3%Q 100 (ScalarArgs 5 20%Q) "perlin" [1] "zero" 200
  = inl "UnboundLocalError"%string.
Proof.
  assert (H : ~ In "perlin"%string recognised).
  { unfold recognised. simpl. intros [E | [E | [E | [E | [E | []]]]]]; discriminate. }
  split; [exact H|].
  exact (unknown_method_unbound (fun q => q) (fun q => q) 3%Q 100 (ScalarArgs 5 20%Q)
                                "perlin" [1] "zero" 200 H).
Defined.

(** C7, the claim as stated fails: the unknown method "perlin" does not
    raise InvalidParameter. *)
Lemma unknown_method_counterexample :
  ~ In "perlin"%string recognised /\
  corrupt_data (fun q => q) (fun q => q) 3%Q 100 (ScalarArgs 5 20%Q) "perlin" [1] "zero" 200
  <> inl "InvalidParameter"%string.
Proof.
  split.
  - unfold recognised. simpl. intros [E | [E | [E | [E | [E | []]]]]]; discriminate.
  - vm_compute. discriminate.
Qed.

(** *** The course has the length of the resolution *)

Lemma imap_length {A B} (f : nat -> A -> B) l : length (imap f l) = length l.
Proof.
  unfold imap. rewrite length_map, length_combine, length_seq. apply Nat.min_id.
Qed.

Lemma nth_imap {A B} (f : nat -> A -> B) l i dA dB :
  (i < length l)%nat -> nth i (imap f l) dB = f i (nth i l dA).
Proof.
  intros Hi. unfold imap.
  rewrite (nth_indep _ dB ((fun cv => f (fst cv) (snd cv)) (0%nat, dA)))
    by (rewrite length_map, length_combine, length_seq, Nat.min_id; exact Hi).
  rewrite (map_nth (fun cv => f (fst cv) (snd cv))), combine_nth by apply length_seq.
  rewrite seq_nth by exact Hi. reflexivity.
Qed.

Ltac invert_binds H :=
  repeat (apply bind_inr_inv in H;
          let a := fresh "a" in let Ha := fresh "Ha" in
          destruct H as (a & Ha & H)).

Lemma method_course_length (np_exp np_sin : Q -> Q) (np_pi : Q)
      (x0 : Z) (args : shape_args) (method : string) (resolution : Z) (y : list Q) :
  0 <= resolution ->
  (let x := arange 0 resolution in
   if (method =? "gauss")%string then
     sigma <- scalar_sigma args ;;
     let e := map (fun xi => np_exp (- inject_Z ((xi - x0) ^ 2)
                                     / inject_Z (2 * sigma ^ 2))%Q) x in
     amplitude <- scalar_amplitude args ;;
     ret (Some (map (fun v => v * amplitude)%Q e))
   else if (method =? "2step")%string then
     sigma0 <- seq_sigma args 0 ;;
     p1 <- np_zeros (x0 - sigma0) ;;
     amplitude0 <- seq_amplitude args 0 ;;
     p2 <- np_linspace 0 amplitude0 (2 * sigma0 + 1) ;;
     sigma1 <- seq_sigma args 1 ;;
     o3 <- np_ones (sigma1 - 1) ;;
     let p3 := map (fun v => v * amplitude0)%Q o3 in
     amplitude1 <- seq_amplitude args 1 ;;
     p4 <- np_linspace amplitude0 amplitude1 (2 * sigma0 + 1) ;;
     sigma2 <- seq_sigma args 2 ;;
     o5 <- np_ones (sigma2 - 1) ;;
     let p5 := map (fun v => v * amplitude1)%Q o5 in
     p6 <- np_linspace amplitude1 0 (2 * sigma0 + 1) ;;
     let y := p1 ++ p2 ++ p3 ++ p4 ++ p5 ++ p6 in
     let remain := resolution - Z.of_nat (length y) in
     if remain <? 0 then
       ret (Some (firstn (Z.to_nat (norm_bound remain (Z.of_nat (length y)))) y))
     else
       z <- np_zeros remain ;;
       ret (Some (y ++ z))
   else if (method =? "step")%string then
     if x0 <? 100 then
       sigma <- scalar_sigma args ;;
       p1 <- np_zeros (x0 - sigma) ;;
       amplitude <- scalar_amplitude args ;;
       p2 <- np_linspace 0 amplitude (2 * sigma + 1) ;;
       o3 <- np_ones ((resolution - x0) - sigma - 1) ;;
       ret (Some (p1 ++ p2 ++ map (fun v => v * amplitude)%Q o3))
     else
       sigma <- scalar_sigma args ;;
       p1 <- np_zeros (x0 - sigma) ;;
       amplitude <- scalar_amplitude args ;;
       p2 <- np_linspace 0 (- amplitude) (2 * sigma + 1) ;;
       o3 <- np_ones ((resolution - x0) - sigma - 1) ;;
       ret (Some (p1 ++ p2 ++ map (fun v => v * - amplitude)%Q o3))
   else if (method =? "Ustep")%string then
     y <- np_zeros resolution ;;
     sigma <- scalar_sigma args ;;
     let left := Z.max 0 (x0 - sigma / 2) in
     let y := slice_assign y left (x0 + sigma / 2) 1%Q in
     amplitude <- scalar_amplitude args ;;
     ret (Some (map (fun v => v * amplitude)%Q y))
   else if (method =? "sin")%string then
     ret (Some (map (fun xi => np_sin (inject_Z xi / inject_Z x0 * 2 * np_pi)%Q) x))
   else ret None) = inr (Some y) ->
  length y = Z.to_nat resolution.
Proof.
  intros Hres. cbv zeta.
  assert (Hx : length (arange 0 resolution) = Z.to_nat resolution)
    by (rewrite arange_length; f_equal; lia).
  destruct (method =? "gauss")%string.
  { intros H. invert_binds H. injection H as <-. rewrite !length_map. exact Hx. }
  destruct (method =? "2step")%string.
  { intros H. invert_binds H.
    match type of H with
    | (if ?b then _ else _) = _ => destruct b eqn:Hrem
    end.
    - injection H as <-. apply Z.ltb_lt in Hrem. rewrite length_firstn.
      unfold norm_bound. rewrite (proj2 (Z.ltb_lt _ _) Hrem). lia.
    - apply Z.ltb_ge in Hrem. invert_binds H. injection H as <-.
      match goal with Hz : np_zeros _ = inr _ |- _ => apply np_full_inr in Hz; destruct Hz as [_ ->] end.
      rewrite length_app, repeat_length. lia. }
  destruct (method =? "step")%string.
  { destruct (x0 <? 100); intros H; invert_binds H; injection H as <-;
      repeat match goal with
             | Hz : np_zeros _ = inr _ |- _ => apply np_full_inr in Hz; destruct Hz as [? ->]
             | Hz : np_ones _ = inr _ |- _ => apply np_full_inr in Hz; destruct Hz as [? ->]
             | Hz : np_linspace _ _ _ = inr _ |- _ => apply np_linspace_inr in Hz; destruct Hz as [? ?]
             end;
      rewrite !length_app, length_map, !repeat_length; lia. }
  destruct (method =? "Ustep")%string.
  { intros H. invert_binds H. injection H as <-.
    match goal with Hz : np_zeros _ = inr _ |- _ => apply np_full_inr in Hz; destruct Hz as [_ ->] end.
    unfold slice_assign. rewrite length_map, imap_length, repeat_length. reflexivity. }
  destruct (method =? "sin")%string.
  { intros [= <-]. rewrite length_map. exact Hx. }
  discriminate.
Qed.

(** *** The discarded six-row array *)

Lemma set_row_inr fp xx y resolution fp' :
  Z.of_nat (length y) = resolution ->
  set_row fp xx y resolution = inr fp' ->
  let n := Z.of_nat (length fp) in
  - n <= xx < n /\
  fp' = imap (fun i row => if Z.of_nat i =? (if xx <? 0 then xx + n else xx) then y else row) fp.
Proof.
  intros Hy. unfold set_row. cbv zeta.
  destruct (Z.leb_spec (- Z.of_nat (length fp)) xx), (Z.ltb_spec xx (Z.of_nat (length fp)));
    cbn [andb negb]; try discriminate.
  rewrite Hy, Z.eqb_refl. intros [= <-]. split; [lia | reflexivity].
Qed.

Lemma py_getitem_row (fp : list (list Q)) xx :
  - Z.of_nat (length fp) <= xx < Z.of_nat (length fp) ->
  py_getitem [] fp xx
  = inr (nth (Z.to_nat (if xx <? 0 then xx + Z.of_nat (length fp) else xx)) fp []).
Proof.
  intros Hx. unfold py_getitem.
  destruct (Z.ltb_spec xx 0).
  - destruct (Z.leb_spec 0 xx); [lia|]. cbn [andb].
    destruct (Z.leb_spec (- Z.of_nat (length fp)) xx); [|lia]. reflexivity.
  - destruct (Z.leb_spec 0 xx); [|lia].
    destruct (Z.ltb_spec xx (Z.of_nat (length fp))); [|lia]. reflexivity.
Qed.

(** When the loop completes, the array keeps its six rows, every requested
    row holds the course, and rows that held it before still do. *)
Lemma write_axes_rows y resolution mvt_axes :
  Z.of_nat (length y) = resolution ->
  forall fp fp',
    write_axes fp mvt_axes (Some y) resolution = inr fp' ->
    length fp' = length fp /\
    (forall xx, In xx mvt_axes -> py_getitem [] fp' xx = inr y) /\
    (forall i, (i < length fp)%nat -> nth i fp [] = y -> nth i fp' [] = y).
Proof.
  intros Hy. induction mvt_axes as [|xx rest IH]; intros fp fp' H.
  - injection H as <-. repeat split; [intros ? [] | auto].
  - cbn [write_axes load] in H. rewrite ret_inr, bind_inr in H.
    apply bind_inr_inv in H. destruct H as (fp1 & H1 & H).
    apply (set_row_inr _ _ _ _ _ Hy) in H1. cbv zeta in H1. destruct H1 as [Hx E1].
    destruct (IH fp1 fp' H) as (Hlen & Hrows & Hkeep).
    assert (Hlen1 : length fp1 = length fp) by (rewrite E1; apply imap_length).
    set (r := if xx <? 0 then xx + Z.of_nat (length fp) else xx) in *.
    assert (Hr : 0 <= r < Z.of_nat (length fp)) by (unfold r; destruct (Z.ltb_spec xx 0); lia).
    repeat split.
    + lia.
    + intros x [<- | Hin]; [|apply Hrows; exact Hin].
      rewrite py_getitem_row by lia. f_equal. rewrite Hlen, Hlen1. fold r.
      apply Hkeep; [lia|].
      rewrite E1, (nth_imap _ _ _ []) by lia.
      rewrite Z2Nat.id, Z.eqb_refl by lia. reflexivity.
    + intros i Hi Hrow. apply Hkeep; [lia|].
      rewrite E1, (nth_imap _ _ _ []) by lia. rewrite Hrow.
      destruct (_ =? _); reflexivity.
Qed.

(** C6 (as amended): whenever [corrupt_data] completes, whatever the
    number of requested axes, it returns the bare 1-D course, of length
    [resolution]; the six-row array with the course written into every
    requested row is built inside the call and not returned. *)
Theorem corrupt_data_returns_course (np_exp np_sin : Q -> Q) (np_pi : Q)
        (x0 : Z) (args : shape_args) (method : string) (mvt_axes : list Z)
        (center : string) (resolution : Z) (v : ndarray) :
  corrupt_data np_exp np_sin np_pi x0 args method mvt_axes center resolution = inr v ->
  exists y fp,
    v = Array1 y /\
    Z.of_nat (length y) = resolution /\
    write_axes (repeat (repeat 0%Q (Z.to_nat resolution)) 6) mvt_axes (Some y) resolution
    = inr fp /\
    length fp = 6%nat /\
    forall xx, In xx mvt_axes -> py_getitem [] fp xx = inr y.
Proof.
  unfold corrupt_data. intros H.
  apply bind_inr_inv in H. destruct H as (row & Hrow & H).
  apply np_full_inr in Hrow. destruct Hrow as [Hres ->].
  apply bind_inr_inv in H. destruct H as (yo & Hyo & H).
  apply bind_inr_inv in H. destruct H as (yo' & Hc & H).
  apply bind_inr_inv in H. destruct H as (fp & Hfp & H).
  apply bind_inr_inv in H. destruct H as (yv & Hload & H).
  injection H as <-. destruct yo' as [y'|]; [|discriminate]. injection Hload as <-.
  assert (Hlen : Z.of_nat (length y') = resolution).
  { destruct (center =? "zero")%string.
    - apply bind_inr_inv in Hc. destruct Hc as (y0 & Hl & Hc).
      destruct yo as [y|]; [|discriminate]. injection Hl as <-.
      apply bind_inr_inv in Hc. destruct Hc as (m & _ & Hc). injection Hc as <-.
      rewrite length_map.
      rewrite (method_course_length _ _ _ _ _ _ _ _ Hres Hyo). lia.
    - injection Hc as ->.
      rewrite (method_course_length _ _ _ _ _ _ _ _ Hres Hyo). lia. }
  exists y', fp. split; [reflexivity|]. split; [exact Hlen|]. split; [exact Hfp|].
  destruct (write_axes_rows y' resolution mvt_axes Hlen _ _ Hfp) as (L & Hrows & _).
  split; [rewrite L; apply repeat_length | exact Hrows].
Qed.

Lemma corrupt_data_returns_course_witness :
  corrupt_data (fun q => q) (fun q => q) 3%Q 3 (ScalarArgs 4 2%Q) "Ustep" [1; 2] "zero" 8
  = inr (Array1 [(-2)%Q; 0%Q; 0%Q; 0%Q; 0%Q; (-2)%Q; (-2)%Q; (-2)%Q]) /\
  exists y fp,
    Array1 [(-2)%Q; 0%Q; 0%Q; 0%Q; 0%Q; (-2)%Q; (-2)%Q; (-2)%Q] = Array1 y /\
    Z.of_nat (length y) = 8 /\
    write_axes (repeat (repeat 0%Q (Z.to_nat 8)) 6) [1; 2] (Some y) 8 = inr fp /\
    length fp = 6%nat /\
    forall xx, In xx [1; 2] -> py_getitem [] fp xx = inr y.
Proof.
  assert (H : corrupt_data (fun q => q) (fun q => q) 3%Q 3 (ScalarArgs 4 2%Q) "Ustep"
                           [1; 2] "zero" 8
              = inr (Array1 [(-2)%Q; 0%Q; 0%Q; 0%Q; 0%Q; (-2)%Q; (-2)%Q; (-2)%Q]))
    by (vm_compute; reflexivity).
  split; [exact H|].
  exact (corrupt_data_returns_course _ _ _ _ _ _ _ _ _ _ H).
Defined.

(** C6, the claim as stated fails: with two requested axes the call
    returns the 1-D course, not a six-row array. *)
Lemma corrupt_data_multi_axis_counterexample :
  (1 < length [1; 2])%nat /\
  corrupt_data (fun q => q) (fun q => q) 3%Q 3 (ScalarArgs 4 2%Q) "Ustep" [1; 2] "zero" 8
  = inr (Array1 [(-2)%Q; 0%Q; 0%Q; 0%Q; 0%Q; (-2)%Q; (-2)%Q; (-2)%Q]) /\
  forall rows,
    corrupt_data (fun q => q) (fun q => q) 3%Q 3 (ScalarArgs 4 2%Q) "Ustep" [1; 2] "zero" 8
    <> inr (Array2 rows).
Proof.
  assert (H : corrupt_data (fun q => q) (fun q => q) 3%Q 3 (ScalarArgs 4 2%Q) "Ustep"
                           [1; 2] "zero" 8
              = inr (Array1 [(-2)%Q; 0%Q; 0%Q; 0%Q; 0%Q; (-2)%Q; (-2)%Q; (-2)%Q]))
    by (vm_compute; reflexivity).
  split; [simpl; lia|]. split; [exact H|].
  intros rows. rewrite H. discriminate.
Qed.

(** C5, the code at a failing input: with [resolution = 512] the centre
    index 150 lies in the first half of the range, and the step produced
    is negative (it ends on the plateau [- amplitude]), because the test
    is [x0 < 100] whatever the resolution. *)
Lemma step_sign_first_half_negative :
  150 < 512 / 2 /\
  exists y,
    corrupt_data (fun q => q) (fun q => q) 3%Q 150 (ScalarArgs 5 20%Q) "step" [1] "None" 512
    = inr (Array1 y) /\
    nth 144 y 0%Q = 0%Q /\
    nth 156 y 0%Q = (-20)%Q /\
    nth 511 y 0%Q = (-20)%Q.
Proof.
  split; [reflexivity|].
  eexists. split; [vm_compute; reflexivity|].
  repeat split; vm_compute; reflexivity.
Qed.

(** C5, the other side: with [resolution = 100] the centre index 60 lies
    in the second half of the range, and the step produced is positive. *)
Lemma step_sign_second_half_positive :
  100 / 2 <= 60 /\
  exists y,
    corrupt_data (fun q => q) (fun q => q) 3%Q 60 (ScalarArgs 5 20%Q) "step" [1] "None" 100
    = inr (Array1 y) /\
    nth 54 y 0%Q = 0%Q /\
    nth 66 y 0%Q = 20%Q /\
    nth 99 y 0%Q = 20%Q.
Proof.
  split; [vm_compute; discriminate|].
  eexists. split; [vm_compute; reflexivity|].
  repeat split; vm_compute; reflexivity.
Qed.

(** *** Complex numbers *)

Lemma C_eq (z w : C) : fst z = fst w -> snd z = snd w -> z = w.
Proof. destruct z, w. simpl. intros -> ->. reflexivity. Qed.

Ltac csimp := unfold Cadd, Cmul, Cscale, C0, Cone, RtoC, Cexp_i in *; cbn [fst snd] in *.
Ltac cring := apply C_eq; csimp; try ring.

Lemma Cadd_0_l z : Cadd C0 z = z.
Proof. cring. Qed.

Lemma Cadd_0_r z : Cadd z C0 = z.
Proof. cring. Qed.

Lemma Cadd_assoc a b c : Cadd (Cadd a b) c = Cadd a (Cadd b c).
Proof. cring. Qed.

Lemma Cadd_comm a b : Cadd a b = Cadd b a.
Proof. cring. Qed.

Lemma Cmul_1_r z : Cmul z Cone = z.
Proof. cring. Qed.

Lemma Cmul_0_r z : Cmul z C0 = C0.
Proof. cring. Qed.

Lemma Cmul_comm a b : Cmul a b = Cmul b a.
Proof. cring. Qed.

Lemma Cmul_assoc a b c : Cmul (Cmul a b) c = Cmul a (Cmul b c).
Proof. cring. Qed.

Lemma Cmul_add_distr_l a b c : Cmul a (Cadd b c) = Cadd (Cmul a b) (Cmul a c).
Proof. cring. Qed.

Lemma Cmul_add_distr_r a b c : Cmul (Cadd a b) c = Cadd (Cmul a c) (Cmul b c).
Proof. cring. Qed.

Lemma Cscale_add r a b : Cscale r (Cadd a b) = Cadd (Cscale r a) (Cscale r b).
Proof. cring. Qed.

Lemma Cscale_mul r a b : Cscale r (Cmul a b) = Cmul a (Cscale r b).
Proof. cring. Qed.

(** A product with a non-zero factor vanishes only if the other factor
    does. *)
Lemma Cmul_integral z s : Cmul s z = C0 -> z <> C0 -> s = C0.
Proof.
  destruct z as [a b], s as [x y]. csimp. intros [= H1 H2] Hz.
  assert (Hn : (a * a + b * b <> 0)%R).
  { intros Hs. apply Hz. destruct (Rplus_sqr_eq_0 a b Hs) as [-> ->]. reflexivity. }
  assert (Hx : ((a * a + b * b) * x = 0)%R).
  { replace ((a * a + b * b) * x)%R with (a * (x * a - y * b) + b * (x * b + y * a))%R by ring.
    rewrite H1, H2. ring. }
  assert (Hy : ((a * a + b * b) * y = 0)%R).
  { replace ((a * a + b * b) * y)%R with (a * (x * b + y * a) - b * (x * a - y * b))%R by ring.
    rewrite H1, H2. ring. }
  apply Rmult_integral in Hx, Hy.
  destruct Hx as [Hx | ->]; [contradiction|]. destruct Hy as [Hy | ->]; [contradiction|].
  reflexivity.
Qed.

(** *** Exponentials *)

Lemma Cexp_i_0 : Cexp_i 0 = Cone.
Proof. unfold Cexp_i, Cone. rewrite cos_0, sin_0. reflexivity. Qed.

Lemma Cexp_i_add a b : Cexp_i (a + b) = Cmul (Cexp_i a) (Cexp_i b).
Proof. apply C_eq; csimp; [apply cos_plus | rewrite sin_plus; ring]. Qed.

Lemma Cexp_i_period t (k : nat) : Cexp_i (t + 2 * INR k * PI) = Cexp_i t.
Proof. unfold Cexp_i. rewrite cos_period, sin_period. reflexivity. Qed.

Lemma Cexp_i_2PI (k : nat) : Cexp_i (2 * PI * INR k) = Cone.
Proof.
  replace (2 * PI * INR k)%R with (0 + 2 * INR k * PI)%R by ring.
  rewrite Cexp_i_period. apply Cexp_i_0.
Qed.

Lemma Cexp_i_neg_2PI (k : nat) : Cexp_i (- (2 * PI * INR k)) = Cone.
Proof.
  pose proof (Cexp_i_2PI k) as H. unfold Cexp_i, Cone in *.
  injection H as Hc Hs. rewrite cos_neg, sin_neg, Hc, Hs. f_equal. ring.
Qed.

Lemma Cabs_Cexp_i t : Cabs (Cexp_i t) = 1%R.
Proof.
  unfold Cabs, Cexp_i. cbn [fst snd].
  pose proof (sin2_cos2 t) as H. unfold Rsqr in H.
  replace (cos t * cos t + sin t * sin t)%R with 1%R by lra. apply sqrt_1.
Qed.

Lemma Cabs_mul z w : Cabs (Cmul z w) = (Cabs z * Cabs w)%R.
Proof.
  unfold Cabs, Cmul. cbn [fst snd].
  rewrite <- sqrt_mult by nra. f_equal. ring.
Qed.

Lemma Cabs_RtoC v : Cabs (RtoC v) = Rabs v.
Proof.
  unfold Cabs, RtoC. cbn [fst snd].
  replace (v * v + 0 * 0)%R with (Rsqr v) by (unfold Rsqr; ring). apply sqrt_Rsqr_abs.
Qed.

(** Inside one turn, only the zero angle gives 1. *)
Lemma Cexp_i_eq_1 t : (- (2 * PI) < t < 2 * PI)%R -> Cexp_i t = Cone -> t = 0%R.
Proof.
  intros Ht H. unfold Cexp_i, Cone in H. injection H as Hc Hs.
  pose proof PI_RGT_0 as Hpi.
  assert (Hpos : forall u, (0 <= u < 2 * PI)%R -> sin u = 0%R -> cos u = 1%R -> u = 0%R).
  { intros u Hu Hsu Hcu.
    destruct (sin_eq_O_2PI_0 u) as [E | [E | E]]; try lra.
    rewrite E, cos_PI in Hcu. lra. }
  destruct (Rle_or_lt 0 t) as [Hle | Hlt].
  - apply Hpos; [lra | exact Hs | exact Hc].
  - assert (E : (- t = 0)%R); [|lra].
    apply Hpos; [lra | rewrite sin_neg; lra | rewrite cos_neg; exact Hc].
Qed.

(** *** Finite sums *)

Lemma Csum_n_ext f g n :
  (forall m, (m < n)%nat -> f m = g m) -> Csum_n f n = Csum_n g n.
Proof.
  induction n as [|n IH]; intros H; simpl; [reflexivity|].
  rewrite IH, H by auto with arith. reflexivity.
Qed.

Lemma Csum_n_zero n : Csum_n (fun _ => C0) n = C0.
Proof. induction n as [|n IH]; simpl; [reflexivity|]. rewrite IH. apply Cadd_0_l. Qed.

Lemma Csum_n_add f g n :
  Csum_n (fun m => Cadd (f m) (g m)) n = Cadd (Csum_n f n) (Csum_n g n).
Proof.
  induction n as [|n IH]; simpl; [symmetry; apply Cadd_0_l|].
  rewrite IH. cring.
Qed.

Lemma Csum_n_mul_l c f n : Csum_n (fun m => Cmul c (f m)) n = Cmul c (Csum_n f n).
Proof.
  induction n as [|n IH]; simpl; [symmetry; apply Cmul_0_r|].
  rewrite IH. symmetry. apply Cmul_add_distr_l.
Qed.

Lemma Csum_n_mul_r c f n : Csum_n (fun m => Cmul (f m) c) n = Cmul (Csum_n f n) c.
Proof.
  rewrite Cmul_comm, <- Csum_n_mul_l. apply Csum_n_ext. intros m _. apply Cmul_comm.
Qed.

Lemma Csum_n_swap (f : nat -> nat -> C) n1 n2 :
  Csum_n (fun k => Csum_n (fun m => f k m) n2) n1
  = Csum_n (fun m => Csum_n (fun k => f k m) n1) n2.
Proof.
  induction n1 as [|n1 IH]; simpl.
  - symmetry. apply Csum_n_zero.
  - rewrite IH. symmetry. apply Csum_n_add.
Qed.

(** A sum whose terms vanish except at [j]. *)
Lemma Csum_n_single f j n :
  (j < n)%nat -> (forall m, (m < n)%nat -> m <> j -> f m = C0) -> Csum_n f n = f j.
Proof.
  induction n as [|n IH]; intros Hj Hz; [lia|]. simpl.
  destruct (Nat.eq_dec j n) as [-> | Hne].
  - rewrite (Csum_n_ext f (fun _ => C0)) by (intros m Hm; apply Hz; lia).
    rewrite Csum_n_zero. apply Cadd_0_l.
  - rewrite IH by (try lia; intros m Hm Hmj; apply Hz; lia).
    rewrite (Hz n) by lia. apply Cadd_0_r.
Qed.

(** *** Orthogonality of the exponentials *)

Lemma geometric_telescope t n :
  Cmul (Csum_n (fun k => Cexp_i (INR k * t)) n) (Cadd (Cexp_i t) (Cscale (-1) Cone))
  = Cadd (Cexp_i (INR n * t)) (Cscale (-1) Cone).
Proof.
  induction n as [|n IH].
  - simpl. rewrite Rmult_0_l, Cexp_i_0. cring.
  - cbn [Csum_n]. rewrite Cmul_add_distr_r, IH.
    replace (INR (S n) * t)%R with (INR n * t + t)%R by (rewrite S_INR; ring).
    rewrite Cexp_i_add. cring.
Qed.

Lemma roots_sum (n m N : nat) :
  (n < N)%nat -> (m < N)%nat ->
  Csum_n (fun k => Cexp_i (INR k * (2 * PI * (INR n - INR m) / INR N))) N
  = if Nat.eqb n m then RtoC (INR N) else C0.
Proof.
  intros Hn Hm.
  assert (HN : (0 < INR N)%R) by (apply lt_0_INR; lia).
  destruct (Nat.eqb_spec n m) as [-> | Hne].
  - rewrite (Csum_n_ext _ (fun _ => Cone)).
    + clear. induction N as [|N IH]; [reflexivity|].
      cbn [Csum_n]. rewrite IH, S_INR. cring.
    + intros k _. replace (INR k * (2 * PI * (INR m - INR m) / INR N))%R with 0%R
        by (field; lra).
      apply Cexp_i_0.
  - set (t := (2 * PI * (INR n - INR m) / INR N)%R).
    apply (Cmul_integral (Cadd (Cexp_i t) (Cscale (-1) Cone))).
    + rewrite geometric_telescope.
      replace (INR N * t)%R with (2 * PI * INR n + - (2 * PI * INR m))%R
        by (unfold t; field; lra).
      rewrite Cexp_i_add, Cexp_i_2PI, Cexp_i_neg_2PI. cring.
    + intros H.
      assert (E1 : Cexp_i t = Cone).
      { destruct (Cexp_i t) as [a b]. csimp. injection H as Ha Hb.
        f_equal; lra. }
      pose proof PI_RGT_0 as Hpi.
      assert (Hn' : (0 <= INR n < INR N)%R) by (split; [apply pos_INR | apply lt_INR; lia]).
      assert (Hm' : (0 <= INR m < INR N)%R) by (split; [apply pos_INR | apply lt_INR; lia]).
      assert (Hd : (- INR N < INR n - INR m < INR N)%R) by lra.
      assert (Ht : (- (2 * PI) < t < 2 * PI)%R).
      { unfold t. split.
        - apply Rmult_lt_reg_r with (INR N); [exact HN|].
          replace (2 * PI * (INR n - INR m) / INR N * INR N)%R
            with (2 * PI * (INR n - INR m))%R by (field; lra). nra.
        - apply Rmult_lt_reg_r with (INR N); [exact HN|].
          replace (2 * PI * (INR n - INR m) / INR N * INR N)%R
            with (2 * PI * (INR n - INR m))%R by (field; lra). nra. }
      apply Cexp_i_eq_1 in E1; [|exact Ht].
      assert (E2 : (2 * PI * (INR n - INR m) = 0)%R).
      { replace (2 * PI * (INR n - INR m))%R with (t * INR N)%R by (unfold t; field; lra).
        rewrite E1. ring. }
      assert (E3 : INR n = INR m) by nra.
      apply INR_eq in E3. contradiction.
Qed.

(** *** Rolls of even-length arrays *)

Lemma half_even (l : nat) : Nat.even l = true -> (l = 2 * (l / 2))%nat.
Proof.
  intros H. apply Nat.even_spec in H. destruct H as [h ->].
  rewrite (Nat.mul_comm 2 h), Nat.div_mul by lia. lia.
Qed.

Lemma fftshift_even {A} (l : list A) :
  Nat.even (length l) = true ->
  fftshift l = skipn (length l / 2) l ++ firstn (length l / 2) l.
Proof.
  intros He. pose proof (half_even _ He) as Hh. unfold fftshift, roll.
  destruct (Z.eqb_spec (Z.of_nat (length l)) 0) as [E | E].
  - destruct l; [reflexivity | simpl in E; lia].
  - set (h := (length l / 2)%nat) in *.
    replace (Z.to_nat ((- (Z.of_nat (length l) / 2)) mod Z.of_nat (length l))) with h;
      [reflexivity|].
    rewrite Hh at 1 2. rewrite Nat2Z.inj_mul. change (Z.of_nat 2) with 2.
    rewrite (Z.mul_comm 2), Z.div_mul by lia.
    assert (0 < Z.of_nat h) by lia.
    rewrite <- (Z.mod_add _ 1) by lia.
    rewrite Z.mod_small by lia. lia.
Qed.

Lemma ifftshift_even {A} (l : list A) :
  Nat.even (length l) = true ->
  ifftshift l = skipn (length l / 2) l ++ firstn (length l / 2) l.
Proof.
  intros He. pose proof (half_even _ He) as Hh. unfold ifftshift, roll.
  destruct (Z.eqb_spec (Z.of_nat (length l)) 0) as [E | E].
  - destruct l; [reflexivity | simpl in E; lia].
  - set (h := (length l / 2)%nat) in *.
    replace (Z.to_nat ((- - (Z.of_nat (length l) / 2)) mod Z.of_nat (length l))) with h;
      [reflexivity|].
    rewrite Z.opp_involutive.
    rewrite Hh at 1 2. rewrite Nat2Z.inj_mul. change (Z.of_nat 2) with 2.
    rewrite (Z.mul_comm 2), Z.div_mul by lia.
    rewrite Z.mod_small by lia. lia.
Qed.

Lemma swap_halves_length {A} (l : list A) h :
  (h <= length l)%nat -> length (skipn h l ++ firstn h l) = length l.
Proof. intros Hh. rewrite length_app, length_skipn, length_firstn. lia. Qed.

Lemma swap_halves_twice {A} (l : list A) h :
  (length l = 2 * h)%nat ->
  let l' := skipn h l ++ firstn h l in
  skipn h l' ++ firstn h l' = l.
Proof.
  intros Hl l'. unfold l'.
  assert (Hs : length (skipn h l) = h) by (rewrite length_skipn; lia).
  rewrite skipn_app, firstn_app, Hs, Nat.sub_diag.
  rewrite (skipn_all2 (skipn h l)) by lia.
  rewrite (firstn_all2 (skipn h l)) by lia.
  cbn [skipn firstn]. rewrite app_nil_r. cbn [app].
  apply firstn_skipn.
Qed.

Lemma swap_halves_map {A B} (f : A -> B) (l : list A) h :
  map f (skipn h l ++ firstn h l) = skipn h (map f l) ++ firstn h (map f l).
Proof. rewrite map_app, skipn_map, firstn_map. reflexivity. Qed.

Lemma nth_swap_halves {A} (l : list A) h k d :
  (length l = 2 * h)%nat -> (k < length l)%nat ->
  nth k (skipn h l ++ firstn h l) d
  = nth (if (k <? h)%nat then k + h else k - h)%nat l d.
Proof.
  intros Hl Hk.
  assert (Hs : length (skipn h l) = h) by (rewrite length_skipn; lia).
  destruct (Nat.ltb_spec k h) as [L | L].
  - rewrite app_nth1 by lia. rewrite nth_skipn. f_equal. lia.
  - rewrite app_nth2 by lia. rewrite Hs, nth_firstn.
    rewrite (proj2 (Nat.ltb_lt (k - h) h)) by lia. reflexivity.
Qed.

(** *** The transform pair *)

Lemma modulate_length x : length (modulate x) = length x.
Proof. apply imap_length. Qed.

Lemma nth_modulate x m :
  (m < length x)%nat ->
  nth m (modulate x) C0 = Cmul (nth m x C0) (Cexp_i (- (PI * INR m))).
Proof.
  intros Hm. unfold modulate.
  exact (nth_imap (fun m z => Cmul z (Cexp_i (- (PI * INR m)))) x m C0 C0 Hm).
Qed.

(** Shifting the transform by half its (even) length is transforming the
    modulated signal. *)
Lemma dft_half_shift x h k :
  (length x = 2 * h)%nat -> (k < length x)%nat ->
  dft (-1) x (if (k <? h)%nat then k + h else k - h)%nat = dft (-1) (modulate x) k.
Proof.
  intros Hl Hk. unfold dft. rewrite modulate_length.
  apply Csum_n_ext. intros m Hm. rewrite nth_modulate by exact Hm.
  rewrite Cmul_assoc. f_equal.
  assert (Hh : (0 < INR h)%R) by (apply lt_0_INR; lia).
  assert (HN : INR (length x) = (2 * INR h)%R) by (rewrite Hl, mult_INR; reflexivity).
  rewrite HN. destruct (Nat.ltb_spec k h) as [L | L].
  - rewrite <- Cexp_i_add. f_equal. rewrite plus_INR. field. lra.
  - rewrite <- Cexp_i_add. symmetry. rewrite <- (Cexp_i_period _ m). f_equal.
    rewrite minus_INR by lia. field. lra.
Qed.

Lemma fftshift_fftn_modulate x :
  Nat.even (length x) = true ->
  fftshift (map (dft (-1) x) (seq 0 (length x)))
  = map (dft (-1) (modulate x)) (seq 0 (length x)).
Proof.
  intros He. pose proof (half_even _ He) as Hh.
  set (h := (length x / 2)%nat) in *.
  rewrite fftshift_even by (rewrite length_map, length_seq; exact He).
  rewrite length_map, length_seq. fold h.
  apply (nth_ext _ _ C0 C0).
  - rewrite swap_halves_length by (rewrite length_map, length_seq; lia).
    rewrite !length_map. reflexivity.
  - intros k Hk. rewrite swap_halves_length in Hk by (rewrite length_map, length_seq; lia).
    rewrite length_map, length_seq in Hk.
    rewrite nth_swap_halves by (rewrite length_map, length_seq; assumption).
    rewrite (nth_indep _ C0 (dft (-1) x 0))
      by (rewrite length_map, length_seq; destruct (Nat.ltb_spec k h); lia).
    rewrite (map_nth (dft (-1) x)), seq_nth by (destruct (Nat.ltb_spec k h); lia).
    rewrite (nth_indep _ C0 (dft (-1) (modulate x) 0)) by (rewrite length_map, length_seq; lia).
    rewrite (map_nth (dft (-1) (modulate x))), seq_nth by lia.
    cbn [Nat.add]. apply dft_half_shift; assumption.
Qed.

(** The inverse transform undoes the transform. *)
Lemma dft_inverse z n :
  (n < length z)%nat ->
  Cscale (1 / INR (length z)) (dft 1 (map (dft (-1) z) (seq 0 (length z))) n)
  = nth n z C0.
Proof.
  intros Hn. set (N := length z).
  assert (HN : (0 < INR N)%R) by (apply lt_0_INR; lia).
  unfold dft at 1. rewrite length_map, length_seq. fold N.
  rewrite (Csum_n_ext _ (fun k =>
             Csum_n (fun m => Cmul (nth m z C0)
                                   (Cexp_i (INR k * (2 * PI * (INR n - INR m) / INR N)))) N)).
  2:{ intros k Hk.
      rewrite (nth_indep _ C0 (dft (-1) z 0)) by (rewrite length_map, length_seq; exact Hk).
      rewrite (map_nth (dft (-1) z)), seq_nth by exact Hk. cbn [Nat.add].
      unfold dft. fold N. rewrite <- Csum_n_mul_r.
      apply Csum_n_ext. intros m Hm. rewrite Cmul_assoc, <- Cexp_i_add.
      do 2 f_equal. field. lra. }
  rewrite Csum_n_swap.
  rewrite (Csum_n_ext _ (fun m => Cmul (nth m z C0)
                                       (if Nat.eqb n m then RtoC (INR N) else C0))).
  2:{ intros m Hm. rewrite Csum_n_mul_l, roots_sum by assumption. reflexivity. }
  rewrite (Csum_n_single _ n) by
    (try assumption; intros m Hm Hne;
     rewrite (proj2 (Nat.eqb_neq n m)) by auto; apply Cmul_0_r).
  rewrite Nat.eqb_refl. apply C_eq; csimp; field; lra.
Qed.

Lemma ifftn_fftn z :
  z <> [] ->
  ifftn (map (dft (-1) z) (seq 0 (length z))) = inr z.
Proof.
  intros Hz. unfold ifftn. rewrite length_map, length_seq.
  destruct (Nat.eqb_spec (length z) 0) as [E | E].
  - destruct z; [congruence | discriminate].
  - rewrite ret_inr. f_equal. apply (nth_ext _ _ C0 C0).
    + rewrite length_map, length_seq. reflexivity.
    + intros n Hn. rewrite length_map, length_seq in Hn.
      rewrite (nth_indep _ C0 ((fun k => Cscale (1 / INR (length z))
                                   (dft 1 (map (dft (-1) z) (seq 0 (length z))) k)) 0%nat))
        by (rewrite length_map, length_seq; exact Hn).
      rewrite (map_nth (fun k => Cscale (1 / INR (length z))
                                   (dft 1 (map (dft (-1) z) (seq 0 (length z))) k))).
      rewrite seq_nth by exact Hn. cbn [Nat.add]. apply dft_inverse. exact Hn.
Qed.

(** *** The frequency axis and the broadcasts *)

Lemma kx_bounds (a : Q) :
  (2 <= a)%Q ->
  (a - 1 < (1 + 2 / a - (-1)) / (2 / (a - 1)) /\ (1 + 2 / a - (-1)) / (2 / (a - 1)) <= a)%Q.
Proof.
  intros Ha.
  assert (E : ((1 + 2 / a - (-1)) / (2 / (a - 1)) == a - 1 / a)%Q)
    by (field; split; intros H; Lqa.lra).
  rewrite E.
  assert (H1 : (0 < 1 / a)%Q) by (apply Qlt_shift_div_l; Lqa.lra).
  assert (H2 : (1 / a < 1)%Q) by (apply Qlt_shift_div_r; Lqa.lra).
  split; Lqa.lra.
Qed.

(** [kx] has as many samples as the course. *)
Lemma kx_length (N : Z) :
  2 <= N ->
  length (np_arange (-1) (1 + inject_Z 2 / inject_Z N) (inject_Z 2 / inject_Z (N - 1)))
  = Z.to_nat N.
Proof.
  intros HN. unfold np_arange. rewrite length_map, range_length. f_equal.
  assert (E : (inject_Z (N - 1) == inject_Z N - 1)%Q).
  { unfold Z.sub. rewrite inject_Z_plus, inject_Z_opp. reflexivity. }
  rewrite E. change (inject_Z 2) with 2%Q.
  assert (Ha : (2 <= inject_Z N)%Q) by (change 2%Q with (inject_Z 2); rewrite <- Zle_Qle; exact HN).
  destruct (kx_bounds (inject_Z N) Ha) as [Hlo Hhi].
  set (x := ((1 + 2 / inject_Z N - -1) / (2 / (inject_Z N - 1)))%Q) in *.
  pose proof (Qle_ceiling x) as Hc1. pose proof (Qceiling_lt x) as Hc2.
  assert (L1 : (inject_Z (N - 1) < inject_Z (Qceiling x))%Q).
  { rewrite E. eapply Qlt_le_trans; eassumption. }
  assert (L2 : (inject_Z (Qceiling x - 1) < inject_Z N)%Q).
  { eapply Qlt_le_trans; eassumption. }
  rewrite <- Zlt_Qlt in L1, L2. lia.
Qed.

Lemma broadcast_same {A B D} (f : A -> B -> D) (a : list A) (b : list B) :
  length a = length b ->
  broadcast f a b = inr (map (fun ab => f (fst ab) (snd ab)) (combine a b)).
Proof. intros E. unfold broadcast. rewrite E, Nat.eqb_refl. reflexivity. Qed.

Lemma zero_course_phase (kx : list R) n :
  length kx = n ->
  map (fun kd => Cexp_i (- PI * fst kd * snd kd)) (combine kx (repeat 0%R n)) = repeat Cone n.
Proof.
  revert n. induction kx as [|k kx IH]; intros n Hn; simpl in Hn; subst n; [reflexivity|].
  cbn [repeat combine map fst snd]. rewrite IH by reflexivity. f_equal.
  replace (- PI * k * 0)%R with 0%R by ring. apply Cexp_i_0.
Qed.

Lemma mul_ones (l : list C) n :
  length l = n ->
  map (fun ab => Cmul (fst ab) (snd ab)) (combine l (repeat Cone n)) = l.
Proof.
  revert n. induction l as [|z l IH]; intros n Hn; simpl in Hn; subst n; [reflexivity|].
  cbn [repeat combine map fst snd]. rewrite IH, Cmul_1_r by reflexivity. reflexivity.
Qed.

Lemma map_Cabs_modulate x : map Cabs (modulate x) = map Cabs x.
Proof.
  apply (nth_ext _ _ (Cabs C0) (Cabs C0)).
  - rewrite !length_map. apply modulate_length.
  - intros n Hn. rewrite length_map, modulate_length in Hn.
    rewrite !(map_nth Cabs), nth_modulate, Cabs_mul, Cabs_Cexp_i by exact Hn. ring.
Qed.

Lemma map_Cabs_RtoC l : map Cabs (map RtoC l) = map Rabs l.
Proof. rewrite map_map. apply map_ext. apply Cabs_RtoC. Qed.

(** With an all-zero course, an even-length signal comes back as its
    element-wise magnitude. *)
Lemma simu_motion_zero_course (so : list R) :
  Nat.even (length so) = true -> (2 <= length so)%nat ->
  simu_motion (repeat 0%R (length so)) so true = inr (RealArray (map Rabs so)).
Proof.
  intros He HN. pose proof (half_even _ He) as Hh.
  set (N := length so) in *. set (h := (N / 2)%nat) in *.
  set (x := ifftshift (map RtoC so)).
  assert (Ex : x = skipn h (map RtoC so) ++ firstn h (map RtoC so)).
  { unfold x. rewrite ifftshift_even by (rewrite length_map; exact He).
    rewrite length_map. reflexivity. }
  assert (Lx : length x = N).
  { rewrite Ex. rewrite swap_halves_length by (rewrite length_map; fold N; lia).
    apply length_map. }
  unfold simu_motion. cbv zeta. rewrite repeat_length. fold N. fold x.
  unfold fftn. rewrite Lx.
  destruct (Nat.eqb_spec N 0) as [E | _]; [lia|].
  rewrite ret_inr, bind_inr.
  replace (fftshift (map (dft (-1) x) (seq 0 N)))
    with (map (dft (-1) (modulate x)) (seq 0 N))
    by (rewrite <- Lx; symmetry; apply fftshift_fftn_modulate; rewrite Lx; exact He).
  unfold py_div.
  destruct (Z.eqb_spec (Z.of_nat N) 0) as [E | _]; [lia|]. rewrite ret_inr, bind_inr.
  destruct (Z.eqb_spec (Z.of_nat N - 1) 0) as [E | _]; [lia|]. rewrite ret_inr, bind_inr.
  rewrite (broadcast_same _ (map Q2R _) (repeat 0%R N))
    by (rewrite length_map, kx_length, repeat_length by lia; lia).
  rewrite bind_inr, zero_course_phase by (rewrite length_map, kx_length by lia; lia).
  rewrite broadcast_same by (rewrite length_map, length_seq, repeat_length; reflexivity).
  rewrite bind_inr, mul_ones by (rewrite length_map, length_seq; reflexivity).
  replace (ifftn (map (dft (-1) (modulate x)) (seq 0 N))) with (@inr string _ (modulate x)).
  2:{ symmetry. rewrite <- Lx, <- (modulate_length x). apply ifftn_fftn.
      intros E. apply (f_equal (@length C)) in E.
      rewrite modulate_length, Lx in E. simpl in E. lia. }
  rewrite bind_inr, ret_inr. do 2 f_equal.
  rewrite ifftshift_even by (rewrite modulate_length, Lx; exact He).
  rewrite modulate_length, Lx. fold h.
  rewrite swap_halves_map, map_Cabs_modulate, Ex, swap_halves_map, map_Cabs_RtoC.
  apply swap_halves_twice. rewrite length_map. exact Hh.
Qed.

Lemma all_zero_repeat (fp : list R) : Forall (fun d => d = 0%R) fp -> fp = repeat 0%R (length fp).
Proof.
  induction 1 as [|d fp Hd _ IH]; [reflexivity|].
  cbn [length repeat]. rewrite Hd, <- IH. reflexivity.
Qed.

Lemma map_Rabs_nonneg (so : list R) : Forall (fun v => (0 <= v)%R) so -> map Rabs so = so.
Proof.
  induction 1 as [|v so Hv _ IH]; [reflexivity|].
  cbn [map]. rewrite IH, Rabs_right by lra. reflexivity.
Qed.

(** C3 (as amended): in exact arithmetic, for every signal of even length
    (at least 2) and every all-zero displacement course of the same
    length, [simu_motion] returns the element-wise magnitude of the
    signal; it returns the signal itself when the signal is
    non-negative. *)
Theorem zero_course_returns_magnitude (fp so : list R) :
  length fp = length so ->
  Forall (fun d => d = 0%R) fp ->
  Nat.even (length so) = true ->
  (2 <= length so)%nat ->
  simu_motion fp so true = inr (RealArray (map Rabs so)) /\
  (Forall (fun v => (0 <= v)%R) so -> simu_motion fp so true = inr (RealArray so)).
Proof.
  intros Hlen Hz He HN.
  rewrite (all_zero_repeat fp Hz), Hlen.
  split.
  - apply simu_motion_zero_course; assumption.
  - intros Hpos. rewrite simu_motion_zero_course by assumption.
    rewrite (map_Rabs_nonneg so Hpos). reflexivity.
Qed.

Lemma zero_course_returns_magnitude_witness :
  length [0; 0]%R = length [1; 2]%R /\
  Forall (fun d => d = 0%R) [0; 0]%R /\
  Nat.even (length [1; 2]%R) = true /\
  (2 <= length [1; 2]%R)%nat /\
  simu_motion [0; 0]%R [1; 2]%R true = inr (RealArray (map Rabs [1; 2]%R)) /\
  (Forall (fun v => (0 <= v)%R) [1; 2]%R ->
   simu_motion [0; 0]%R [1; 2]%R true = inr (RealArray [1; 2]%R)).
Proof.
  assert (H1 : length [0; 0]%R = length [1; 2]%R) by reflexivity.
  assert (H2 : Forall (fun d => d = 0%R) [0; 0]%R) by (repeat constructor).
  assert (H3 : Nat.even (length [1; 2]%R) = true) by reflexivity.
  assert (H4 : (2 <= length [1; 2]%R)%nat) by (simpl; lia).
  repeat (split; [assumption|]).
  exact (zero_course_returns_magnitude [0; 0]%R [1; 2]%R H1 H2 H3 H4).
Defined.

(** C3, the claim as stated fails: the signal [-1, 0] with the all-zero
    course [0, 0] comes back as [1, 0]; the magnitude at the end loses
    the sign of the first sample. *)
Lemma zero_course_counterexample :
  Forall (fun d => d = 0%R) [0; 0]%R /\
  simu_motion [0; 0]%R [-1; 0]%R true = inr (RealArray [1; 0]%R) /\
  simu_motion [0; 0]%R [-1; 0]%R true <> inr (RealArray [-1; 0]%R).
Proof.
  assert (E : simu_motion [0; 0]%R [-1; 0]%R true = inr (RealArray [1; 0]%R)).
  { change [0; 0]%R with (repeat 0%R (length [-1; 0]%R)).
    rewrite simu_motion_zero_course by (try reflexivity; simpl; lia).
    cbn [map]. rewrite Rabs_left, Rabs_R0 by lra.
    replace (- -1)%R with 1%R by lra. reflexivity. }
  split; [repeat constructor|]. split; [exact E|].
  rewrite E. intros [= H]. lra.
Qed.

(** *** Exposed voxels *)

Lemma in_shape_step s p i d :
  i = 0 \/ i = 1 \/ i = 2 -> in_shape s p = true ->
  in_shape s (step_idx p i d) = (0 <=? axis p i + d) && (axis p i + d <? axis s i).
Proof.
  destruct s as [[n0 n1] n2], p as [[a b] c]. intros Hi Hp.
  apply in_shape_iff in Hp.
  destruct Hi as [-> | [-> | ->]]; unfold step_idx; cbv [set_axis axis Z.eqb Pos.eqb];
    unfold in_shape;
    repeat match goal with
           | |- context [?u <=? ?v] => destruct (Z.leb_spec u v)
           | |- context [?u <? ?v] => destruct (Z.ltb_spec u v)
           end; cbn [andb]; try reflexivity; lia.
Qed.

Lemma border_axis_exposed {A} `{Scalar A} (volume : tensor A) cut p i :
  i = 0 \/ i = 1 \/ i = 2 -> in_shape (shape volume) p = true ->
  let ref := tmap (fun v => Z.b2z (gt_cut v cut)) volume in
  (item ref p - forward ref i p =? 1) || (item ref p - backward ref i p =? 1)
  = fg volume cut p
    && (negb (fg volume cut (step_idx p i 1)) || negb (fg volume cut (step_idx p i (-1)))).
Proof.
  intros Hi Hp ref. unfold fg. rewrite Hp, !in_shape_step by assumption.
  pose proof (in_shape_axis _ _ i Hi Hp) as Hr.
  unfold forward, backward. rewrite axis_set_axis. change (shape ref) with (shape volume).
  unfold step_idx. cbn [item tmap ref].
  replace (axis p i + -1) with (axis p i - 1) by lia.
  destruct (Z.ltb_spec (axis p i + 1) (axis (shape volume) i));
    destruct (Z.ltb_spec (axis p i) 1);
    destruct (Z.leb_spec 0 (axis p i + 1)); try lia;
    destruct (Z.leb_spec 0 (axis p i - 1)); try lia;
    destruct (Z.ltb_spec (axis p i - 1) (axis (shape volume) i)); try lia;
    cbn [andb];
    repeat match goal with
           | |- context [gt_cut ?v ?c] => destruct (gt_cut v c)
           end; reflexivity.
Qed.

(** X1: inside the grid, [_get_border] marks exactly the exposed voxels:
    the foreground voxels that have, along some axis, a neighbour one step
    forward or backward that is background or outside the grid. *)
Theorem border_marks_exposed {A} `{Scalar A} (volume : tensor A) (cut : Q) (p : idx) :
  in_shape (shape volume) p = true ->
  item (_get_border volume cut) p = if exposed volume cut p then one else zero.
Proof.
  intros Hp. rewrite get_border_item. unfold is_border, exposed.
  rewrite range_3. cbn [existsb].
  rewrite !(border_axis_exposed volume cut p) by auto.
  destruct (fg volume cut p); cbn [andb orb]; [|reflexivity].
  rewrite orb_false_r. reflexivity.
Qed.

Lemma border_marks_exposed_witness :
  in_shape (shape (of_list3 0%Q [[[1%Q; 1%Q; 1%Q; 0%Q]]])) (0, 0, 1) = true /\
  item (_get_border (of_list3 0%Q [[[1%Q; 1%Q; 1%Q; 0%Q]]]) (1 # 2)) (0, 0, 1)
  = if exposed (of_list3 0%Q [[[1%Q; 1%Q; 1%Q; 0%Q]]]) (1 # 2) (0, 0, 1) then 1%Q else 0%Q.
Proof.
  split; [reflexivity|].
  refine (border_marks_exposed (of_list3 0%Q [[[1%Q; 1%Q; 1%Q; 0%Q]]]) (1 # 2) (0, 0, 1) _).
  reflexivity.
Defined.

(** *** The kernel bank and the distance table *)

Lemma kernels_length c r :
  length (distance_kernels (DistanceMetric_init c r))
  = length (distances (DistanceMetric_init c r)).
Proof.
  rewrite init_kernels. unfold _get_distance_kernels.
  rewrite length_map, length_seq. reflexivity.
Qed.

Lemma nth_kernel_item c r idx o :
  0 <= r -> in_cube r o ->
  (idx < length (distances (DistanceMetric_init c r)))%nat ->
  let self := DistanceMetric_init c r in
  item (nth idx (distance_kernels self) (full (0, 0, 0) 0)) (shift_idx o (r, r, r))
  = Z.b2z (distance_at self o =? nth idx (distances self) 0).
Proof.
  intros Hr Ho Hidx self. unfold self. rewrite init_kernels. fold self.
  unfold _get_distance_kernels.
  set (G := fun idx0 : nat => reshape 0 _ _).
  rewrite (nth_indep _ _ (G 0%nat)) by (rewrite length_map, length_seq; exact Hidx).
  rewrite (map_nth G), seq_nth by exact Hidx. cbn [Nat.add]. unfold G.
  unfold self. rewrite kernel_item, distance_at_clipped by assumption. reflexivity.
Qed.

(** X2: the kernels partition the cubic neighbourhood: there is one kernel
    per distance of the table, and at every offset of the neighbourhood
    exactly one kernel is set, the one of the offset's own distance (the
    kernel values at the offset sum to 1, and kernel [idx] holds 1 there
    exactly when [distances[idx]] is the map distance of the offset). *)
Theorem kernels_partition (c : Q) (r : Z) (o : idx) :
  0 <= r -> in_cube r o ->
  let self := DistanceMetric_init c r in
  length (distance_kernels self) = length (distances self) /\
  zsum (map (fun k => item k (shift_idx o (r, r, r))) (distance_kernels self)) = 1 /\
  forall idx, (idx < length (distances self))%nat ->
    (item (nth idx (distance_kernels self) (full (0, 0, 0) 0)) (shift_idx o (r, r, r)) = 1
     <-> nth idx (distances self) 0 = distance_at self o).
Proof.
  intros Hr Ho self. split; [apply kernels_length|]. split.
  - unfold self. rewrite init_kernels. fold self. unfold _get_distance_kernels.
    rewrite map_map.
    erewrite map_ext; [|intros idx; apply kernel_item; assumption].
    fold self.
    assert (Hin : In (clipped r o) (distances self)) by (apply distances_In; exists o; auto).
    destruct (In_nth _ _ 0 Hin) as (j & Hj & Ej).
    rewrite <- Ej, zsum_indicator; [|apply distances_sorted|exact Hj|lia].
    rewrite (proj2 (Nat.ltb_lt _ _) Hj). reflexivity.
  - intros idx Hidx. unfold self. rewrite nth_kernel_item by assumption. fold self.
    destruct (Z.eqb_spec (distance_at self o) (nth idx (distances self) 0)) as [E | E];
      cbn [Z.b2z]; split; intros H; try congruence; try lia.
Qed.

Lemma kernels_partition_witness :
  0 <= 2 /\ in_cube 2 (1, -2, 0) /\
  let self := DistanceMetric_init (1 # 2) 2 in
  length (distance_kernels self) = length (distances self) /\
  zsum (map (fun k => item k (shift_idx (1, -2, 0) (2, 2, 2))) (distance_kernels self)) = 1 /\
  forall idx, (idx < length (distances self))%nat ->
    (item (nth idx (distance_kernels self) (full (0, 0, 0) 0)) (shift_idx (1, -2, 0) (2, 2, 2)) = 1
     <-> nth idx (distances self) 0 = distance_at self (1, -2, 0)).
Proof.
  assert (H1 : 0 <= 2) by lia.
  assert (H2 : in_cube 2 (1, -2, 0)) by (simpl; lia).
  split; [exact H1|]. split; [exact H2|].
  exact (kernels_partition (1 # 2) 2 (1, -2, 0) H1 H2).
Defined.

(** X3: the distance table built at construction is strictly increasing,
    starts at 0 and ends at the radius, and holds exactly the distances
    that occur in the map. *)
Theorem distances_table (c : Q) (r : Z) :
  0 <= r ->
  let self := DistanceMetric_init c r in
  StronglySorted Z.lt (distances self) /\
  nth 0 (distances self) 0 = 0 /\
  nth (length (distances self) - 1) (distances self) 0 = root_of_int r /\
  root_val (nth (length (distances self) - 1) (distances self) 0) = IZR r /\
  (forall d, In d (distances self) <-> In d (distance_map self)).
Proof.
  intros Hr self. split; [apply distances_sorted|]. split; [apply distances_first; exact Hr|].
  destruct (distances_last c r Hr) as [_ Hlast]. split; [exact Hlast|]. split.
  - fold self in Hlast. rewrite Hlast. apply root_val_of_int. exact Hr.
  - intros d. apply unique_In.
Qed.

Lemma distances_table_witness :
  0 <= 5 /\
  let self := DistanceMetric_init (1 # 2) 5 in
  StronglySorted Z.lt (distances self) /\
  nth 0 (distances self) 0 = 0 /\
  nth (length (distances self) - 1) (distances self) 0 = root_of_int 5 /\
  root_val (nth (length (distances self) - 1) (distances self) 0) = IZR 5 /\
  (forall d, In d (distances self) <-> In d (distance_map self)).
Proof.
  split; [lia|]. apply (distances_table (1 # 2) 5). lia.
Defined.

(** *** Nearest distances *)

Lemma nearest_spec r y p :
  let l := root_of_int r
           :: map (clipped r) (filter (fun o => hit y (shift_idx p o)) (cube_offsets r)) in
  In (nearest r y p) l /\ forall v, In v l -> nearest r y p <= v.
Proof. intros l. unfold nearest. apply list_min_spec. discriminate. Qed.

(** X4: the convolution with the kernel bank computes nearest distances:
    the minimum of the row of a source voxel [p] is below the radius and
    below the map distance of every offset at which a voxel of [y] sits,
    and it is the radius or the map distance of such an offset. *)
Theorem row_minimum_is_nearest (c : Q) (r : Z) (x y : tensor bool) :
  0 <= r ->
  let min_dist := map (list_min 0) (_pairwise_distances (DistanceMetric_init c r) x y false) in
  length min_dist = length (nonzero x) /\
  forall n p, nth_error (nonzero x) n = Some p ->
    let d := nth n min_dist 0 in
    d <= root_of_int r /\
    (forall o, in_cube r o -> hit y (shift_idx p o) = true -> d <= clipped r o) /\
    (d = root_of_int r \/
     exists o, in_cube r o /\ hit y (shift_idx p o) = true /\ d = clipped r o).
Proof.
  intros Hr min_dist. unfold min_dist. rewrite pairwise_distances_nearest by exact Hr.
  split; [apply length_map|].
  intros n p Hn. set (d := nth n (map (nearest r y) (nonzero x)) 0).
  assert (Hd : d = nearest r y p).
  { unfold d. apply nth_error_split in Hn. destruct Hn as (l1 & l2 & E & <-).
    rewrite E, map_app, app_nth2 by (rewrite length_map; lia).
    rewrite length_map, Nat.sub_diag. reflexivity. }
  rewrite Hd. destruct (nearest_spec r y p) as [Hin Hlow]. cbv zeta in Hin, Hlow.
  split; [apply Hlow; left; reflexivity|]. split.
  - intros o Ho Hh. apply Hlow. right. apply in_map, filter_In.
    split; [apply In_cube_offsets; exact Ho | exact Hh].
  - destruct Hin as [<- | Hin]; [left; reflexivity|]. right.
    apply in_map_iff in Hin. destruct Hin as (o & <- & Ho). apply filter_In in Ho.
    exists o. split; [apply In_cube_offsets; tauto|]. split; [tauto | reflexivity].
Qed.

Lemma row_minimum_is_nearest_witness :
  0 <= 5 /\
  let x := of_list3 false [[[true; false; false; false; true]]] in
  let y := of_list3 false [[[false; false; true; false; false]]] in
  let min_dist := map (list_min 0) (_pairwise_distances (DistanceMetric_init (1 # 2) 5) x y false) in
  length min_dist = length (nonzero x) /\
  forall n p, nth_error (nonzero x) n = Some p ->
    let d := nth n min_dist 0 in
    d <= root_of_int 5 /\
    (forall o, in_cube 5 o -> hit y (shift_idx p o) = true -> d <= clipped 5 o) /\
    (d = root_of_int 5 \/
     exists o, in_cube 5 o /\ hit y (shift_idx p o) = true /\ d = clipped 5 o).
Proof.
  split; [lia|]. intros x y. apply (row_minimum_is_nearest (1 # 2) 5 x y). lia.
Defined.

Lemma conv3d_channel_empty (y : tensor bool) r k p :
  (forall q, in_shape (shape y) q = true -> item y q = false) ->
  item (conv3d_channel (tmap Z.b2z y) r k) p = 0.
Proof.
  intros Hy. unfold conv3d_channel.
  destruct (shape k) as [[k0 k1] k2]. destruct (shape (tmap Z.b2z y)) as [[n0 n1] n2].
  destruct p as [[i j] l]. cbn [item].
  apply zsum_zero_iff.
  - intros v Hv. apply in_map_iff in Hv. destruct Hv as ([[a b] c0] & <- & _).
    rewrite pad_item_mask. unfold hit.
    destruct (in_shape (shape y) _) eqn:E; [rewrite Hy by exact E|]; cbn [andb Z.b2z]; lia.
  - intros v Hv. apply in_map_iff in Hv. destruct Hv as ([[a b] c0] & <- & _).
    rewrite pad_item_mask. unfold hit.
    destruct (in_shape (shape y) _) eqn:E; [rewrite Hy by exact E|]; cbn [andb Z.b2z]; lia.
Qed.

Lemma In_imap {A B} (f : nat -> A -> B) l b :
  In b (imap f l) -> exists n a, In a l /\ b = f n a.
Proof.
  unfold imap. intros Hb. apply in_map_iff in Hb. destruct Hb as ([n a] & <- & Hin).
  apply in_combine_r in Hin. exists n, a. auto.
Qed.

(** X5: when the target mask is empty, every entry returned by
    [_pairwise_distances] is the radius, with the full kernel bank as with
    the collapsed one. *)
Theorem empty_target_gives_radius (c : Q) (r : Z) (x y : tensor bool) (single_kernel : bool) :
  0 <= r ->
  (forall q, in_shape (shape y) q = true -> item y q = false) ->
  forall row e,
    In row (_pairwise_distances (DistanceMetric_init c r) x y single_kernel) ->
    In e row -> e = root_of_int r /\ root_val e = IZR r.
Proof.
  intros Hr Hy row e Hrow He.
  rewrite pairwise_distances_rows in Hrow. cbv zeta in Hrow.
  apply in_map_iff in Hrow. destruct Hrow as (p & <- & _).
  apply In_imap in He. destruct He as (n & k & _ & ->).
  rewrite conv3d_channel_empty by exact Hy. cbn [Z.eqb].
  rewrite init_d_max. split; [reflexivity | apply root_val_of_int; exact Hr].
Qed.

Lemma empty_target_gives_radius_witness :
  0 <= 3 /\
  let x := of_list3 false [[[true; true]]] in
  let y := of_list3 false [[[false; false]]] in
  (forall q, in_shape (shape y) q = true -> item y q = false) /\
  forall row e,
    In row (_pairwise_distances (DistanceMetric_init (1 # 2) 3) x y false) ->
    In e row -> e = root_of_int 3 /\ root_val e = IZR 3.
Proof.
  split; [lia|]. intros x y.
  assert (Hy : forall q, in_shape (shape y) q = true -> item y q = false).
  { intros [[a b] c0] Hq. change (shape y) with (1, 1, 2) in Hq.
    apply in_shape_iff in Hq.
    assert (a = 0) by lia. assert (b = 0) by lia. assert (c0 = 0 \/ c0 = 1) by lia.
    subst a b. destruct H1; subst c0; reflexivity. }
  split; [exact Hy|].
  apply (empty_target_gives_radius (1 # 2) 3 x y false); [lia | exact Hy].
Defined.

(** X6: [_pairwise_distances] returns one row per set voxel of the source
    mask [x]; a row has one entry per distance of the table, or a single
    entry with [single_kernel=True]. *)
Theorem pairwise_distances_dimensions (c : Q) (r : Z) (x y : tensor bool)
        (single_kernel : bool) :
  let self := DistanceMetric_init c r in
  let rows := _pairwise_distances self x y single_kernel in
  Z.of_nat (length rows) = count_true x /\
  forall row, In row rows ->
    length row = if single_kernel then 1%nat else length (distances self).
Proof.
  intros self rows. unfold rows. rewrite pairwise_distances_rows. cbv zeta. split.
  - rewrite length_map. symmetry. apply count_true_nonzero.
  - intros row Hrow. apply in_map_iff in Hrow. destruct Hrow as (p & <- & _).
    rewrite imap_length. destruct single_kernel; [reflexivity | apply kernels_length].
Qed.

(** *** [average_hausdorff_distance] *)

Lemma nonzero_nil x :
  (forall v, in_shape (shape x) v = true -> item x v = false) -> nonzero x = [].
Proof.
  intros Hx. unfold nonzero.
  assert (E : forall l, (forall v, In v l -> item x v = false) -> filter (item x) l = []).
  { induction l as [|v l IH]; intros Hl; [reflexivity|]. simpl.
    rewrite (Hl v (or_introl eq_refl)). apply IH. intros u Hu. apply Hl. right. exact Hu. }
  apply E. intros v Hv. apply Hx, In_indices, Hv.
Qed.

Lemma overlap_of_self (P : tensor bool) :
  nonzero (mask_assign P (tmap2 andb P P) false) = [].
Proof.
  apply nonzero_nil. intros v _. cbn [mask_assign tmap2 item].
  destruct (item P v); reflexivity.
Qed.

(** X7: a volume is at distance 0 from itself, whatever the volume and
    the metric: with identical prediction and target both source sets are
    empty and both directional terms are 0. *)
Theorem hausdorff_of_identical_volumes (self : DistanceMetric) (volume : tensor Q) :
  average_hausdorff_distance self volume volume = 0%R.
Proof.
  unfold average_hausdorff_distance. cbv zeta.
  rewrite !count_true_nonzero, overlap_of_self. cbn [length Z.of_nat Z.eqb negb]. lra.
Qed.









(** X9: [average_hausdorff_distance] is symmetric in its two volumes. *)
Theorem hausdorff_symmetric (c : Q) (r : Z) (prediction target : tensor Q) :
  0 <= r ->
  average_hausdorff_distance (DistanceMetric_init c r) prediction target
  = average_hausdorff_distance (DistanceMetric_init c r) target prediction.
Proof.
  intros Hr. rewrite !average_hausdorff_distance_eq by exact Hr. cbv zeta.
  apply Rplus_comm.
Qed.

Lemma hausdorff_symmetric_witness :
  0 <= 5 /\
  average_hausdorff_distance (DistanceMetric_init (1 # 2) 5)
    (of_list3 0%Q [[[1%Q; 1%Q; 0%Q]]]) (of_list3 0%Q [[[0%Q; 0%Q; 1%Q]]])
  = average_hausdorff_distance (DistanceMetric_init (1 # 2) 5)
      (of_list3 0%Q [[[0%Q; 0%Q; 1%Q]]]) (of_list3 0%Q [[[1%Q; 1%Q; 0%Q]]]).
Proof.
  split; [lia|]. apply (hausdorff_symmetric (1 # 2) 5). lia.
Defined.

(** *** [amount_of_far_points] *)




(** X11: no point of a volume is far from the volume itself. *)
Theorem far_points_of_identical_volumes (self : DistanceMetric) (volume : tensor Q) :
  amount_of_far_points self volume volume = 0.
Proof.
  unfold amount_of_far_points. cbv zeta.
  rewrite count_true_nonzero, overlap_of_self. reflexivity.
Qed.

(** *** Batches *)

Lemma fold_left_Rplus {A} (f : A -> R) l a :
  fold_left (fun res v => (res + f v)%R) l a = (a + fold_left (fun res v => (res + f v)%R) l 0)%R.
Proof.
  revert a. induction l as [|v l IH]; intros a; simpl; [lra|].
  rewrite (IH (a + f v)%R), (IH (0 + f v)%R). lra.
Qed.

Lemma combine_append {A B} (l1 l2 : list A) (t1 t2 : list B) :
  length l1 = length t1 -> combine (l1 ++ l2) (t1 ++ t2) = combine l1 t1 ++ combine l2 t2.
Proof.
  revert t1. induction l1 as [|a l1 IH]; intros [|b t1] Hlen; simpl in Hlen;
    try discriminate; [reflexivity|].
  simpl. f_equal. apply IH. lia.
Qed.

Lemma combine_longer {A B} (l1 extra : list A) (t1 : list B) :
  length l1 = length t1 -> combine (l1 ++ extra) t1 = combine l1 t1.
Proof.
  revert t1. induction l1 as [|a l1 IH]; intros [|b t1] Hlen; simpl in Hlen;
    try discriminate.
  - destruct extra; reflexivity.
  - simpl. f_equal. apply IH. lia.
Qed.

(** X12: the batch distance adds up over batches laid end to end, and
    samples of the longer batch beyond the length of the shorter one
    are ignored. *)
Theorem batch_hausdorff_additive (self : DistanceMetric)
        (p1 t1 p2 t2 extra : list (tensor Q)) :
  length p1 = length t1 ->
  batch_average_hausdorff_distance self (p1 ++ p2) (t1 ++ t2)
  = (batch_average_hausdorff_distance self p1 t1
     + batch_average_hausdorff_distance self p2 t2)%R /\
  batch_average_hausdorff_distance self (p1 ++ extra) t1
  = batch_average_hausdorff_distance self p1 t1.
Proof.
  intros Hlen. unfold batch_average_hausdorff_distance. split.
  - rewrite combine_append by exact Hlen. rewrite fold_left_app.
    apply (fold_left_Rplus (fun pt => average_hausdorff_distance self (fst pt) (snd pt))).
  - rewrite combine_longer by exact Hlen. reflexivity.
Qed.

Lemma batch_hausdorff_additive_witness :
  let a := of_list3 0%Q [[[1%Q; 0%Q]]] in
  let b := of_list3 0%Q [[[0%Q; 1%Q]]] in
  let self := DistanceMetric_init (1 # 2) 5 in
  length [a] = length [b] /\
  batch_average_hausdorff_distance self ([a] ++ [b]) ([b] ++ [a])
  = (batch_average_hausdorff_distance self [a] [b]
     + batch_average_hausdorff_distance self [b] [a])%R /\
  batch_average_hausdorff_distance self ([a] ++ [b; a]) [b]
  = batch_average_hausdorff_distance self [a] [b].
Proof.
  intros a b self. split; [reflexivity|].
  apply (batch_hausdorff_additive self [a] [b] [b] [a] [b; a]). reflexivity.
Defined.

(** *** [surface_distances] *)



(** X14: a mask that has an edge (a foreground voxel at distance exactly
    1 from the background) is at surface distance 0 from itself. *)
Theorem surface_distance_of_identical_masks {A} `{Scalar A} (x : tensor A) :
  let x_edge := tmap (fun d => d =? root_of_int 1)
                     (distance_transform_edt (tmap is_nonzero (to_numpy x))) in
  nonzero x_edge <> [] ->
  surface_distances x x = inr 0%R.
Proof.
  intros x_edge Hne. unfold surface_distances.
  rewrite idx_eqb_refl. cbn [negb]. cbv zeta. fold x_edge.
  change (ret ?v) with (@inr string R v). f_equal.
  assert (Hsel : forall l, (forall p, In p l -> item x_edge p = true) ->
            map root_val (map (item (distance_transform_edt (tmap negb x_edge))) l)
            = map (fun _ => 0%R) l).
  { intros l Hl. rewrite map_map. apply map_ext_in. intros p Hp.
    cbn [distance_transform_edt tmap item]. rewrite (Hl p Hp). cbn [negb].
    unfold root_val. apply sqrt_0. }
  assert (Hz : forall l : list idx, Rsum (map (fun _ => 0%R) l) = 0%R).
  { induction l as [|p l IH]; [reflexivity|].
    cbn [map Rsum fold_right]. unfold Rsum in IH. rewrite IH. lra. }
  unfold np_mean, select. rewrite Hsel.
  - rewrite Hz. unfold Rdiv. rewrite !Rmult_0_l. lra.
  - intros p Hp. unfold nonzero in Hp. apply filter_In in Hp. apply Hp.
Qed.

Lemma surface_distance_of_identical_masks_witness :
  let x := of_list3 0%Q [[[1%Q; 1%Q; 0%Q]]] in
  let x_edge := tmap (fun d => d =? root_of_int 1)
                     (distance_transform_edt (tmap is_nonzero (to_numpy x))) in
  nonzero x_edge <> [] /\
  surface_distances x x = inr 0%R.
Proof.
  intros x x_edge.
  assert (Hne : nonzero x_edge <> []) by (vm_compute; discriminate).
  split; [exact Hne|].
  exact (surface_distance_of_identical_masks x Hne).
Defined.

(** *** [corrupt_data]: the course and the requested axes *)

Ltac bind_with H :=
  match goal with
  | |- bind ?b _ = _ =>
      match type of H with
      | _ = ?r => replace b with r by (symmetry; exact H)
      end
  end.

(** What a completed call tells about the same call with other axes: the
    course is built before the axes are looked at. *)
Lemma corrupt_data_course (np_exp np_sin : Q -> Q) (np_pi : Q)
      (x0 : Z) (args : shape_args) (method : string) (mvt_axes : list Z)
      (center : string) (resolution : Z) (v : ndarray) :
  corrupt_data np_exp np_sin np_pi x0 args method mvt_axes center resolution = inr v ->
  0 <= resolution /\
  exists y,
    v = Array1 y /\
    Z.of_nat (length y) = resolution /\
    forall axes,
      corrupt_data np_exp np_sin np_pi x0 args method axes center resolution
      = (fp <- write_axes (repeat (repeat 0%Q (Z.to_nat resolution)) 6) axes (Some y) resolution ;;
         ret (Array1 y)).
Proof.
  unfold corrupt_data.
  destruct (np_zeros resolution) as [e | row] eqn:Hrow; [intros H; discriminate H|].
  pose proof Hrow as Hrow'. apply np_full_inr in Hrow'. destruct Hrow' as [Hres ->].
  match goal with
  | |- bind _ ?k = _ -> _ => change (bind (inr (repeat 0%Q (Z.to_nat resolution))) k)
                              with (k (repeat 0%Q (Z.to_nat resolution)))
  end.
  cbv beta zeta.
  match goal with
  | |- bind ?b _ = _ -> _ => destruct b as [e | yo] eqn:Hyo
  end; [intros H; discriminate H|].
  match goal with
  | |- bind _ ?k = _ -> _ => change (bind (inr yo) k) with (k yo)
  end.
  cbv beta.
  match goal with
  | |- bind ?b _ = _ -> _ => destruct b as [e | yo'] eqn:Hc
  end; [intros H; discriminate H|].
  intros H. rewrite bind_inr in H.
  apply bind_inr_inv in H. destruct H as (fp & Hfp & H).
  apply bind_inr_inv in H. destruct H as (yv & Hload & H).
  injection H as <-. destruct yo' as [y'|]; [|discriminate]. injection Hload as <-.
  pose proof (method_course_length np_exp np_sin np_pi x0 args method resolution) as HL.
  cbv beta zeta in HL. rewrite Hrow in HL.
  assert (Hlen : Z.of_nat (length y') = resolution).
  { destruct (center =? "zero")%string.
    - apply bind_inr_inv in Hc. destruct Hc as (y0 & Hl & Hc).
      destruct yo as [y|]; [|discriminate]. injection Hl as <-.
      apply bind_inr_inv in Hc. destruct Hc as (m & _ & Hc). injection Hc as <-.
      rewrite length_map.
      rewrite (HL y Hres Hyo). lia.
    - injection Hc as ->.
      rewrite (HL y' Hres Hyo). lia. }
  split; [exact Hres|]. exists y'. split; [reflexivity|]. split; [exact Hlen|].
  intros axes. rewrite bind_inr. cbv beta zeta. rewrite bind_inr. cbv beta.
  bind_with Hc. reflexivity.
Qed.

Lemma in_axis_range_dec (xx : Z) : {- 6 <= xx < 6} + {xx < - 6 \/ 6 <= xx}.
Proof.
  destruct (Z_le_dec (- 6) xx), (Z_lt_dec xx 6); [left; lia | right; lia ..].
Qed.

Lemma set_row_in_range fp xx y resolution :
  Z.of_nat (length y) = resolution ->
  - Z.of_nat (length fp) <= xx < Z.of_nat (length fp) ->
  set_row fp xx y resolution
  = inr (imap (fun i row => if Z.of_nat i =? (if xx <? 0 then xx + Z.of_nat (length fp) else xx)
                            then y else row) fp).
Proof.
  intros Hy Hx. unfold set_row.
  destruct (Z.leb_spec (- Z.of_nat (length fp)) xx); [|lia].
  destruct (Z.ltb_spec xx (Z.of_nat (length fp))); [|lia].
  cbn [andb negb]. rewrite Hy, Z.eqb_refl. reflexivity.
Qed.

Lemma set_row_out_of_range fp xx y resolution :
  xx < - Z.of_nat (length fp) \/ Z.of_nat (length fp) <= xx ->
  set_row fp xx y resolution = inl "IndexError"%string.
Proof.
  intros Hx. unfold set_row.
  destruct (Z.leb_spec (- Z.of_nat (length fp)) xx);
    destruct (Z.ltb_spec xx (Z.of_nat (length fp))); try lia; reflexivity.
Qed.

Lemma write_axes_outcome (y : list Q) (resolution : Z) (axes : list Z) :
  Z.of_nat (length y) = resolution ->
  forall fp, length fp = 6%nat ->
    (Forall (fun xx => - 6 <= xx < 6) axes ->
     exists fp', write_axes fp axes (Some y) resolution = inr fp') /\
    (Exists (fun xx => xx < - 6 \/ 6 <= xx) axes ->
     write_axes fp axes (Some y) resolution = inl "IndexError"%string).
Proof.
  intros Hy. induction axes as [|xx rest IH]; intros fp Hfp.
  - split; [intros _; exists fp; reflexivity | intros Hex; inversion Hex].
  - cbn [write_axes load]. rewrite ret_inr, bind_inr.
    destruct (in_axis_range_dec xx) as [Hin | Hout].
    + rewrite set_row_in_range by (rewrite ?Hfp; try exact Hy; simpl; lia).
      rewrite bind_inr.
      match goal with
      | |- context [write_axes ?fp1 rest _ _] => destruct (IH fp1) as [IH1 IH2]
      end.
      { rewrite imap_length. exact Hfp. }
      split.
      * intros Hall. inversion Hall; subst. apply IH1. assumption.
      * intros Hex. inversion Hex; subst; [lia|]. apply IH2. assumption.
    + rewrite set_row_out_of_range by (rewrite Hfp; simpl; lia).
      split; [|reflexivity].
      intros Hall. inversion Hall; subst. lia.
Qed.

(** X15: the value [corrupt_data] returns does not depend on the requested
    axes: if the call completes without any axis, then with axes that
    are all valid row indices of the six-row array (from -6 to 5) it
    returns the same course, and with any other axis among them it
    raises [IndexError]. *)
Theorem course_independent_of_axes (np_exp np_sin : Q -> Q) (np_pi : Q)
        (x0 : Z) (args : shape_args) (method : string) (mvt_axes : list Z)
        (center : string) (resolution : Z) (v : ndarray) :
  corrupt_data np_exp np_sin np_pi x0 args method [] center resolution = inr v ->
  (Forall (fun xx => - 6 <= xx < 6) mvt_axes ->
   corrupt_data np_exp np_sin np_pi x0 args method mvt_axes center resolution = inr v) /\
  (Exists (fun xx => xx < - 6 \/ 6 <= xx) mvt_axes ->
   corrupt_data np_exp np_sin np_pi x0 args method mvt_axes center resolution
   = inl "IndexError"%string).
Proof.
  intros H. apply corrupt_data_course in H. destruct H as (Hres & y & -> & Hlen & Hax).
  rewrite (Hax mvt_axes).
  destruct (write_axes_outcome y resolution mvt_axes Hlen
              (repeat (repeat 0%Q (Z.to_nat resolution)) 6) (repeat_length _ _)) as [H1 H2].
  split.
  - intros Hall. destruct (H1 Hall) as (fp' & ->). reflexivity.
  - intros Hex. rewrite (H2 Hex). reflexivity.
Qed.

Lemma course_independent_of_axes_witness :
  corrupt_data (fun q => q) (fun q => q) 3%Q 3 (ScalarArgs 4 2%Q) "Ustep" [] "zero" 8
  = inr (Array1 [(-2)%Q; 0%Q; 0%Q; 0%Q; 0%Q; (-2)%Q; (-2)%Q; (-2)%Q]) /\
  (Forall (fun xx => - 6 <= xx < 6) [1; -6; 7] ->
   corrupt_data (fun q => q) (fun q => q) 3%Q 3 (ScalarArgs 4 2%Q) "Ustep" [1; -6; 7] "zero" 8
   = inr (Array1 [(-2)%Q; 0%Q; 0%Q; 0%Q; 0%Q; (-2)%Q; (-2)%Q; (-2)%Q])) /\
  (Exists (fun xx => xx < - 6 \/ 6 <= xx) [1; -6; 7] ->
   corrupt_data (fun q => q) (fun q => q) 3%Q 3 (ScalarArgs 4 2%Q) "Ustep" [1; -6; 7] "zero" 8
   = inl "IndexError"%string).
Proof.
  assert (H : corrupt_data (fun q => q) (fun q => q) 3%Q 3 (ScalarArgs 4 2%Q) "Ustep" []
                           "zero" 8
              = inr (Array1 [(-2)%Q; 0%Q; 0%Q; 0%Q; 0%Q; (-2)%Q; (-2)%Q; (-2)%Q]))
    by (vm_compute; reflexivity).
  split; [exact H|].
  exact (course_independent_of_axes _ _ _ _ _ _ [1; -6; 7] _ _ _ H).
Defined.

(** *** [corrupt_data]: centring and the rectangular pulse *)

Lemma nth_map_in_range {A B} (f : A -> B) l i dA dB :
  (i < length l)%nat -> nth i (map f l) dB = f (nth i l dA).
Proof.
  intros Hi. rewrite (nth_indep _ dB (f dA)) by (rewrite length_map; exact Hi).
  apply map_nth.
Qed.




(** *** [get_random_2step] *)

(** X17: with [sym=True], whatever the five random draws are, a call to
    [get_random_2step] that returns gives a one-dimensional profile that
    reads the same in both directions and has [2 * (resolution // 2)]
    samples. *)
Theorem random_2step_palindrome (np_exp np_sin : Q -> Q) (np_pi : Q)
        (randint1 randint2 : Z) (rand1 rand2 : Q) (randint3 : Z)
        (resolution rampe : Z) (v : ndarray) :
  get_random_2step np_exp np_sin np_pi randint1 randint2 rand1 rand2 randint3
                   resolution rampe true = inr v ->
  exists so,
    v = Array1 so /\
    rev so = so /\
    Z.of_nat (length so) = 2 * (resolution / 2).
Proof.
  unfold get_random_2step. cbv zeta.
  destruct (corrupt_data np_exp np_sin np_pi randint3
                         (SeqArgs [rampe; randint1; randint2] [rand1; rand2])
                         "2step" [1] "None" resolution) as [e | so] eqn:Hso;
    [intros H; discriminate H|].
  rewrite bind_inr.
  apply corrupt_data_course in Hso. destruct Hso as (Hres & y & -> & Hlen & _).
  rewrite ret_inr. intros [= <-].
  eexists. split; [reflexivity|]. split.
  - rewrite rev_app_distr, rev_involutive. reflexivity.
  - rewrite length_app, length_rev, length_firstn, Hlen.
    assert (resolution / 2 <= resolution) by (apply Z.div_le_upper_bound; lia).
    assert (0 <= resolution / 2) by (apply Z.div_pos; lia).
    lia.
Qed.

Lemma random_2step_palindrome_witness :
  get_random_2step (fun q => q) (fun q => q) 3%Q 2 2 1%Q 2%Q 1 9 0 true
  = inr (Array1 [0%Q; 0%Q; 1%Q; 1%Q; 1%Q; 1%Q; 0%Q; 0%Q]) /\
  exists so,
    Array1 [0%Q; 0%Q; 1%Q; 1%Q; 1%Q; 1%Q; 0%Q; 0%Q] = Array1 so /\
    rev so = so /\
    Z.of_nat (length so) = 2 * (9 / 2).
Proof.
  assert (H : get_random_2step (fun q => q) (fun q => q) 3%Q 2 2 1%Q 2%Q 1 9 0 true
              = inr (Array1 [0%Q; 0%Q; 1%Q; 1%Q; 1%Q; 1%Q; 0%Q; 0%Q]))
    by (vm_compute; reflexivity).
  split; [exact H|].
  exact (random_2step_palindrome _ _ _ _ _ _ _ _ _ _ _ H).
Defined.

(** *** [corrupt_data]: the rectangular pulse *)

(** X18: [method='Ustep'] without centring gives a rectangular pulse: when
    the end [x0 + sigma // 2] of the pulse is not negative, sample [i] of
    the returned course is [amplitude] for
    [x0 - sigma // 2 <= i < x0 + sigma // 2] and 0 elsewhere. *)
Theorem ustep_rectangular_pulse (np_exp np_sin : Q -> Q) (np_pi : Q)
        (x0 sigma : Z) (amplitude : Q) (mvt_axes : list Z) (center : string)
        (resolution : Z) (y : list Q) (i : Z) :
  corrupt_data np_exp np_sin np_pi x0 (ScalarArgs sigma amplitude) "Ustep" mvt_axes center
               resolution = inr (Array1 y) ->
  center <> "zero"%string ->
  0 <= x0 + sigma / 2 ->
  0 <= i < resolution ->
  (nth (Z.to_nat i) y 0
   == if (x0 - sigma / 2 <=? i) && (i <? x0 + sigma / 2) then amplitude else 0)%Q.
Proof.
  intros Hrun Hc Hend Hi. revert Hrun.
  unfold corrupt_data. rewrite (proj2 (String.eqb_neq _ _) Hc).
  destruct (np_zeros resolution) as [e | row] eqn:Hrow; [intros H; discriminate H|].
  apply np_full_inr in Hrow. destruct Hrow as [Hres ->].
  rewrite bind_inr. cbv beta zeta.
  change (("Ustep" =? "gauss")%string) with false.
  change (("Ustep" =? "2step")%string) with false.
  change (("Ustep" =? "step")%string) with false.
  change (("Ustep" =? "Ustep")%string) with true.
  cbv iota. intros H.
  apply bind_inr_inv in H. destruct H as (yo & Hyo & H).
  change (@inr string _
               (Some (map (fun v => (v * amplitude)%Q)
                          (slice_assign (repeat 0%Q (Z.to_nat resolution))
                                        (Z.max 0 (x0 - sigma / 2)) (x0 + sigma / 2) 1%Q)))
          = inr yo) in Hyo.
  injection Hyo as <-.
  apply bind_inr_inv in H. destruct H as (yc & Hyc & H).
  rewrite ret_inr in Hyc. injection Hyc as <-.
  apply bind_inr_inv in H. destruct H as (fp & _ & H).
  change (@inr string _ (Array1 (map (fun v => (v * amplitude)%Q)
                          (slice_assign (repeat 0%Q (Z.to_nat resolution))
                                        (Z.max 0 (x0 - sigma / 2)) (x0 + sigma / 2) 1%Q)))
          = inr (Array1 y)) in H.
  injection H as <-.
  assert (Hlt : (Z.to_nat i < length (repeat 0%Q (Z.to_nat resolution)))%nat)
    by (rewrite repeat_length; lia).
  rewrite (nth_map_in_range _ _ _ 0%Q) by (unfold slice_assign; rewrite imap_length; exact Hlt).
  unfold slice_assign. rewrite (nth_imap _ _ _ 0%Q) by exact Hlt.
  rewrite repeat_length, !Z2Nat.id by lia.
  rewrite nth_repeat.
  assert (Hb : (norm_bound (Z.max 0 (x0 - sigma / 2)) resolution <=? i)
               && (i <? norm_bound (x0 + sigma / 2) resolution)
               = (x0 - sigma / 2 <=? i) && (i <? x0 + sigma / 2)).
  { unfold norm_bound.
    destruct (Z.ltb_spec (Z.max 0 (x0 - sigma / 2)) 0); [lia|].
    destruct (Z.ltb_spec (x0 + sigma / 2) 0); [lia|].
    destruct (Z.leb_spec (Z.min (Z.max 0 (x0 - sigma / 2)) resolution) i),
             (Z.leb_spec (x0 - sigma / 2) i),
             (Z.ltb_spec i (Z.min (x0 + sigma / 2) resolution)),
             (Z.ltb_spec i (x0 + sigma / 2)); cbn [andb]; try reflexivity; lia. }
  rewrite Hb.
  destruct ((x0 - sigma / 2 <=? i) && (i <? x0 + sigma / 2)); ring.
Qed.

Lemma ustep_rectangular_pulse_witness :
  corrupt_data (fun q => q) (fun q => q) 3%Q 3 (ScalarArgs 4 (5 # 2)%Q) "Ustep" [1] "None" 8
  = inr (Array1 [(0 # 2)%Q; (5 # 2)%Q; (5 # 2)%Q; (5 # 2)%Q; (5 # 2)%Q; (0 # 2)%Q; (0 # 2)%Q;
                 (0 # 2)%Q]) /\
  "None"%string <> "zero"%string /\
  0 <= 3 + 4 / 2 /\
  0 <= 4 < 8 /\
  (nth (Z.to_nat 4)
       [(0 # 2)%Q; (5 # 2)%Q; (5 # 2)%Q; (5 # 2)%Q; (5 # 2)%Q; (0 # 2)%Q; (0 # 2)%Q; (0 # 2)%Q] 0
   == if (3 - 4 / 2 <=? 4) && (4 <? 3 + 4 / 2) then (5 # 2) else 0)%Q.
Proof.
  assert (H : corrupt_data (fun q => q) (fun q => q) 3%Q 3 (ScalarArgs 4 (5 # 2)%Q) "Ustep" [1]
                           "None" 8
              = inr (Array1 [(0 # 2)%Q; (5 # 2)%Q; (5 # 2)%Q; (5 # 2)%Q; (5 # 2)%Q; (0 # 2)%Q;
                             (0 # 2)%Q; (0 # 2)%Q]))
    by (vm_compute; reflexivity).
  assert (Hc : "None"%string <> "zero"%string) by discriminate.
  assert (He : 0 <= 3 + 4 / 2) by (vm_compute; discriminate).
  assert (Hi : 0 <= 4 < 8) by lia.
  split; [exact H|]. split; [exact Hc|]. split; [exact He|]. split; [exact Hi|].
  exact (ustep_rectangular_pulse _ _ _ _ _ _ _ _ _ _ _ H Hc He Hi).
Defined.

(** *** [simu_motion]: when it returns and when it raises *)

Lemma roll_length {A} (l : list A) shift : length (roll l shift) = length l.
Proof.
  unfold roll. destruct (Z.of_nat (length l) =? 0); [reflexivity|].
  rewrite length_app, length_skipn, length_firstn. lia.
Qed.

Lemma fftshift_length {A} (l : list A) : length (fftshift l) = length l.
Proof. apply roll_length. Qed.

Lemma ifftshift_length {A} (l : list A) : length (ifftshift l) = length l.
Proof. apply roll_length. Qed.

Lemma fftn_inr x : x <> [] -> fftn x = inr (map (dft (-1) x) (seq 0 (length x))).
Proof. intros Hx. unfold fftn. destruct x; [contradiction | reflexivity]. Qed.

Lemma ifftn_inr x :
  x <> [] ->
  ifftn x = inr (map (fun k => Cscale (1 / INR (length x)) (dft 1 x k)) (seq 0 (length x))).
Proof. intros Hx. unfold ifftn. destruct x; [contradiction | reflexivity]. Qed.

Lemma nonempty_length {A} (l : list A) : (0 < length l)%nat -> l <> [].
Proof. destruct l; cbn; [lia | discriminate]. Qed.

Lemma py_div_inr a b : b <> 0 -> py_div a b = inr (inject_Z a / inject_Z b)%Q.
Proof. intros Hb. unfold py_div. destruct (Z.eqb_spec b 0); [contradiction | reflexivity]. Qed.

Lemma Cabs_nonneg z : (0 <= Cabs z)%R.
Proof. apply sqrt_pos. Qed.

Lemma broadcast_mismatch {A B D} (f : A -> B -> D) (a : list A) (b : list B) :
  (2 <= length a)%nat -> (2 <= length b)%nat -> length a <> length b ->
  broadcast f a b = inl "ValueError"%string.
Proof.
  intros Ha Hb Hab. unfold broadcast.
  destruct (Nat.eqb_spec (length a) (length b)); [contradiction|].
  destruct a as [|a0 [|a1 a]]; cbn in Ha; try lia.
  destruct b as [|b0 [|b1 b]]; cbn in Hb; try lia.
  reflexivity.
Qed.

(** The part of [simu_motion] before the product [fi * fp_kspace]. *)
Lemma simu_motion_prefix (fp so : list R) (return_abs : bool) :
  (2 <= length fp)%nat -> (0 < length so)%nat ->
  exists fi fp_kspace,
    length fi = length so /\ length fp_kspace = length fp /\
    simu_motion fp so return_abs
    = (fm <- broadcast Cmul fi fp_kspace ;;
       g <- ifftn fm ;;
       let som := ifftshift g in
       if return_abs then ret (RealArray (map Cabs som))
       else ret (ComplexArray som)).
Proof.
  intros Hfp Hso. unfold simu_motion.
  rewrite fftn_inr
    by (apply nonempty_length; rewrite ifftshift_length, length_map; exact Hso).
  rewrite bind_inr.
  rewrite !py_div_inr by lia. rewrite !bind_inr.
  rewrite broadcast_same
    by (rewrite length_map, kx_length by lia; apply Nat2Z.id).
  rewrite bind_inr.
  eexists _, _. split; [|split; [|reflexivity]].
  - rewrite fftshift_length, length_map, length_seq, ifftshift_length, length_map. reflexivity.
  - rewrite length_map, length_combine, length_map, kx_length by lia. lia.
Qed.

(** X19: for a displacement course and a signal of the same length, at
    least 2, [simu_motion] returns: with [return_abs=True] the result is a
    real array of that length without negative samples. *)
Theorem simu_motion_returns (fp so : list R) :
  length fp = length so ->
  (2 <= length so)%nat ->
  exists som,
    simu_motion fp so true = inr (RealArray som) /\
    length som = length so /\
    Forall (fun v => (0 <= v)%R) som.
Proof.
  intros Hlen HN.
  destruct (simu_motion_prefix fp so true) as (fi & fk & Hfi & Hfk & ->); [lia | lia |].
  rewrite broadcast_same by congruence. rewrite bind_inr.
  set (fm := map (fun ab : C * C => Cmul (fst ab) (snd ab)) (combine fi fk)).
  assert (Hfm : length fm = length so)
    by (unfold fm; rewrite length_map, length_combine; lia).
  rewrite ifftn_inr by (apply nonempty_length; lia).
  rewrite bind_inr. cbv zeta iota. rewrite ret_inr.
  eexists. split; [reflexivity|]. split.
  - rewrite length_map, ifftshift_length, length_map, length_seq. exact Hfm.
  - apply Forall_forall. intros v Hv. apply in_map_iff in Hv.
    destruct Hv as (z & <- & _). apply Cabs_nonneg.
Qed.

Lemma simu_motion_returns_witness :
  length [1; 2; 3]%R = length [4; 5; 6]%R /\
  (2 <= length [4; 5; 6]%R)%nat /\
  exists som,
    simu_motion [1; 2; 3]%R [4; 5; 6]%R true = inr (RealArray som) /\
    length som = length [4; 5; 6]%R /\
    Forall (fun v => (0 <= v)%R) som.
Proof.
  assert (H1 : length [1; 2; 3]%R = length [4; 5; 6]%R) by reflexivity.
  assert (H2 : (2 <= length [4; 5; 6]%R)%nat) by (cbn; lia).
  split; [exact H1|]. split; [exact H2|].
  exact (simu_motion_returns [1; 2; 3]%R [4; 5; 6]%R H1 H2).
Defined.

(** X20: [simu_motion] raises [ZeroDivisionError] for a displacement
    course with fewer than two samples and a non-empty signal. *)
Theorem simu_motion_short_course (fp so : list R) (return_abs : bool) :
  (0 < length so)%nat ->
  (length fp <= 1)%nat ->
  simu_motion fp so return_abs = inl "ZeroDivisionError"%string.
Proof.
  intros Hso Hfp. unfold simu_motion.
  rewrite fftn_inr
    by (apply nonempty_length; rewrite ifftshift_length, length_map; exact Hso).
  rewrite bind_inr.
  destruct fp as [|d [|d' fp]]; [reflexivity | reflexivity | cbn in Hfp; lia].
Qed.

Lemma simu_motion_short_course_witness :
  (0 < length [4; 5; 6]%R)%nat /\
  (length [1]%R <= 1)%nat /\
  simu_motion [1]%R [4; 5; 6]%R true = inl "ZeroDivisionError"%string.
Proof.
  assert (H1 : (0 < length [4; 5; 6]%R)%nat) by (cbn; lia).
  assert (H2 : (length [1]%R <= 1)%nat) by (cbn; lia).
  split; [exact H1|]. split; [exact H2|].
  exact (simu_motion_short_course [1]%R [4; 5; 6]%R true H1 H2).
Defined.

(** X21: [simu_motion] raises [ValueError] when the displacement course
    and the signal both have at least two samples but not the same
    number. *)
Theorem simu_motion_length_mismatch (fp so : list R) (return_abs : bool) :
  (2 <= length fp)%nat ->
  (2 <= length so)%nat ->
  length fp <> length so ->
  simu_motion fp so return_abs = inl "ValueError"%string.
Proof.
  intros Hfp H2 Hne.
  destruct (simu_motion_prefix fp so return_abs) as (fi & fk & Hfi & Hfk & ->); [lia | lia |].
  rewrite broadcast_mismatch by lia. reflexivity.
Qed.

Lemma simu_motion_length_mismatch_witness :
  (2 <= length [1; 2]%R)%nat /\
  (2 <= length [4; 5; 6]%R)%nat /\
  length [1; 2]%R <> length [4; 5; 6]%R /\
  simu_motion [1; 2]%R [4; 5; 6]%R false = inl "ValueError"%string.
Proof.
  assert (H1 : (2 <= length [1; 2]%R)%nat) by (cbn; lia).
  assert (H2 : (2 <= length [4; 5; 6]%R)%nat) by (cbn; lia).
  assert (H3 : length [1; 2]%R <> length [4; 5; 6]%R) by (cbn; lia).
  split; [exact H1|]. split; [exact H2|]. split; [exact H3|].
  exact (simu_motion_length_mismatch [1; 2]%R [4; 5; 6]%R false H1 H2 H3).
Defined.

(** *** [l1_shfit] *)

Lemma py_slice_from {A} (l : list A) (k : Z) :
  0 <= k <= Z.of_nat (length l) ->
  py_slice l (Some k) None = skipn (Z.to_nat k) l.
Proof.
  intros Hk. unfold py_slice, norm_bound.
  destruct (Z.ltb_spec k 0); [lia|]. rewrite Z.min_l by lia.
  apply firstn_all2. rewrite length_skipn. lia.
Qed.

Lemma py_slice_to {A} (l : list A) (k : Z) :
  0 <= k <= Z.of_nat (length l) ->
  py_slice l (Some 0) (Some k) = firstn (Z.to_nat k) l.
Proof.
  intros Hk. unfold py_slice, norm_bound. cbn [Z.ltb Z.compare].
  destruct (Z.ltb_spec k 0); [lia|]. rewrite Z.min_l by lia.
  rewrite Z.min_l by lia. cbn [Z.to_nat skipn]. rewrite Z.sub_0_r. reflexivity.
Qed.

Lemma py_slice_from_neg {A} (l : list A) (k : Z) :
  0 < k <= Z.of_nat (length l) ->
  py_slice l (Some (- k)) None = skipn (Z.to_nat (Z.of_nat (length l) - k)) l.
Proof.
  intros Hk. unfold py_slice, norm_bound.
  destruct (Z.ltb_spec (- k) 0); [|lia]. rewrite Z.max_r by lia.
  rewrite (Z.add_comm (- k)). change (Z.of_nat (length l) + - k) with (Z.of_nat (length l) - k).
  apply firstn_all2. rewrite length_skipn. lia.
Qed.

Lemma py_slice_to_neg {A} (l : list A) (k : Z) :
  0 < k <= Z.of_nat (length l) ->
  py_slice l (Some 0) (Some (- k)) = firstn (Z.to_nat (Z.of_nat (length l) - k)) l.
Proof.
  intros Hk. unfold py_slice, norm_bound. cbn [Z.ltb Z.compare].
  destruct (Z.ltb_spec (- k) 0); [|lia]. rewrite Z.max_r by lia.
  rewrite Z.min_l by lia. cbn [Z.to_nat skipn]. rewrite Z.sub_0_r.
  rewrite (Z.add_comm (- k)). reflexivity.
Qed.

Lemma py_slice_from_far {A} (l : list A) (k : Z) :
  Z.of_nat (length l) < k -> py_slice l (Some k) None = [].
Proof.
  intros Hk. unfold py_slice, norm_bound.
  destruct (Z.ltb_spec k 0); [lia|]. rewrite Z.min_r by lia.
  rewrite Z.sub_diag. reflexivity.
Qed.

Lemma py_slice_to_far {A} (l : list A) (k : Z) :
  Z.of_nat (length l) < k -> py_slice l (Some 0) (Some k) = l.
Proof.
  intros Hk. unfold py_slice, norm_bound. cbn [Z.ltb Z.compare].
  destruct (Z.ltb_spec k 0); [lia|]. rewrite Z.min_r by lia.
  rewrite Z.min_l by lia. cbn [Z.to_nat skipn]. rewrite Z.sub_0_r.
  apply firstn_all2. lia.
Qed.

Lemma py_slice_from_far_neg {A} (l : list A) (k : Z) :
  Z.of_nat (length l) < k -> py_slice l (Some (- k)) None = l.
Proof.
  intros Hk. unfold py_slice, norm_bound.
  destruct (Z.ltb_spec (- k) 0); [|lia]. rewrite Z.max_l by lia.
  cbn [Z.to_nat skipn]. rewrite Z.sub_0_r. apply firstn_all2. lia.
Qed.

Lemma py_slice_to_far_neg {A} (l : list A) (k : Z) :
  Z.of_nat (length l) < k -> py_slice l (Some 0) (Some (- k)) = [].
Proof.
  intros Hk. unfold py_slice, norm_bound. cbn [Z.ltb Z.compare].
  destruct (Z.ltb_spec (- k) 0); [|lia]. rewrite Z.max_l by lia.
  rewrite Z.min_l by lia. reflexivity.
Qed.

(** The shifted copy, by cases on the shift. *)
Lemma shifted_copy_cases (y1 : list Q) (shift : Z) :
  let n := Z.of_nat (length y1) in
  (0 <= shift <= n ->
   shifted_copy y1 shift
   = skipn (Z.to_nat (n - shift)) y1 ++ firstn (Z.to_nat (n - shift)) y1) /\
  (- n <= shift <= 0 ->
   shifted_copy y1 shift
   = skipn (Z.to_nat (- shift)) y1 ++ firstn (Z.to_nat (- shift)) y1) /\
  (n < shift \/ shift < - n -> shifted_copy y1 shift = y1).
Proof.
  intros n. unfold shifted_copy. repeat split.
  - intros H. destruct (Z.eq_dec shift 0) as [-> | Hne].
    + change (- 0) with 0. rewrite py_slice_from, py_slice_to by lia.
      rewrite Z.sub_0_r. unfold n. rewrite Nat2Z.id.
      rewrite skipn_all, firstn_all. cbn [Z.to_nat skipn firstn]. rewrite app_nil_r. reflexivity.
    + rewrite py_slice_from_neg, py_slice_to_neg by lia. reflexivity.
  - intros H. rewrite py_slice_from, py_slice_to by lia. reflexivity.
  - intros [H | H].
    + rewrite py_slice_from_far_neg, py_slice_to_far_neg by lia. apply app_nil_r.
    + rewrite py_slice_from_far, py_slice_to_far by lia. reflexivity.
Qed.

Lemma shifted_copy_length (y1 : list Q) (shift : Z) :
  length (shifted_copy y1 shift) = length y1.
Proof.
  destruct (shifted_copy_cases y1 shift) as (H1 & H2 & H3).
  destruct (Z_le_gt_dec 0 shift), (Z_le_gt_dec shift (Z.of_nat (length y1))),
           (Z_le_gt_dec (- Z.of_nat (length y1)) shift).
  all: try (rewrite H1 by lia; rewrite length_app, length_skipn, length_firstn; lia).
  all: try (rewrite H2 by lia; rewrite length_app, length_skipn, length_firstn; lia).
  all: rewrite H3 by lia; reflexivity.
Qed.

Lemma nth_rotation {A} (l : list A) (k i : nat) (d : A) :
  (k <= length l)%nat -> (i < length l)%nat ->
  nth i (skipn k l ++ firstn k l) d
  = nth (Z.to_nat ((Z.of_nat i + Z.of_nat k) mod Z.of_nat (length l))) l d.
Proof.
  intros Hk Hi.
  destruct (Nat.lt_ge_cases i (length l - k)) as [Hlt | Hge].
  - rewrite app_nth1 by (rewrite length_skipn; exact Hlt).
    rewrite nth_skipn. rewrite Z.mod_small by lia.
    f_equal. lia.
  - rewrite app_nth2 by (rewrite length_skipn; exact Hge).
    rewrite length_skipn, nth_firstn.
    destruct (Nat.ltb_spec (i - (length l - k)) k); [|lia].
    replace ((Z.of_nat i + Z.of_nat k) mod Z.of_nat (length l))
      with (Z.of_nat i + Z.of_nat k - Z.of_nat (length l)).
    + f_equal. lia.
    + apply Z.mod_unique with (q := 1); lia.
Qed.

(** X22: for a shift between [-n] and [n], [n] the length of [y1], the
    candidate that [l1_shfit] compares with [y2] is [y1] moved circularly
    by [shift] samples: its sample [i] is sample [(i - shift) mod n] of
    [y1]; for a shift beyond that range the candidate is [y1] itself. *)
Theorem shifted_copy_is_circular (y1 : list Q) (shift : Z) (i : nat) :
  (i < length y1)%nat ->
  let n := Z.of_nat (length y1) in
  (- n <= shift <= n ->
   nth i (shifted_copy y1 shift) 0%Q = nth (Z.to_nat ((Z.of_nat i - shift) mod n)) y1 0%Q) /\
  (n < shift \/ shift < - n -> shifted_copy y1 shift = y1).
Proof.
  intros Hi n. destruct (shifted_copy_cases y1 shift) as (H1 & H2 & H3). fold n in H1, H2, H3.
  split; [|exact H3].
  intros Hs. destruct (Z_le_gt_dec 0 shift).
  - rewrite H1 by lia. rewrite nth_rotation by lia. f_equal. f_equal.
    rewrite Z2Nat.id by lia. fold n.
    replace (Z.of_nat i + (n - shift)) with (Z.of_nat i - shift + 1 * n) by ring.
    apply Z.mod_add; lia.
  - rewrite H2 by lia. rewrite nth_rotation by lia. f_equal. f_equal.
    rewrite Z2Nat.id by lia. fold n. reflexivity.
Qed.

Lemma shifted_copy_is_circular_witness :
  (1 < length [1; 2; 3; 4; 5]%Q)%nat /\
  (- 5 <= 2 <= 5 ->
   nth 1 (shifted_copy [1; 2; 3; 4; 5]%Q 2) 0%Q
   = nth (Z.to_nat ((Z.of_nat 1 - 2) mod 5)) [1; 2; 3; 4; 5]%Q 0%Q) /\
  (5 < 2 \/ 2 < - 5 -> shifted_copy [1; 2; 3; 4; 5]%Q 2 = [1; 2; 3; 4; 5]%Q).
Proof.
  assert (H : (1 < length [1; 2; 3; 4; 5]%Q)%nat) by (cbn; lia).
  split; [exact H|].
  exact (shifted_copy_is_circular [1; 2; 3; 4; 5]%Q 2 1 H).
Defined.

Lemma l1_loop_inr (y1 y2 : list Q) (shifts : list Z) :
  length y1 = length y2 ->
  l1_loop y1 y2 shifts = inr (map (fun shift => l1_distance (shifted_copy y1 shift) y2) shifts).
Proof.
  intros Hlen. induction shifts as [|shift rest IH]; [reflexivity|].
  cbn [l1_loop map]. cbv zeta.
  rewrite broadcast_same by (rewrite shifted_copy_length; exact Hlen).
  rewrite bind_inr, IH, bind_inr. reflexivity.
Qed.

Lemma np_argmin_from_spec (l pre : list Q) (best : nat) (least : Q) :
  (best < length pre)%nat ->
  nth best pre 0%Q = least ->
  Forall (fun v => (least <= v)%Q) pre ->
  let j := np_argmin_from best least (length pre) l in
  (j < length (pre ++ l))%nat /\
  Forall (fun v => (nth j (pre ++ l) 0 <= v)%Q) (pre ++ l).
Proof.
  revert pre best least. induction l as [|v rest IH]; intros pre best least Hb Hn Hall.
  - cbn [np_argmin_from]. rewrite app_nil_r, Hn. split; assumption.
  - cbn [np_argmin_from].
    replace (pre ++ v :: rest) with ((pre ++ [v]) ++ rest) by (rewrite <- app_assoc; reflexivity).
    replace (S (length pre)) with (length (pre ++ [v])) by (rewrite length_app; cbn; lia).
    destruct (Qle_bool least v) eqn:Hle.
    + apply Qle_bool_iff in Hle. apply IH.
      * rewrite length_app. cbn. lia.
      * rewrite app_nth1 by exact Hb. exact Hn.
      * apply Forall_app. split; [exact Hall|]. constructor; [exact Hle | constructor].
    + assert (Hlt : (v < least)%Q).
      { apply Qnot_le_lt. intros Hc. apply Qle_bool_iff in Hc. congruence. }
      apply IH.
      * rewrite length_app. cbn. lia.
      * rewrite app_nth2, Nat.sub_diag by lia. reflexivity.
      * apply Forall_app. split.
        -- eapply Forall_impl; [|exact Hall]. cbn beta. intros a Ha.
           apply Qlt_le_weak. eapply Qlt_le_trans; eassumption.
        -- constructor; [apply Qle_refl | constructor].
Qed.

Lemma np_argmin_spec (l : list Q) :
  l <> [] ->
  exists j, np_argmin l = inr j /\ (j < length l)%nat /\
            Forall (fun v => (nth j l 0 <= v)%Q) l.
Proof.
  intros Hl. destruct l as [|v rest]; [contradiction|].
  eexists. split; [reflexivity|].
  apply (np_argmin_from_spec rest [v] 0 v).
  - cbn. lia.
  - reflexivity.
  - constructor; [apply Qle_refl | constructor].
Qed.

Lemma py_getitem_in_range {A} (d : A) (l : list A) (j : nat) :
  (j < length l)%nat -> py_getitem d l (Z.of_nat j) = inr (nth j l d).
Proof.
  intros Hj. unfold py_getitem.
  destruct (Z.leb_spec 0 (Z.of_nat j)); [|lia].
  destruct (Z.ltb_spec (Z.of_nat j) (Z.of_nat (length l))); [|lia].
  cbn [andb]. rewrite Nat2Z.id. reflexivity.
Qed.



Lemma np_sum_nonneg (l : list Q) : Forall (fun v => (0 <= v)%Q) l -> (0 <= np_sum l)%Q.
Proof.
  induction 1 as [|v l Hv Hl IH]; cbn [np_sum fold_right]; [apply Qle_refl|].
  change (fold_right Qplus 0%Q l) with (np_sum l).
  pose proof (Qplus_le_compat _ _ _ _ Hv IH) as H. rewrite Qplus_0_l in H. exact H.
Qed.

Lemma l1_distance_cons a b y y2 :
  l1_distance (a :: y) (b :: y2) = (Qabs (a - b) + l1_distance y y2)%Q.
Proof. reflexivity. Qed.

Lemma l1_distance_nonneg y y2 : (0 <= l1_distance y y2)%Q.
Proof.
  unfold l1_distance. apply np_sum_nonneg. apply Forall_forall. intros v Hv.
  apply in_map_iff in Hv. destruct Hv as (x & <- & _). apply Qabs_nonneg.
Qed.

Lemma l1_distance_of_equal y y2 : Forall2 Qeq y y2 -> (l1_distance y y2 == 0)%Q.
Proof.
  induction 1 as [|a b y y2 Hab H IH]; [reflexivity|].
  rewrite l1_distance_cons, IH, Hab.
  setoid_replace (b - b)%Q with 0%Q by ring. reflexivity.
Qed.

Lemma l1_distance_zero y y2 :
  length y = length y2 -> (l1_distance y y2 <= 0)%Q -> Forall2 Qeq y y2.
Proof.
  revert y2. induction y as [|a y IH]; intros [|b y2] Hlen H; try discriminate; [constructor|].
  rewrite l1_distance_cons in H.
  pose proof (Qabs_nonneg (a - b)) as Ha. pose proof (l1_distance_nonneg y y2) as Hy.
  constructor.
  - assert (Hz : (Qabs (a - b) <= 0)%Q) by Lqa.lra.
    apply Qabs_Qle_condition in Hz. destruct Hz as [Hlo Hhi]. Lqa.lra.
  - apply IH; [cbn in Hlen; lia | Lqa.lra].
Qed.

(** X24: when one of the shifts turns [y1] into [y2] exactly, [l1_shfit]
    returns a shift that does so too. *)
Theorem l1_shfit_recovers_shift (y1 y2 : list Q) (shifts : list Z) (d : Z) :
  In d shifts ->
  Forall2 Qeq (shifted_copy y1 d) y2 ->
  exists disp,
    l1_shfit y1 y2 shifts = inr disp /\
    In disp shifts /\
    Forall2 Qeq (shifted_copy y1 disp) y2.
Proof.
  intros Hd Heq.
  assert (Hlen : length y1 = length y2).
  { rewrite <- (shifted_copy_length y1 d). eapply Forall2_length; exact Heq. }
  unfold l1_shfit. rewrite l1_loop_inr by exact Hlen. rewrite bind_inr.
  set (cost := fun shift => l1_distance (shifted_copy y1 shift) y2).
  destruct (np_argmin_spec (map cost shifts)) as (j & -> & Hj & Hmin).
  { destruct shifts; [contradiction | discriminate]. }
  rewrite bind_inr. rewrite length_map in Hj.
  rewrite py_getitem_in_range by exact Hj.
  eexists. split; [reflexivity|]. split; [apply nth_In; exact Hj|].
  rewrite (nth_indep _ 0%Q (cost 0)) in Hmin by (rewrite length_map; exact Hj).
  rewrite map_nth in Hmin. rewrite Forall_forall in Hmin.
  apply l1_distance_zero; [rewrite shifted_copy_length; exact Hlen|].
  fold (cost (nth j shifts 0)).
  rewrite <- (l1_distance_of_equal _ _ Heq).
  apply (Hmin (cost d)). apply in_map. exact Hd.
Qed.

Lemma l1_shfit_recovers_shift_witness :
  In 2 [-1; 0; 2; 3] /\
  Forall2 Qeq (shifted_copy [0; 1; 2; 0; 0]%Q 2) [0; 0; 0; 1; (4 # 2)]%Q /\
  exists disp,
    l1_shfit [0; 1; 2; 0; 0]%Q [0; 0; 0; 1; (4 # 2)]%Q [-1; 0; 2; 3] = inr disp /\
    In disp [-1; 0; 2; 3] /\
    Forall2 Qeq (shifted_copy [0; 1; 2; 0; 0]%Q disp) [0; 0; 0; 1; (4 # 2)]%Q.
Proof.
  assert (H1 : In 2 [-1; 0; 2; 3]) by (cbn; auto).
  assert (H2 : Forall2 Qeq (shifted_copy [0; 1; 2; 0; 0]%Q 2) [0; 0; 0; 1; (4 # 2)]%Q)
    by (repeat constructor).
  split; [exact H1|]. split; [exact H2|].
  exact (l1_shfit_recovers_shift [0; 1; 2; 0; 0]%Q [0; 0; 0; 1; (4 # 2)]%Q [-1; 0; 2; 3] 2 H1 H2).
Defined.

(** *** [_translate_freq_domain] *)

Lemma expand_length {A} (d : A) b n :
  length b = n \/ length b = 1%nat -> length (expand d b n) = n.
Proof.
  intros H. unfold expand. destruct (Nat.eqb_spec (length b) n); [assumption|].
  apply repeat_length.
Qed.

Lemma map_combine_repeat {A B D} (f : A -> B -> D) (a : list A) (b0 : B) :
  map (fun ab => f (fst ab) (snd ab)) (combine a (repeat b0 (length a)))
  = map (fun e => f e b0) a.
Proof. induction a as [|x a IH]; [reflexivity|]. cbn. rewrite IH. reflexivity. Qed.

Lemma broadcast_expand {A B D} (f : A -> B -> D) (a : list A) (b : list B) (d : B) :
  length b = length a \/ length b = 1%nat ->
  broadcast f a b
  = inr (map (fun ab => f (fst ab) (snd ab)) (combine a (expand d b (length a)))).
Proof.
  intros H. unfold broadcast, expand.
  rewrite (Nat.eqb_sym (length b)).
  destruct (Nat.eqb_spec (length a) (length b)) as [E | E]; [reflexivity|].
  destruct H as [H | H]; [congruence|].
  destruct b as [|b0 [|b1 b]]; try discriminate.
  cbn [hd]. rewrite map_combine_repeat.
  destruct a as [|a0 [|a1 a]]; [reflexivity | cbn in E; congruence | reflexivity].
Qed.

Lemma translate_freq_domain_inr (n : nat) :
  exists grid,
    length grid = n /\
    forall (freq_domain : list C) (translations : list R) (inv_transfo : bool),
      length freq_domain = n ->
      length translations = n \/ length translations = 1%nat ->
      _translate_freq_domain freq_domain translations inv_transfo
      = inr (map phase_mul
                 (combine (combine grid
                                   (expand 0%R (if inv_transfo then map Ropp translations
                                                else translations) n))
                          freq_domain)).
Proof.
  destruct (np_linspace (- (1 # 2)) (1 # 2) (Z.of_nat n)) as [e | lin] eqn:Hlin.
  { unfold np_linspace in Hlin. destruct (Z.ltb_spec (Z.of_nat n) 0); [lia | discriminate]. }
  pose proof (np_linspace_inr _ _ _ _ Hlin) as [_ Hlen]. rewrite Nat2Z.id in Hlen.
  exists (map Q2R lin). split; [rewrite length_map; exact Hlen|].
  intros f t inv Hf Ht. unfold _translate_freq_domain. rewrite Hf, Hlin, bind_inr. cbv zeta.
  set (t' := if inv then map Ropp t else t).
  assert (Ht' : length t' = n \/ length t' = 1%nat)
    by (unfold t'; destruct inv; [rewrite length_map|]; exact Ht).
  rewrite (broadcast_expand _ _ _ 0%R) by (rewrite length_map, Hlen; exact Ht').
  rewrite bind_inr, length_map, Hlen.
  assert (HT : length (expand 0%R t' n) = n) by (apply expand_length; exact Ht').
  rewrite broadcast_same
    by (rewrite !length_map, length_combine, length_map, Hlen, HT, Hf; lia).
  rewrite bind_inr, length_map, length_combine, !length_map, length_combine, length_map.
  rewrite Hlen, HT, Hf, !Nat.min_id, Nat.eqb_refl.
  rewrite ret_inr. f_equal.
  generalize (expand 0%R t' n) (map Q2R lin). clear.
  intros T. revert f. induction T as [|x T IH]; intros f grid.
  - destruct grid; reflexivity.
  - destruct grid as [|g grid]; [reflexivity|]. destruct f as [|z f]; [reflexivity|].
    cbn [combine map fst snd]. rewrite IH. reflexivity.
Qed.

Lemma expand_opp (t : list R) (n : nat) :
  expand 0%R (map Ropp t) n = map Ropp (expand 0%R t n).
Proof.
  unfold expand. rewrite length_map. destruct (Nat.eqb (length t) n); [reflexivity|].
  rewrite map_repeat. f_equal. destruct t; cbn [map hd]; [symmetry; apply Ropp_0 | reflexivity].
Qed.

Lemma phase_mul_undo g t z : phase_mul (g, (- t)%R, phase_mul (g, t, z)) = z.
Proof.
  unfold phase_mul. cbn [fst snd]. rewrite <- Cmul_assoc, <- Cexp_i_add.
  replace (-2 * PI * (g * - t) + -2 * PI * (g * t))%R with 0%R by ring.
  rewrite Cexp_i_0, Cmul_comm. apply Cmul_1_r.
Qed.

Lemma phase_mul_round_trip (grid T : list R) (f : list C) :
  length grid = length f -> length T = length f ->
  map phase_mul (combine (combine grid (map Ropp T))
                         (map phase_mul (combine (combine grid T) f))) = f.
Proof.
  revert grid T. induction f as [|z f IH]; intros [|g grid] [|t T] Hg HT;
    try discriminate; [reflexivity|].
  cbn [combine map]. rewrite phase_mul_undo. f_equal.
  apply IH; [cbn in Hg | cbn in HT]; lia.
Qed.

Lemma phase_mul_magnitude (grid T : list R) (f : list C) :
  length grid = length f -> length T = length f ->
  map Cabs (map phase_mul (combine (combine grid T) f)) = map Cabs f.
Proof.
  revert grid T. induction f as [|z f IH]; intros [|g grid] [|t T] Hg HT;
    try discriminate; [reflexivity|].
  cbn [combine map]. f_equal.
  - unfold phase_mul. cbn [fst snd]. rewrite Cabs_mul, Cabs_Cexp_i. ring.
  - apply IH; [cbn in Hg | cbn in HT]; lia.
Qed.

(** X25: translating a 1-D spectrum and then translating the result with
    [inv_transfo=True] and the same translations gives the spectrum back;
    the translations have one entry per sample, or a single entry. *)
Theorem translate_freq_domain_round_trip (freq_domain : list C) (translations : list R) :
  length translations = length freq_domain \/ length translations = 1%nat ->
  exists translated,
    _translate_freq_domain freq_domain translations false = inr translated /\
    _translate_freq_domain translated translations true = inr freq_domain.
Proof.
  intros Ht.
  destruct (translate_freq_domain_inr (length freq_domain)) as (grid & Hg & Hrun).
  pose proof (expand_length 0%R translations (length freq_domain) Ht) as HT.
  eexists. split; [apply Hrun; [reflexivity | exact Ht]|].
  rewrite Hrun.
  - rewrite expand_opp, phase_mul_round_trip by assumption. reflexivity.
  - rewrite length_map, !length_combine. lia.
  - exact Ht.
Qed.

Lemma translate_freq_domain_round_trip_witness :
  (length [2]%R = length [(1, 0); (0, 1); (3, 4)]%R \/ length [2]%R = 1%nat) /\
  exists translated,
    _translate_freq_domain [(1, 0); (0, 1); (3, 4)]%R [2]%R false = inr translated /\
    _translate_freq_domain translated [2]%R true = inr [(1, 0); (0, 1); (3, 4)]%R.
Proof.
  assert (H : length [2]%R = length [(1, 0); (0, 1); (3, 4)]%R \/ length [2]%R = 1%nat)
    by (right; reflexivity).
  split; [exact H|].
  exact (translate_freq_domain_round_trip [(1, 0); (0, 1); (3, 4)]%R [2]%R H).
Defined.

(** X26: [_translate_freq_domain] changes phases only: every sample of
    the result has the magnitude of the corresponding sample of the
    input. *)
Theorem translate_freq_domain_keeps_magnitude (freq_domain : list C) (translations : list R)
        (inv_transfo : bool) :
  length translations = length freq_domain \/ length translations = 1%nat ->
  exists translated,
    _translate_freq_domain freq_domain translations inv_transfo = inr translated /\
    map Cabs translated = map Cabs freq_domain.
Proof.
  intros Ht.
  destruct (translate_freq_domain_inr (length freq_domain)) as (grid & Hg & Hrun).
  eexists. split; [apply Hrun; [reflexivity | exact Ht]|].
  apply phase_mul_magnitude; [exact Hg|].
  apply expand_length. destruct inv_transfo; [rewrite length_map|]; exact Ht.
Qed.

Lemma translate_freq_domain_keeps_magnitude_witness :
  (length [2; 5]%R = length [(1, 0); (3, 4)]%R \/ length [2; 5]%R = 1%nat) /\
  exists translated,
    _translate_freq_domain [(1, 0); (3, 4)]%R [2; 5]%R true = inr translated /\
    map Cabs translated = map Cabs [(1, 0); (3, 4)]%R.
Proof.
  assert (H : length [2; 5]%R = length [(1, 0); (3, 4)]%R \/ length [2; 5]%R = 1%nat)
    by (left; reflexivity).
  split; [exact H|].
  exact (translate_freq_domain_keeps_magnitude [(1, 0); (3, 4)]%R [2; 5]%R true H).
Defined.

(** *** [simu_motion]: the energy of the signal *)

Lemma Rsum_app (a b : list R) : Rsum (a ++ b) = (Rsum a + Rsum b)%R.
Proof.
  unfold Rsum. induction a as [|x a IH]; cbn [app fold_right]; [lra|].
  rewrite IH. lra.
Qed.

Lemma Cenergy_app (a b : list C) : Cenergy (a ++ b) = (Cenergy a + Cenergy b)%R.
Proof. unfold Cenergy. rewrite map_app. apply Rsum_app. Qed.

Lemma Cenergy_roll (l : list C) shift : Cenergy (roll l shift) = Cenergy l.
Proof.
  unfold roll. destruct (Z.of_nat (length l) =? 0); [reflexivity|].
  set (k := Z.to_nat (- shift mod Z.of_nat (length l))).
  rewrite Cenergy_app, Rplus_comm, <- Cenergy_app, firstn_skipn. reflexivity.
Qed.

Lemma Cnorm2_nonneg z : (0 <= Cnorm2 z)%R.
Proof. unfold Cnorm2. nra. Qed.

Lemma energy_Cabs (l : list C) : energy (map Cabs l) = Cenergy l.
Proof.
  unfold energy, Cenergy. rewrite map_map. f_equal. apply map_ext. intros z.
  unfold Cabs. apply sqrt_sqrt. apply Cnorm2_nonneg.
Qed.

Lemma Cenergy_RtoC (l : list R) : Cenergy (map RtoC l) = energy l.
Proof.
  unfold energy, Cenergy. rewrite map_map. f_equal. apply map_ext. intros v.
  unfold Cnorm2, RtoC. cbn [fst snd]. ring.
Qed.

Lemma Cnorm2_phase z t : Cnorm2 (Cmul z (Cexp_i t)) = Cnorm2 z.
Proof.
  unfold Cnorm2, Cmul, Cexp_i. cbn [fst snd].
  pose proof (sin2_cos2 t) as H. unfold Rsqr in H.
  replace ((fst z * cos t - snd z * sin t) * (fst z * cos t - snd z * sin t)
           + (fst z * sin t + snd z * cos t) * (fst z * sin t + snd z * cos t))%R
    with ((fst z * fst z + snd z * snd z) * (sin t * sin t + cos t * cos t))%R by ring.
  rewrite H. ring.
Qed.

Lemma Cenergy_phases (fi : list C) (T : list R) :
  length T = length fi ->
  Cenergy (map (fun ab : C * C => Cmul (fst ab) (snd ab)) (combine fi (map Cexp_i T)))
  = Cenergy fi.
Proof.
  revert T. induction fi as [|z fi IH]; intros [|t T] H; try discriminate; [reflexivity|].
  cbn [map combine fst snd]. unfold Cenergy in *. cbn [map Rsum fold_right].
  fold (Rsum (map Cnorm2 fi)).
  fold (Rsum (map Cnorm2 (map (fun ab : C * C => Cmul (fst ab) (snd ab))
                              (combine fi (map Cexp_i T))))).
  rewrite IH by (cbn in H; lia). rewrite Cnorm2_phase. reflexivity.
Qed.

Lemma Rsum_n_ext f g n :
  (forall m, (m < n)%nat -> f m = g m) -> Rsum_n f n = Rsum_n g n.
Proof.
  induction n as [|n IH]; intros H; cbn [Rsum_n]; [reflexivity|].
  rewrite IH, H by auto with arith. reflexivity.
Qed.

Lemma Rsum_n_scale c f n : Rsum_n (fun m => (c * f m)%R) n = (c * Rsum_n f n)%R.
Proof. induction n as [|n IH]; cbn [Rsum_n]; [ring|]. rewrite IH. ring. Qed.

Lemma Cenergy_seq (f : nat -> C) (n : nat) :
  Cenergy (map f (seq 0 n)) = Rsum_n (fun k => Cnorm2 (f k)) n.
Proof.
  induction n as [|n IH]; [reflexivity|].
  rewrite seq_S, map_app, Cenergy_app, IH. cbn [Nat.add map].
  unfold Cenergy at 1. cbn [map Rsum fold_right Rsum_n]. ring.
Qed.

Lemma Cenergy_indexed (l : list C) :
  Cenergy l = Rsum_n (fun m => Cnorm2 (nth m l C0)) (length l).
Proof.
  induction l as [|a l IH] using rev_ind; [reflexivity|].
  rewrite Cenergy_app, length_app, Nat.add_comm. cbn [length Nat.add Rsum_n].
  rewrite app_nth2, Nat.sub_diag by lia. cbn [nth].
  rewrite (Rsum_n_ext _ (fun m => Cnorm2 (nth m l C0)))
    by (intros m Hm; rewrite app_nth1 by exact Hm; reflexivity).
  rewrite <- IH. unfold Cenergy at 2. cbn [map Rsum fold_right]. ring.
Qed.

Lemma RtoC_Rsum_n f n : RtoC (Rsum_n f n) = Csum_n (fun k => RtoC (f k)) n.
Proof.
  induction n as [|n IH]; [reflexivity|]. cbn [Rsum_n Csum_n]. rewrite <- IH. cring.
Qed.

Lemma Cmul_conj z : Cmul z (Cconj z) = RtoC (Cnorm2 z).
Proof. unfold Cconj, Cnorm2. cring. Qed.

Lemma Cconj_sum f n : Cconj (Csum_n f n) = Csum_n (fun m => Cconj (f m)) n.
Proof.
  induction n as [|n IH]; [cbn [Csum_n]; unfold Cconj; cring|].
  cbn [Csum_n]. rewrite <- IH. unfold Cconj. cring.
Qed.

Lemma Cconj_mul a b : Cconj (Cmul a b) = Cmul (Cconj a) (Cconj b).
Proof. unfold Cconj. cring. Qed.

Lemma Cconj_exp t : Cconj (Cexp_i t) = Cexp_i (- t).
Proof. unfold Cconj, Cexp_i. cbn [fst snd]. rewrite cos_neg, sin_neg. reflexivity. Qed.

(** Orthogonality, for the exponent of either transform. *)
Lemma roots_sum_signed (s : R) (m m' N : nat) :
  s = 1%R \/ s = (-1)%R ->
  (m < N)%nat -> (m' < N)%nat ->
  Csum_n (fun k => Cexp_i (s * (2 * PI * INR k * INR m / INR N)
                           + - (s * (2 * PI * INR k * INR m' / INR N)))) N
  = if Nat.eqb m m' then RtoC (INR N) else C0.
Proof.
  intros Hs Hm Hm'.
  assert (HN : (0 < INR N)%R) by (apply lt_0_INR; lia).
  destruct Hs as [-> | ->].
  - rewrite <- (roots_sum m m' N Hm Hm'). apply Csum_n_ext. intros k _.
    f_equal. field. lra.
  - rewrite Nat.eqb_sym, <- (roots_sum m' m N Hm' Hm). apply Csum_n_ext. intros k _.
    f_equal. field. lra.
Qed.

(** Parseval's identity for the sums of [fftn] and [ifftn]. *)
Lemma dft_energy (s : R) (x : list C) :
  s = 1%R \/ s = (-1)%R ->
  Rsum_n (fun k => Cnorm2 (dft s x k)) (length x) = (INR (length x) * Cenergy x)%R.
Proof.
  intros Hs. set (N := length x).
  assert (E : RtoC (Rsum_n (fun k => Cnorm2 (dft s x k)) N) = RtoC (INR N * Cenergy x)).
  2:{ injection E as E. exact E. }
  rewrite RtoC_Rsum_n.
  rewrite (Csum_n_ext _ (fun k =>
             Csum_n (fun m =>
               Csum_n (fun m' =>
                 Cmul (Cmul (nth m x C0) (Cconj (nth m' x C0)))
                      (Cexp_i (s * (2 * PI * INR k * INR m / INR N)
                               + - (s * (2 * PI * INR k * INR m' / INR N))))) N) N)).
  2:{ intros k Hk. rewrite <- Cmul_conj. unfold dft. fold N.
      rewrite Cconj_sum, <- Csum_n_mul_r. apply Csum_n_ext. intros m Hm.
      rewrite <- Csum_n_mul_l. apply Csum_n_ext. intros m' Hm'.
      rewrite Cconj_mul, Cconj_exp, Cexp_i_add.
      generalize (Cexp_i (s * (2 * PI * INR k * INR m / INR N))).
      generalize (Cexp_i (- (s * (2 * PI * INR k * INR m' / INR N)))).
      intros a b. cring. }
  rewrite Csum_n_swap.
  rewrite (Csum_n_ext _ (fun m => Cmul (RtoC (Cnorm2 (nth m x C0))) (RtoC (INR N)))).
  2:{ intros m Hm. rewrite Csum_n_swap.
      rewrite (Csum_n_ext _ (fun m' => Cmul (Cmul (nth m x C0) (Cconj (nth m' x C0)))
                                            (if Nat.eqb m m' then RtoC (INR N) else C0))).
      2:{ intros m' Hm'. rewrite Csum_n_mul_l, roots_sum_signed by assumption. reflexivity. }
      rewrite (Csum_n_single _ m) by
        (try assumption; intros m' Hm' Hne;
         rewrite (proj2 (Nat.eqb_neq m m')) by auto; apply Cmul_0_r).
      rewrite Nat.eqb_refl, Cmul_conj. reflexivity. }
  rewrite Csum_n_mul_r, <- RtoC_Rsum_n.
  unfold N. rewrite <- Cenergy_indexed. cring.
Qed.

Lemma Cnorm2_scale r z : Cnorm2 (Cscale r z) = (r * r * Cnorm2 z)%R.
Proof. unfold Cnorm2, Cscale. cbn [fst snd]. ring. Qed.

Lemma fftn_energy (x : list C) :
  Cenergy (map (dft (-1) x) (seq 0 (length x))) = (INR (length x) * Cenergy x)%R.
Proof. rewrite Cenergy_seq. apply dft_energy. right. reflexivity. Qed.

Lemma ifftn_energy (x : list C) :
  x <> [] ->
  (INR (length x)
   * Cenergy (map (fun k => Cscale (1 / INR (length x)) (dft 1 x k)) (seq 0 (length x))))%R
  = Cenergy x.
Proof.
  intros Hx.
  assert (HN : (0 < INR (length x))%R)
    by (apply lt_0_INR; destruct x; [contradiction | cbn; lia]).
  rewrite Cenergy_seq.
  rewrite (Rsum_n_ext _ (fun k => (1 / INR (length x) * (1 / INR (length x))
                                   * Cnorm2 (dft 1 x k))%R))
    by (intros k _; apply Cnorm2_scale).
  rewrite Rsum_n_scale, dft_energy by (left; reflexivity).
  field. lra.
Qed.

(** The value of [simu_motion], written out. *)
Lemma simu_motion_value (fp so : list R) :
  length fp = length so ->
  (2 <= length so)%nat ->
  exists T,
    length T = length so /\
    let x := ifftshift (map RtoC so) in
    let fi := fftshift (map (dft (-1) x) (seq 0 (length x))) in
    let fm := map (fun ab : C * C => Cmul (fst ab) (snd ab)) (combine fi (map Cexp_i T)) in
    simu_motion fp so true
    = inr (RealArray
             (map Cabs (ifftshift (map (fun k => Cscale (1 / INR (length fm)) (dft 1 fm k))
                                       (seq 0 (length fm)))))).
Proof.
  intros Hlen HN. unfold simu_motion.
  assert (Hx : length (ifftshift (map RtoC so)) = length so)
    by (rewrite ifftshift_length, length_map; reflexivity).
  rewrite fftn_inr by (apply nonempty_length; lia).
  rewrite bind_inr, !py_div_inr by lia. rewrite !bind_inr.
  rewrite broadcast_same by (rewrite length_map, kx_length by lia; apply Nat2Z.id).
  rewrite bind_inr.
  set (kx := map Q2R _).
  assert (Hkx : length kx = length fp)
    by (unfold kx; rewrite length_map, kx_length by lia; apply Nat2Z.id).
  exists (map (fun kd : R * R => (- PI * fst kd * snd kd)%R) (combine kx fp)).
  split; [rewrite length_map, length_combine; lia|].
  cbv zeta. rewrite (map_map _ Cexp_i).
  rewrite broadcast_same
    by (rewrite fftshift_length, !length_map, length_seq, length_combine; lia).
  rewrite bind_inr.
  rewrite ifftn_inr.
  - rewrite bind_inr. reflexivity.
  - apply nonempty_length.
    rewrite length_map, length_combine, fftshift_length, !length_map, length_seq,
      length_combine. lia.
Qed.

(** X27: motion changes phases in the frequency domain only, so it keeps
    the energy of the signal: for a course and a signal of the same
    length, at least 2, the squared samples of the result of
    [simu_motion] add up to the same as those of the signal. *)
Theorem simu_motion_keeps_energy (fp so : list R) :
  length fp = length so ->
  (2 <= length so)%nat ->
  exists som,
    simu_motion fp so true = inr (RealArray som) /\
    energy som = energy so.
Proof.
  intros Hlen HN.
  destruct (simu_motion_value fp so Hlen HN) as (T & HT & Hrun). cbv zeta in Hrun.
  eexists. split; [exact Hrun|].
  set (x := ifftshift (map RtoC so)) in *.
  set (fi := fftshift (map (dft (-1) x) (seq 0 (length x)))) in *.
  set (fm := map (fun ab : C * C => Cmul (fst ab) (snd ab)) (combine fi (map Cexp_i T))) in *.
  assert (Hx : length x = length so)
    by (unfold x; rewrite ifftshift_length, length_map; reflexivity).
  assert (Hfi : length fi = length so)
    by (unfold fi; rewrite fftshift_length, length_map, length_seq; exact Hx).
  assert (Hfm : length fm = length so)
    by (unfold fm; rewrite length_map, length_combine, length_map; lia).
  assert (HNR : (0 < INR (length so))%R) by (apply lt_0_INR; lia).
  rewrite energy_Cabs. unfold ifftshift at 1. rewrite Cenergy_roll.
  apply Rmult_eq_reg_l with (INR (length fm)); [|rewrite Hfm; lra].
  rewrite ifftn_energy by (apply nonempty_length; lia).
  rewrite Hfm. unfold fm. rewrite Cenergy_phases by lia.
  unfold fi, fftshift. rewrite Cenergy_roll, fftn_energy, Hx.
  unfold x, ifftshift. rewrite Cenergy_roll, Cenergy_RtoC. reflexivity.
Qed.

Lemma simu_motion_keeps_energy_witness :
  length [1; -2; 3]%R = length [4; 5; 6]%R /\
  (2 <= length [4; 5; 6]%R)%nat /\
  exists som,
    simu_motion [1; -2; 3]%R [4; 5; 6]%R true = inr (RealArray som) /\
    energy som = energy [4; 5; 6]%R.
Proof.
  assert (H1 : length [1; -2; 3]%R = length [4; 5; 6]%R) by reflexivity.
  assert (H2 : (2 <= length [4; 5; 6]%R)%nat) by (cbn; lia).
  split; [exact H1|]. split; [exact H2|].
  exact (simu_motion_keeps_energy [1; -2; 3]%R [4; 5; 6]%R H1 H2).
Defined.
